(** * PPE detection: bounding boxes, parsers, matchers and statistics

    A shallow embedding of the geometric matching and compliance
    aggregation code of the three Lambda variants

    - [Lambda_PreTrained_and_CustomLabels.py]  (module [CustomLabels]),
    - [Lambda_PreTrained.py]                   (module [PreTrained]),
    - [lambda_function.py]                     (module [VestOnly]),

    together with the properties the specification states about them.

    Coordinates are Python floats that come out of a JSON document, hence
    finite.  The code compares them, and adds two of them in
    [make_bounding_box]; order comparisons of finite floats agree with the
    comparisons of the rationals they denote, so coordinates are rationals
    [Q], [==] on coordinates is [Qeq], and a sum is the rational sum rounded
    to the nearest float ([float_add]). *)

From Stdlib Require Import QArith Qpower Qabs Lqa.
From stdpp Require Import gmap strings list functions pretty sorting.

Local Open Scope Q_scope.

(** ** Comparisons of coordinates, as booleans *)

(** [x < y] and [x > y] of the source. *)
Definition Qltb (x y : Q) : bool := negb (Qle_bool y x).
Definition Qgtb (x y : Q) : bool := Qltb y x.

(** ** Bounding box model (identical in both multi-category variants) *)

(** [class Interval]: a one-dimensional segment. *)
Module Interval.
Record t : Type := mk { min : Q; max : Q }.
End Interval.

(** [class BoundingBox]: the projections on the two axes. *)
Module BoundingBox.
Record t : Type := mk { x_interval : Interval.t; y_interval : Interval.t }.
End BoundingBox.

(** The dictionary Rekognition returns for a bounding box. *)
Record BoxData : Type := mkBoxData {
  Width : Q;
  Height : Q;
  Left : Q;
  Top : Q
}.

(** Python's [min] and [max] on two numbers: [min(a, b)] is [b] when
    [b < a] and [a] otherwise, [max(a, b)] is [b] when [b > a]. *)
Definition py_min (a b : Q) : Q := if Qltb b a then b else a.
Definition py_max (a b : Q) : Q := if Qgtb b a then b else a.

(** ** Sums of coordinates

    Coordinates are binary64 floats (53 significant bits, the last place at
    [2^-1074] at the finest), given by their values.  Comparisons are exact;
    a sum is the exact sum rounded to the nearest float, ties going to the
    float whose last bit is zero.  Sums are taken to stay within the range
    of binary64 (Rekognition reports ratios of the image size). *)

(** The integer nearest to [n / d], ties going to the even one. *)
Definition round_half_even (n : Z) (d : positive) : Z :=
  let floor := (n / Zpos d)%Z in
  match (2 * (n mod Zpos d) ?= Zpos d)%Z with
  | Lt => floor
  | Gt => (floor + 1)%Z
  | Eq => if Z.even floor then floor else (floor + 1)%Z
  end.

(** The integer [e] with [2^e <= n / d < 2^(e+1)], for positive [n]. *)
Definition floor_log2 (n : Z) (d : positive) : Z :=
  let k := (Z.log2 n - Z.log2 (Zpos d))%Z in
  if (0 <=? k)%Z
  then if (Zpos d * 2 ^ k <=? n)%Z then k else (k - 1)%Z
  else if (Zpos d <=? n * 2 ^ (- k))%Z then k else (k - 1)%Z.

(** The exponent of the last place of the floats around [x], for [x] other
    than zero. *)
Definition last_place (x : Q) : Z :=
  Z.max (floor_log2 (Z.abs (Qnum x)) (Qden x) - 52) (-1074).

(** The float nearest to [x]. *)
Definition round64 (x : Q) : Q :=
  if (Qnum x =? 0)%Z then 0
  else
    let e := last_place x in
    if (0 <=? e)%Z
    then inject_Z (round_half_even (Qnum x) (Qden x * Z.to_pos (2 ^ e)) * 2 ^ e)
    else Qred (round_half_even (Qnum x * 2 ^ (- e)) (Qden x)
               # Z.to_pos (2 ^ (- e))).

(** [a + b] on floats. *)
Definition float_add (a b : Q) : Q := round64 (a + b).

(** The floats: the numbers rounding leaves as they are. *)
Definition representable (x : Q) : Prop := round64 x == x.

(** [make_bounding_box] *)
Definition make_bounding_box (box_data : BoxData) : BoundingBox.t :=
  let width := Width box_data in
  let height := Height box_data in
  let left := Left box_data in
  let top := Top box_data in
  let right := float_add left width in
  let bottom := float_add top height in
  BoundingBox.mk
    (Interval.mk (py_min left right) (py_max left right))
    (Interval.mk (py_min top bottom) (py_max top bottom)).

(** [if_intervals_intersect]: swap so that the first interval is the one that
    starts first, then compare strictly. *)
Definition if_intervals_intersect (lhs rhs : Interval.t) : bool :=
  let '(lhs, rhs) :=
    if Qgtb (Interval.min lhs) (Interval.min rhs) then (rhs, lhs)
    else (lhs, rhs) in
  Qltb (Interval.min rhs) (Interval.max lhs).

(** [if_boxes_intersect] *)
Definition if_boxes_intersect (lhs_box rhs_box : BoundingBox.t) : bool :=
  let if_x_intersect :=
    if_intervals_intersect (BoundingBox.x_interval lhs_box)
                           (BoundingBox.x_interval rhs_box) in
  let if_y_intersect :=
    if_intervals_intersect (BoundingBox.y_interval lhs_box)
                           (BoundingBox.y_interval rhs_box) in
  if_x_intersect && if_y_intersect.

(** A box given by its corners [(x0, y0)] and [(x1, y1)]. *)
Definition box_of_corners (x0 y0 x1 y1 : Q) : BoundingBox.t :=
  BoundingBox.mk (Interval.mk x0 x1) (Interval.mk y0 y1).

(** [a] ends exactly where [b] starts. *)
Definition meets (a b : Interval.t) : Prop :=
  Interval.max a == Interval.min b.

(** Two boxes touch along an edge or at a corner when, on some axis, the
    projection of one ends exactly where the projection of the other
    starts. *)
Definition boxes_touch (A B : BoundingBox.t) : Prop :=
  meets (BoundingBox.x_interval A) (BoundingBox.x_interval B)
  \/ meets (BoundingBox.x_interval B) (BoundingBox.x_interval A)
  \/ meets (BoundingBox.y_interval A) (BoundingBox.y_interval B)
  \/ meets (BoundingBox.y_interval B) (BoundingBox.y_interval A).

(** The intervals of the box run from the smaller to the larger end. *)
Definition well_formed (A : BoundingBox.t) : Prop :=
  Interval.min (BoundingBox.x_interval A) <= Interval.max (BoundingBox.x_interval A)
  /\ Interval.min (BoundingBox.y_interval A) <= Interval.max (BoundingBox.y_interval A).

(** A box is degenerate when it has no width or no height. *)
Definition degenerate (A : BoundingBox.t) : Prop :=
  Interval.min (BoundingBox.x_interval A) == Interval.max (BoundingBox.x_interval A)
  \/ Interval.min (BoundingBox.y_interval A) == Interval.max (BoundingBox.y_interval A).

Local Close Scope Q_scope.


(** ** Python idioms shared by the three files *)

Local Open Scope string_scope.
Local Open Scope list_scope.

(** The line feed of the message templates. *)
Definition LF : string := String (Ascii.ascii_of_nat 10) EmptyString.

(** [str.lower()] on the ASCII letters label names are made of: the letters
    [A]..[Z] (codes 65 to 90) move 32 places up, every other character stays. *)
Definition ascii_is_upper (c : Ascii.ascii) : bool :=
  let n := Ascii.nat_of_ascii c in (65 <=? n)%nat && (n <=? 90)%nat.

Definition ascii_lower (c : Ascii.ascii) : Ascii.ascii :=
  if ascii_is_upper c then Ascii.ascii_of_nat (Ascii.nat_of_ascii c + 32) else c.

Fixpoint lower (s : string) : string :=
  match s with
  | EmptyString => EmptyString
  | String c s' => String (ascii_lower c) (lower s')
  end.

(** [x in names] for a list of strings. *)
Definition py_in (x : string) (names : list string) : bool :=
  bool_decide (x ∈ names).

(** [len] of a list and of a set, as Python integers. *)
Definition py_len {A} (l : list A) : Z := Z.of_nat (length l).
Definition py_len_set (s : gset string) : Z := Z.of_nat (size s).

(** [sum] of a list of integers. *)
Definition py_sum (l : list Z) : Z := fold_left Z.add l 0%Z.

(** [str(n)] and [sep.join(parts)]. *)
Definition py_str (n : Z) : string := pretty n.
Definition py_join (sep : string) (parts : list string) : string :=
  String.concat sep parts.

(** [for x in xs: body] when the body cannot raise. *)
Definition for_in {S A : Type} (xs : list A) (body : A -> S -> S) (s : S) : S :=
  fold_left (fun s x => body x s) xs s.

(** [enumerate(xs)] *)
Definition py_enumerate {A : Type} (xs : list A) : list (Z * A) :=
  imap (fun i x => (Z.of_nat i, x)) xs.

(** [for x in xs: body] over a state [S], where the body may raise. *)
Fixpoint for_each {S A : Type} (xs : list A) (body : A -> S -> option S)
    (s : S) : option S :=
  match xs with
  | [] => Some s
  | x :: xs' =>
      match body x s with
      | Some s' => for_each xs' body s'
      | None => None
      end
  end.

(** A [defaultdict(list)] whose [.items()] are iterated: an association list in
    insertion order, keys unique.  [d[k].append(v)] appends to the list under
    [k], creating the key at the end when it is new. *)
Fixpoint dict_append {V : Type} (d : list (string * list V)) (k : string)
    (v : V) : list (string * list V) :=
  match d with
  | [] => [(k, [v])]
  | (k', vs) :: d' =>
      if String.eqb k' k then (k', vs ++ [v]) :: d'
      else (k', vs) :: dict_append d' k v
  end.

(** ** The detector's answer, as the parsers read it *)

(** One instance of a label: both keys are optional in the JSON. *)
Module LabelInstance.
Record t : Type := mk {
  BoundingBox : option BoxData;
  Confidence : option Q
}.
End LabelInstance.

(** One label of [detect_labels]: a name and, optionally, instances. *)
Module Label.
Record t : Type := mk {
  Name : string;
  Instances : option (list LabelInstance.t)
}.
End Label.

(** One entry of [detect_custom_labels]: a name and, optionally, a geometry
    that optionally holds a bounding box. *)
Module CustomLabel.
Record t : Type := mk {
  Name : string;
  Geometry : option (option BoxData)
}.
End CustomLabel.

(** ** Persons and the object store *)

(** [class Person].  The [confidence] attribute exists in
    [Lambda_PreTrained.py] only; it stays [None] in the other variant. *)
Module Person.
Record t : Type := mk {
  equipment : gset string;
  ind : option Z;
  box : option BoundingBox.t;
  confidence : option Q
}.

(** [Person()] *)
Definition new : t := mk ∅ None None None.

Definition set_box (b : BoundingBox.t) (p : t) : t :=
  mk (equipment p) (ind p) (Some b) (confidence p).
Definition set_confidence (c : Q) (p : t) : t :=
  mk (equipment p) (ind p) (box p) (Some c).
Definition set_ind (i : Z) (p : t) : t :=
  mk (equipment p) (Some i) (box p) (confidence p).
(** [person.equipment.add(group)] *)
Definition add_equipment (group : string) (p : t) : t :=
  mk (equipment p ∪ {[group]}) (ind p) (box p) (confidence p).
End Person.

(** Persons are objects: lists hold references to them and the matcher and
    [Stats] mutate them in place.  A reference is a natural number, the store
    maps every reference to the object's current attributes. *)
Abbreviation ref := nat (only parsing).
Abbreviation store := (nat -> Person.t) (only parsing).

(** The store in which the freshly created objects [persons] sit at the
    references [0], [1], ..., and the list of these references. *)
Definition store_of (persons : list Person.t) : store :=
  fun r => nth r persons Person.new.
Definition refs_of (persons : list Person.t) : list ref :=
  seq 0 (length persons).

(** ** Configuration *)

(** [class Config], the part the parsers and [Stats] read.  The dictionary
    [TARGET_PPE_GROUP_KEYS] is iterated in declaration order. *)
Module Config.
Record t : Type := mk {
  PERSON_KEYS : list string;
  TARGET_PPE_GROUP_KEYS : list (string * list string)
}.
End Config.

(** ** [str.format] past its last argument *)

(** The braces of format strings: the characters 123 and 125. *)
Definition is_brace (c : Ascii.ascii) : bool :=
  Ascii.eqb c (Ascii.ascii_of_nat 123) || Ascii.eqb c (Ascii.ascii_of_nat 125).

(** [str.format] on the part of a template that follows an automatically
    numbered placeholder which took the only argument: a doubled brace
    stands for one brace, every other character for itself.  A single
    opening brace starts a replacement field, for which no argument is left
    ([IndexError]), which may not be numbered or named ([ValueError],
    [KeyError]) or which is not closed ([ValueError]); a single closing
    brace is a [ValueError].  No value stands for any of these. *)
Fixpoint format_rest (template : string) : option string :=
  match template with
  | EmptyString => Some EmptyString
  | String c rest =>
      if is_brace c then
        match rest with
        | String c' rest' =>
            if Ascii.eqb c c' then String c <$> format_rest rest' else None
        | EmptyString => None
        end
      else String c <$> format_rest rest
  end.

(** ** The response sent to the topic *)

(** [str(x)] of an attribute that holds an integer or [None]. *)
Definition py_str_opt (x : option Z) : string :=
  match x with
  | Some n => py_str n
  | None => "None"
  end.

(** [d[k] = v] on a dictionary kept in insertion order: the value under an
    existing key is replaced in place, a new key goes to the end. *)
Fixpoint dict_set {V : Type} (d : list (string * V)) (k : string) (v : V)
    : list (string * V) :=
  match d with
  | [] => [(k, v)]
  | (k', v') :: d' =>
      if String.eqb k' k then (k', v) :: d' else (k', v') :: dict_set d' k v
  end.

(** The dictionary [prepare_response] returns, key by key; an entry of
    [EquipmentPerPerson] is the pair of its [ind] and [equipment]. *)
Module Response.
Record t : Type := mk {
  Message : string;
  ImageUrl : string;
  PopulationSize : Z;
  UnequippedSize : Z;
  EquipmentPerPerson : list (option Z * list string);
  PersonsPerEquipment : list (string * list string)
}.
End Response.

(** ** Statistics (the class [Stats], the same in both variants but for the
    first line of the message) *)

Module Stats.

(** The two attributes hold references to the persons.
    [equipment2person] is a [defaultdict(list)] read by key only. *)
Record t : Type := mk {
  population : list ref;
  equipment2person : gmap string (list ref)
}.

(** [d[key]] on a [defaultdict(list)]: a missing key is created with an empty
    list. *)
Definition defaultdict_get (d : gmap string (list ref)) (key : string)
    : list ref * gmap string (list ref) :=
  match d !! key with
  | Some persons => (persons, d)
  | None => ([], <[key := []]> d)
  end.

Section Iteration.

(** The order in which Python iterates a set of strings is chosen by the
    interpreter (it depends on the hashes of the strings, which vary from
    one process to the next); the language only promises that every
    element comes once.  [set_iter] is that order. *)
Variable set_iter : gset string -> list string.

(** [_add_person] *)
Definition _add_person (person : ref) (st : t * store) : t * store :=
  let '(self, h) := st in
  let h := <[person := Person.set_ind (py_len (population self)) (h person)]> h in
  let population' := population self ++ [person] in
  let equipment2person' :=
    for_in (set_iter (Person.equipment (h person)))
      (fun key e2p =>
         let '(persons, e2p) := defaultdict_get e2p key in
         <[key := persons ++ [person]]> e2p)
      (equipment2person self) in
  (mk population' equipment2person', h).

(** [__init__] *)
Definition init (population : list ref) (h : store) : t * store :=
  for_in population _add_person (mk [] ∅, h).

(** [population_size] *)
Definition population_size (self : t) : Z := py_len (population self).

(** [unequipped_size] *)
Definition unequipped_size (self : t) (h : store) : Z :=
  py_sum (flat_map
            (fun entry =>
               if (py_len_set (Person.equipment (h entry)) =? 0)%Z
               then [1%Z] else [])
            (population self)).

(** [equipped_size] *)
Definition equipped_size (self : t) (h : store) : Z :=
  (population_size self - unequipped_size self h)%Z.

(** The names joined on a person's line, in the order the set yields
    them. *)
Definition worn (h : store) (person : ref) : list string :=
  set_iter (Person.equipment (h person)).

(** One line of the second loop of [prepare_message].  For an equipped
    person [format] is applied to the concatenation
    ["Person {} wears: " + ", ".join(person.equipment) + ".\n"]: the
    placeholder of the prefix takes [idx], and what follows it, the joined
    names included, is still part of the template. *)
Definition person_line (h : store) (idx : Z) (person : ref) : option string :=
  if (0 <? py_len_set (Person.equipment (h person)))%Z
  then
    rest ← format_rest (" wears: " +:+ py_join ", " (worn h person)
                        +:+ "." +:+ LF);
    Some ("Person " +:+ py_str idx +:+ rest)
  else Some ("Person " +:+ py_str idx +:+ " is unequipped." +:+ LF).

(** [prepare_message].  [header] is what the template of the first line
    starts with before the population line: ["Report: \n"] in one variant,
    nothing in the other; it holds no brace, so [format] copies it.  Reading [equipment2person] may create keys, so the updated
    object is returned with the text.  No value stands for the exception
    [format] raises on a person's line. *)
Definition prepare_message (header : string) (cfg : Config.t) (self : t)
    (h : store) : option (string * t) :=
  let message :=
    header +:+ "Found " +:+ py_str (population_size self) +:+ " persons." +:+ LF in
  let message :=
    message +:+ "Without equipment: " +:+ py_str (unequipped_size self h)
            +:+ "." +:+ LF in
  let '(message, e2p) :=
    for_in (Config.TARGET_PPE_GROUP_KEYS cfg)
      (fun '(equipment_group, _) '(message, e2p) =>
         let '(persons, e2p) := defaultdict_get e2p equipment_group in
         (message +:+ "Persons with " +:+ equipment_group +:+ ": "
                  +:+ py_str (py_len persons) +:+ "." +:+ LF, e2p))
      (message, equipment2person self) in
  message ← for_each (py_enumerate (population self))
              (fun '(idx, person) message =>
                 line ← person_line h idx person;
                 Some (message +:+ line))
              message;
  Some (message, mk (population self) e2p).

(** [prepare_response].  The message is prepared first; the lists of
    [PersonsPerEquipment] are read from [equipment2person] afterwards, key by
    key of the configuration. *)
Definition prepare_response (header : string) (cfg : Config.t)
    (presigned_url : string) (self : t) (h : store) : option (Response.t * t) :=
  '(message, self) ← prepare_message header cfg self h;
  let equipment_per_person :=
    map (fun person =>
           (Person.ind (h person), set_iter (Person.equipment (h person))))
        (population self) in
  let '(persons_per_equipment, e2p) :=
    for_in (Config.TARGET_PPE_GROUP_KEYS cfg)
      (fun '(key, _) '(d, e2p) =>
         let '(persons, e2p) := defaultdict_get e2p key in
         (dict_set d key
            (map (fun person => py_str_opt (Person.ind (h person))) persons),
          e2p))
      ([], equipment2person self) in
  Some (Response.mk message presigned_url (population_size self)
          (unequipped_size self h) equipment_per_person persons_per_equipment,
        mk (population self) e2p).

End Iteration.

End Stats.

(** ** [Lambda_PreTrained.py] *)

Module PreTrained.

(** [class Config]: names are compared as they are, capitalised. *)
Definition config : Config.t :=
  Config.mk ["Person"; "Human"]
            [("helmet", ["Helmet"; "Hardhat"]); ("boot", ["Boot"; "Shoe"])].

(** The person an instance with both keys gives rise to. *)
Definition person_of (box_data : BoxData) (confidence : Q) : Person.t :=
  Person.set_confidence confidence
    (Person.set_box (make_bounding_box box_data) Person.new).

(** [parse_objects], on the list under ['Labels']. *)
Definition parse_objects (cfg : Config.t) (response_labels : list Label.t)
    : list Person.t * list (string * list BoundingBox.t) :=
  for_in response_labels
    (fun label '(population, equipment_boxes) =>
       match Label.Instances label with
       | Some instances =>
           if py_in (Label.Name label) (Config.PERSON_KEYS cfg) then
             (for_in instances
                (fun entry population =>
                   match LabelInstance.BoundingBox entry,
                         LabelInstance.Confidence entry with
                   | Some box_data, Some confidence =>
                       population ++ [person_of box_data confidence]
                   | _, _ => population
                   end)
                population,
              equipment_boxes)
           else
             (population,
              for_in (Config.TARGET_PPE_GROUP_KEYS cfg)
                (fun '(group, names) equipment_boxes =>
                   if negb (py_in (Label.Name label) names)
                   then equipment_boxes
                   else
                     for_in instances
                       (fun entry equipment_boxes =>
                          match LabelInstance.BoundingBox entry,
                                LabelInstance.Confidence entry with
                          | Some box_data, Some _ =>
                              dict_append equipment_boxes group
                                (make_bounding_box box_data)
                          | _, _ => equipment_boxes
                          end)
                       equipment_boxes)
                equipment_boxes)
       | None => (population, equipment_boxes)
       end)
    ([], []).

(** The matching loop of [build_stats]: persons outermost.  Reading
    [x_interval] of a box that is [None] raises. *)
Definition match_equipment (population : list ref)
    (equipment_boxes : list (string * list BoundingBox.t)) (h : store)
    : option store :=
  for_each population
    (fun person =>
       for_each equipment_boxes
         (fun '(group, boxes) =>
            for_each boxes
              (fun box h =>
                 match Person.box (h person) with
                 | Some person_box =>
                     if if_boxes_intersect person_box box
                     then Some (<[person := Person.add_equipment group (h person)]> h)
                     else Some h
                 | None => None
                 end)))
    h.

(** [build_stats] from the detector's answer on. *)
Definition build_stats (set_iter : gset string -> list string)
    (cfg : Config.t) (response_labels : list Label.t)
    : option (Stats.t * store) :=
  let '(persons, equipment_boxes) := parse_objects cfg response_labels in
  match match_equipment (refs_of persons) equipment_boxes (store_of persons) with
  | Some h => Some (Stats.init set_iter (refs_of persons) h)
  | None => None
  end.

(** [Stats.prepare_message] of this file. *)
Definition prepare_message (set_iter : gset string -> list string)
    (cfg : Config.t) (self : Stats.t) (h : store) : option (string * Stats.t) :=
  Stats.prepare_message set_iter "" cfg self h.

End PreTrained.

(** ** [Lambda_PreTrained_and_CustomLabels.py] *)

Module CustomLabels.

(** [class Config] as declared: all names in lower case. *)
Definition PERSON_KEYS : list string := ["person"; "human"; "child"].
Definition TURNED_ON_CUSTOM_MODULES : list string := ["mask"].
Definition CUSTOM_LABEL_ARNS_keys : list string := ["vest"; "mask"].
Definition TARGET_PPE_GROUP_KEYS : list (string * list string) :=
  [("helmet", ["helmet"; "hardhat"]);
   ("vest", ["vest"; "waistcoat"; "safetyjacket"]);
   ("mask", ["mask"; "masks"]);
   ("boot", ["boot"; "shoe"])].

(** The first loop of [lambda_handler]: a group with a custom model that is
    not turned on is deleted from the table. *)
Definition active_groups (groups : list (string * list string))
    : list (string * list string) :=
  List.filter
    (fun '(key_entry, _) =>
       negb (py_in key_entry CUSTOM_LABEL_ARNS_keys
             && negb (py_in key_entry TURNED_ON_CUSTOM_MODULES)))
    groups.

(** The configuration the parsers see when [lambda_handler] calls them. *)
Definition config : Config.t :=
  Config.mk PERSON_KEYS (active_groups TARGET_PPE_GROUP_KEYS).

(** The person an instance with a bounding box gives rise to. *)
Definition person_of (box_data : BoxData) : Person.t :=
  Person.set_box (make_bounding_box box_data) Person.new.

(** [parse_general_objects] *)
Definition parse_general_objects (cfg : Config.t)
    (response_labels : list Label.t)
    : list Person.t * list (string * list BoundingBox.t) :=
  for_in response_labels
    (fun label '(population, equipment_boxes) =>
       match Label.Instances label with
       | Some instances =>
           if py_in (lower (Label.Name label)) (Config.PERSON_KEYS cfg) then
             (for_in instances
                (fun entry population =>
                   match LabelInstance.BoundingBox entry with
                   | Some box_data => population ++ [person_of box_data]
                   | None => population
                   end)
                population,
              equipment_boxes)
           else
             (population,
              for_in (Config.TARGET_PPE_GROUP_KEYS cfg)
                (fun '(group, names) equipment_boxes =>
                   if negb (py_in (lower (Label.Name label)) names)
                   then equipment_boxes
                   else
                     for_in instances
                       (fun entry equipment_boxes =>
                          match LabelInstance.BoundingBox entry with
                          | Some box_data =>
                              dict_append equipment_boxes group
                                (make_bounding_box box_data)
                          | None => equipment_boxes
                          end)
                       equipment_boxes)
                equipment_boxes)
       | None => (population, equipment_boxes)
       end)
    ([], []).

(** [parse_custom_objects]: writes into the [equipment_boxes] it is given. *)
Definition parse_custom_objects (cfg : Config.t)
    (response_labels : list CustomLabel.t)
    (equipment_boxes : list (string * list BoundingBox.t))
    : list (string * list BoundingBox.t) :=
  for_in response_labels
    (fun entry =>
       for_in (Config.TARGET_PPE_GROUP_KEYS cfg)
         (fun '(group, names) equipment_boxes =>
            if negb (py_in (lower (CustomLabel.Name entry)) names)
            then equipment_boxes
            else
              match CustomLabel.Geometry entry with
              | Some (Some box_data) =>
                  dict_append equipment_boxes group (make_bounding_box box_data)
              | _ => equipment_boxes
              end))
    equipment_boxes.

(** The matching loop of [build_stats]: groups outermost, persons
    innermost; a box that met more than one person is reported.  The state
    is the store and the warnings logged so far (group and count). *)
Definition match_equipment (population : list ref)
    (equipment_boxes : list (string * list BoundingBox.t))
    (st : store * list (string * Z)) : option (store * list (string * Z)) :=
  for_each equipment_boxes
    (fun '(group_name, group_boxes) =>
       for_each group_boxes
         (fun box '(h, warnings) =>
            match
              for_each population
                (fun person '(h, intersected_count) =>
                   match Person.box (h person) with
                   | Some person_box =>
                       if if_boxes_intersect person_box box
                       then Some (<[person := Person.add_equipment group_name (h person)]> h,
                                  (intersected_count + 1)%Z)
                       else Some (h, intersected_count)
                   | None => None
                   end)
                (h, 0%Z)
            with
            | Some (h, intersected_count) =>
                if (1 <? intersected_count)%Z
                then Some (h, warnings ++ [(group_name, intersected_count)])
                else Some (h, warnings)
            | None => None
            end))
    st.

(** [build_stats] from the two detectors' answers on. *)
Definition build_stats (set_iter : gset string -> list string)
    (cfg : Config.t) (general_response_labels : list Label.t)
    (custom_response_labels : list CustomLabel.t)
    : option (Stats.t * store * list (string * Z)) :=
  let '(persons, equipment_boxes) :=
    parse_general_objects cfg general_response_labels in
  let equipment_boxes :=
    parse_custom_objects cfg custom_response_labels equipment_boxes in
  match match_equipment (refs_of persons) equipment_boxes (store_of persons, []) with
  | Some (h, warnings) =>
      Some (Stats.init set_iter (refs_of persons) h, warnings)
  | None => None
  end.

(** [Stats.prepare_message] of this file. *)
Definition prepare_message (set_iter : gset string -> list string)
    (cfg : Config.t) (self : Stats.t) (h : store) : option (string * Stats.t) :=
  Stats.prepare_message set_iter ("Report: " +:+ LF) cfg self h.

End CustomLabels.

(** ** Python lists indexed by integers *)

(** [l[i]]: a negative index counts from the end, an index out of range
    raises [IndexError] (no value). *)
Definition py_index {A : Type} (l : list A) (i : Z) : option A :=
  let n := py_len l in
  if ((0 <=? i) && (i <? n))%Z then l !! Z.to_nat i
  else if ((- n <=? i) && (i <? 0))%Z then l !! Z.to_nat (n + i)
  else None.

(** [del l[i]] *)
Definition py_del {A : Type} (l : list A) (i : Z) : option (list A) :=
  let n := py_len l in
  if ((0 <=? i) && (i <? n))%Z then Some (delete (Z.to_nat i) l)
  else if ((- n <=? i) && (i <? 0))%Z then Some (delete (Z.to_nat (n + i)) l)
  else None.

(** ** [lambda_function.py]: persons and vests only *)

Module VestOnly.

(** The dictionary [getBoundingBoxCoordinates] returns: the four corners. *)
Record Coordinates : Type := mkCoordinates {
  x1 : Q; y1 : Q; x2 : Q; y2 : Q; x3 : Q; y3 : Q; x4 : Q; y4 : Q
}.

(** An entry of the lists [getPersonsAndVests] builds. *)
Record Detection : Type := mkDetection {
  BoundingBox : BoxData;
  BoundingBoxCoordinates : Coordinates;
  Confidence : Q
}.

(** An entry of [personsWithvests]. *)
Record Pair : Type := mkPair { Person : Detection; Vest : Detection }.

(** The condition of the [if] in the inner loop: none of the four
    separations holds.  The separations are strict, so boxes that share an
    edge or a corner satisfy it. *)
Definition overlaps (vest person : Detection) : bool :=
  let v := BoundingBoxCoordinates vest in
  let p := BoundingBoxCoordinates person in
  negb (Qltb (x2 v) (x1 p) || Qgtb (x1 v) (x2 p)
        || Qltb (y4 v) (y1 p) || Qgtb (y1 v) (y4 p)).

(** The variables the two loops share. *)
Record state : Type := mkState {
  persons : list Detection;
  vests : list Detection;
  personsWithvests : list Pair;
  matched : Z
}.

(** The inner [while (p < totalPersons)], entered with the current [vest]
    and the outer counter [h].  [fuel] bounds the number of tests of the
    loop condition; no value stands for an [IndexError] or for fuel that ran
    out. *)
Fixpoint inner_loop (fuel : nat) (vest : Detection) (h totalPersons p : Z)
    (st : state) : option state :=
  match fuel with
  | O => None
  | S fuel =>
      if (p <? totalPersons)%Z then
        person ← py_index (persons st) p;
        if overlaps vest person then
          let personsWithvests' := personsWithvests st ++ [mkPair person vest] in
          persons' ← py_del (persons st) p;
          vests' ← py_del (vests st) (h - matched st);
          Some (mkState persons' vests' personsWithvests' (matched st + 1))
        else inner_loop fuel vest h totalPersons (p + 1) st
      else Some st
  end.

(** The outer [while (h < totalvests)]. *)
Fixpoint outer_loop (fuel : nat) (totalvests h : Z) (st : state)
    : option state :=
  match fuel with
  | O => None
  | S fuel =>
      if (h <? totalvests)%Z then
        vest ← py_index (vests st) (h - matched st);
        let totalPersons := py_len (persons st) in
        st' ← inner_loop (S (length (persons st))) vest h totalPersons 0 st;
        outer_loop fuel totalvests (h + 1) st'
      else Some st
  end.

(** [matchPersonsAndVests]: the two lists are copied, then matched. *)
Definition matchPersonsAndVests (personsList vestsList : list Detection)
    : option (list Pair * list Detection * list Detection) :=
  let persons := for_in personsList (fun person persons => persons ++ [person]) [] in
  let vests := for_in vestsList (fun vest vests => vests ++ [vest]) [] in
  let totalvests := py_len vests in
  st ← outer_loop (S (length vests)) totalvests 0 (mkState persons vests [] 0);
  Some (personsWithvests st, VestOnly.persons st, VestOnly.vests st).

(** *** The greedy one-to-one policy, stated on its own *)

(** The first person of the list that overlaps the vest, with the list
    without that person. *)
Fixpoint first_overlap (vest : Detection) (candidates : list Detection)
    : option (Detection * list Detection) :=
  match candidates with
  | [] => None
  | person :: rest =>
      if overlaps vest person then Some (person, rest)
      else
        match first_overlap vest rest with
        | Some (found, rest') => Some (found, person :: rest')
        | None => None
        end
  end.

(** Vests are taken in list order; each takes the first remaining person it
    overlaps, and both leave the game. *)
Fixpoint greedy_matching (candidates vestsList : list Detection)
    : list Pair * list Detection * list Detection :=
  match vestsList with
  | [] => ([], candidates, [])
  | vest :: vestsList' =>
      match first_overlap vest candidates with
      | Some (person, candidates') =>
          let '(pairs, unmatched, spare) := greedy_matching candidates' vestsList' in
          (mkPair person vest :: pairs, unmatched, spare)
      | None =>
          let '(pairs, unmatched, spare) := greedy_matching candidates vestsList' in
          (pairs, unmatched, vest :: spare)
      end
  end.

End VestOnly.

(** ** What the specification says of a constructed [Stats] *)

(** Every person of the population carries its zero-based position as
    [ind]. *)
Definition indexed_by_position (st : Stats.t * store) : Prop :=
  forall (i : nat) (person : ref),
    Stats.population st.1 !! i = Some person ->
    Person.ind (st.2 person) = Some (Z.of_nat i).

(** No two positions of the population carry the same [ind]. *)
Definition ind_unique (st : Stats.t * store) : Prop :=
  forall (i j : nat) (p q : ref),
    Stats.population st.1 !! i = Some p ->
    Stats.population st.1 !! j = Some q ->
    Person.ind (st.2 p) = Person.ind (st.2 q) -> i = j.

(** ** What the specification says of the matcher *)

(** The person [r] of the store [h] has a box, and it intersects [b]. *)
Definition hits (h : store) (r : ref) (b : BoundingBox.t) : Prop :=
  exists person_box,
    Person.box (h r) = Some person_box
    /\ if_boxes_intersect person_box b = true.

(** Some box filed under the category [c] is hit by the person [r]. *)
Definition wears (equipment_boxes : list (string * list BoundingBox.t))
    (h : store) (r : ref) (c : string) : Prop :=
  exists boxes b, (c, boxes) ∈ equipment_boxes /\ b ∈ boxes /\ hits h r b.

(** From [h] to [h'] nothing but equipment sets changed. *)
Definition frame (h h' : store) : Prop :=
  forall r,
    Person.box (h' r) = Person.box (h r)
    /\ Person.ind (h' r) = Person.ind (h r)
    /\ Person.confidence (h' r) = Person.confidence (h r).

(** From [h] to [h'] the equipment sets grew by exactly the categories [P]
    relates their owners to. *)
Definition extends (h h' : store) (P : ref -> string -> Prop) : Prop :=
  frame h h'
  /\ forall r c,
       c ∈ Person.equipment (h' r) <-> c ∈ Person.equipment (h r) \/ P r c.

(** The outcome the specification describes: the persons of the population
    end with exactly the categories they wear, everything else is as it
    was. *)
Definition matched (population : list ref)
    (equipment_boxes : list (string * list BoundingBox.t))
    (h h' : store) : Prop :=
  frame h h'
  /\ (forall r, r ∉ population ->
        Person.equipment (h' r) = Person.equipment (h r))
  /\ (forall r, r ∈ population ->
        forall c, c ∈ Person.equipment (h' r) <-> wears equipment_boxes h r c).

(** ** What the specification says of the parsers *)

(** The instances of a label; a label without the key has none. *)
Definition instances_of (label : Label.t) : list LabelInstance.t :=
  default [] (Label.Instances label).

(** The person of an instance that carries a box and a confidence. *)
Definition person_with_both (entry : LabelInstance.t) : option Person.t :=
  match LabelInstance.BoundingBox entry, LabelInstance.Confidence entry with
  | Some box_data, Some confidence =>
      Some (PreTrained.person_of box_data confidence)
  | _, _ => None
  end.

(** The person of an instance that carries a box. *)
Definition person_with_box (entry : LabelInstance.t) : option Person.t :=
  match LabelInstance.BoundingBox entry with
  | Some box_data => Some (CustomLabels.person_of box_data)
  | None => None
  end.

(** One person per accepted instance of every label whose name is a person
    name, in the order of the answer. *)
Definition expected_persons (is_person : string -> bool)
    (accept : LabelInstance.t -> option Person.t) (labels : list Label.t)
    : list Person.t :=
  flat_map
    (fun label =>
       if is_person (Label.Name label)
       then omap accept (instances_of label) else [])
    labels.

(** Two characters that differ at most by their case. *)
Definition ascii_case_variant (c d : Ascii.ascii) : Prop :=
  c = d
  \/ (ascii_is_upper c = true /\ d = ascii_lower c)
  \/ (ascii_is_upper d = true /\ c = ascii_lower d).

(** Two names that differ at most by the case of their letters. *)
Fixpoint case_variant (s t : string) : Prop :=
  match s, t with
  | EmptyString, EmptyString => True
  | String c s', String d t' => ascii_case_variant c d /\ case_variant s' t'
  | _, _ => False
  end.

(** Two label records that differ at most by the case of the name. *)
Definition label_case_variant (l l' : Label.t) : Prop :=
  case_variant (Label.Name l) (Label.Name l')
  /\ Label.Instances l = Label.Instances l'.

Definition custom_label_case_variant (l l' : CustomLabel.t) : Prop :=
  case_variant (CustomLabel.Name l) (CustomLabel.Name l')
  /\ CustomLabel.Geometry l = CustomLabel.Geometry l'.

(** ** What the specification says of the summary *)

(** [set_iter] is an iteration order: every element of the set comes
    once. *)
Definition enumerates (set_iter : gset string -> list string) : Prop :=
  forall s, set_iter s ≡ₚ elements s.

(** A list of names in alphabetical order (the order of [str] comparison,
    character code by character code). *)
Definition alphabetical (names : list string) : Prop :=
  Sorted String.le names.

(** The iteration order the specification asks for: the names sorted. *)
Definition alphabetical_iter (s : gset string) : list string :=
  merge_sort String.le (elements s).

(** The concatenation of a list of lines. *)
Definition lines (l : list string) : string := foldr String.append "" l.

(** The line [prepare_message] writes for a configured group, given what
    [equipment2person] holds. *)
Definition group_line (e2p : gmap string (list ref))
    (entry : string * list string) : string :=
  "Persons with " +:+ entry.1 +:+ ": "
  +:+ py_str (py_len (default [] (e2p !! entry.1))) +:+ "." +:+ LF.

(** The line of a person with the names as they are: what [format] renders
    when no name holds a brace. *)
Definition plain_line (set_iter : gset string -> list string) (h : store)
    (idx : Z) (person : ref) : string :=
  if (0 <? py_len_set (Person.equipment (h person)))%Z
  then "Person " +:+ py_str idx +:+ " wears: "
       +:+ py_join ", " (Stats.worn set_iter h person) +:+ "." +:+ LF
  else "Person " +:+ py_str idx +:+ " is unequipped." +:+ LF.

(** The text of the summary in closed form, given the lines of the persons:
    the two count lines, one line per configured group, one line per
    person. *)
Definition message_of_lines (header : string) (cfg : Config.t)
    (self : Stats.t) (h : store) (person_lines : list string) : string :=
  ((header +:+ "Found " +:+ py_str (Stats.population_size self) +:+ " persons." +:+ LF)
   +:+ "Without equipment: " +:+ py_str (Stats.unequipped_size self h) +:+ "." +:+ LF)
  +:+ lines (map (group_line (Stats.equipment2person self))
                 (Config.TARGET_PPE_GROUP_KEYS cfg))
  +:+ lines person_lines.

(** The summary when every line is rendered; nothing when [format] raises
    on the line of some person. *)
Definition message_text (set_iter : gset string -> list string)
    (header : string) (cfg : Config.t) (self : Stats.t) (h : store)
    : option string :=
  message_of_lines header cfg self h
    <$> mapM (fun entry => Stats.person_line set_iter h entry.1 entry.2)
             (py_enumerate (Stats.population self)).

(** The summary with the names as they are. *)
Definition plain_text (set_iter : gset string -> list string)
    (header : string) (cfg : Config.t) (self : Stats.t) (h : store) : string :=
  message_of_lines header cfg self h
    (map (fun entry => plain_line set_iter h entry.1 entry.2)
         (py_enumerate (Stats.population self))).

(** No character of the name is a brace. *)
Fixpoint brace_free (name : string) : bool :=
  match name with
  | EmptyString => true
  | String c rest => negb (is_brace c) && brace_free rest
  end.

(** No name worn by a person of the population holds a brace. *)
Definition names_brace_free (self : Stats.t) (h : store) : Prop :=
  forall person name,
    person ∈ Stats.population self ->
    name ∈ Person.equipment (h person) ->
    brace_free name = true.

(** An iteration order as legitimate as any other: the names in reverse
    alphabetical order. *)
Definition reversed_iter (s : gset string) : list string :=
  reverse (alphabetical_iter s).

(** A detection of [lambda_function.py] whose box has the corners
    [(left, top)] and [(right, bottom)]. *)
Definition detection_of_corners (left top right bottom : Q)
    : VestOnly.Detection :=
  VestOnly.mkDetection
    (mkBoxData (right - left) (bottom - top) left top)
    (VestOnly.mkCoordinates left top right top right bottom left bottom)
    (99 # 1)%Q.

(** A person fresh from a parser: a box, no equipment yet. *)
Definition fresh (p : Person.t) : Prop :=
  Person.equipment p = ∅ /\ is_Some (Person.box p).

(** ** Geometry the code stands for *)

(** An interval of positive length, and a box of positive width and
    height. *)
Definition proper_interval (i : Interval.t) : Prop :=
  (Interval.min i < Interval.max i)%Q.

Definition proper_box (A : BoundingBox.t) : Prop :=
  proper_interval (BoundingBox.x_interval A)
  /\ proper_interval (BoundingBox.y_interval A).

(** The point [x] lies strictly inside the interval, the point [(x, y)]
    strictly inside the box. *)
Definition inside_interval (x : Q) (i : Interval.t) : Prop :=
  (Interval.min i < x /\ x < Interval.max i)%Q.

Definition inside_box (x y : Q) (A : BoundingBox.t) : Prop :=
  inside_interval x (BoundingBox.x_interval A)
  /\ inside_interval y (BoundingBox.y_interval A).

(** ** The diagnostics of the general variant *)

(** The test of the innermost loop, on the store [h]: the person has a box
    and it intersects [b]. *)
Definition hitsb (h : store) (r : ref) (b : BoundingBox.t) : bool :=
  match Person.box (h r) with
  | Some person_box => if_boxes_intersect person_box b
  | None => false
  end.

(** The number of entries of the population whose box intersects [b]. *)
Definition intersected (population : list ref) (h : store)
    (b : BoundingBox.t) : Z :=
  py_len (List.filter (fun r => hitsb h r b) population).

(** One warning per box that intersects more than one person, in the order
    of the map, with the group and the number of persons. *)
Definition expected_warnings (population : list ref) (h : store)
    (equipment_boxes : list (string * list BoundingBox.t))
    : list (string * Z) :=
  flat_map
    (fun entry =>
       omap (fun b =>
               let n := intersected population h b in
               if (1 <? n)%Z then Some (entry.1, n) else None)
            entry.2)
    equipment_boxes.

(** ** What the parsers file *)

(** [d[k]] on the [defaultdict(list)] of boxes: the list under the key, or
    the empty list. *)
Fixpoint dict_get {V : Type} (d : list (string * list V)) (k : string)
    : list V :=
  match d with
  | [] => []
  | (k', vs) :: d' => if String.eqb k' k then vs else dict_get d' k
  end.

(** A dictionary as the parsers keep it: no key twice, and a key is there
    exactly when something was filed under it. *)
Definition filed {V : Type} (d : list (string * list V)) : Prop :=
  NoDup (map fst d) /\ forall k, k ∈ map fst d <-> dict_get d k <> [].

(** The box of an instance that carries a bounding box and a confidence,
    and of one that carries a bounding box. *)
Definition box_with_both (entry : LabelInstance.t) : option BoundingBox.t :=
  match LabelInstance.BoundingBox entry, LabelInstance.Confidence entry with
  | Some box_data, Some _ => Some (make_bounding_box box_data)
  | _, _ => None
  end.

Definition box_with_box (entry : LabelInstance.t) : option BoundingBox.t :=
  match LabelInstance.BoundingBox entry with
  | Some box_data => Some (make_bounding_box box_data)
  | None => None
  end.

(** The boxes a list of items files under the group [g]: those of the items
    that [offers] gives boxes for, once for every entry of the configuration
    whose group is [g] and whose names hold the item's name. *)
Definition filed_under {L : Type} (name : L -> string)
    (offers : L -> list BoundingBox.t)
    (groups : list (string * list string)) (g : string) (items : list L)
    : list BoundingBox.t :=
  flat_map
    (fun item =>
       flat_map
         (fun entry =>
            if String.eqb entry.1 g && py_in (name item) entry.2
            then offers item else [])
         groups)
    items.

(** What a label of the general detector offers: nothing when its name is a
    person name, else the boxes of its accepted instances. *)
Definition label_offers (is_person : string -> bool)
    (accept : LabelInstance.t -> option BoundingBox.t) (label : Label.t)
    : list BoundingBox.t :=
  if is_person (Label.Name label) then []
  else omap accept (instances_of label).

(** What an entry of the custom detectors offers: the box of its geometry,
    when it has both. *)
Definition custom_offers (entry : CustomLabel.t) : list BoundingBox.t :=
  match CustomLabel.Geometry entry with
  | Some (Some box_data) => [make_bounding_box box_data]
  | _ => []
  end.

(** The box of the person [r] intersects some box of the map. *)
Definition overlaps_some (equipment_boxes : list (string * list BoundingBox.t))
    (h : store) (r : ref) : bool :=
  existsb (fun entry => existsb (fun b => hitsb h r b) entry.2) equipment_boxes.

(** ** The input side of [lambda_function.py] *)

Module VestOnlyInput.

Section Floats.

(** Python's [*] and [+] on floats; nothing is assumed of their rounding. *)
Variables (float_mul float_add : Q -> Q -> Q).

(** [getBoundingBoxCoordinates]: the corners clockwise from the top left
    one.  [y1] is scaled by [imageWidth], as in the source. *)
Definition getBoundingBoxCoordinates (boundingBox : BoxData)
    (imageWidth imageHeight : Q) : VestOnly.Coordinates :=
  let boxWidth := float_mul (Width boundingBox) imageWidth in
  let boxHeight := float_mul (Height boundingBox) imageHeight in
  let x1 := float_mul (Left boundingBox) imageWidth in
  let y1 := float_mul (Top boundingBox) imageWidth in
  let x2 := float_add x1 boxWidth in
  let y2 := y1 in
  let x3 := x2 in
  let y3 := float_add y1 boxHeight in
  let x4 := x1 in
  let y4 := y3 in
  VestOnly.mkCoordinates x1 y1 x2 y2 x3 y3 x4 y4.

(** The dictionary appended for one instance; reading a key the instance
    does not have raises [KeyError]. *)
Definition entry_of (imageWidth imageHeight : Q) (instance : LabelInstance.t)
    : option VestOnly.Detection :=
  boundingBox ← LabelInstance.BoundingBox instance;
  let coordinates := getBoundingBoxCoordinates boundingBox imageWidth imageHeight in
  confidence ← LabelInstance.Confidence instance;
  Some (VestOnly.mkDetection boundingBox coordinates confidence).

(** [getPersonsAndVests], on the list under ['Labels']. *)
Definition getPersonsAndVests (labels : list Label.t)
    (imageWidth imageHeight : Q)
    : option (list VestOnly.Detection * list VestOnly.Detection) :=
  for_each labels
    (fun label '(persons, vests) =>
       match bool_decide (Label.Name label = "Person"), Label.Instances label with
       | true, Some instances =>
           persons' ← for_each instances
                        (fun person persons =>
                           entry ← entry_of imageWidth imageHeight person;
                           Some (persons ++ [entry]))
                        persons;
           Some (persons', vests)
       | _, _ =>
           match bool_decide (Label.Name label = "Vest"), Label.Instances label with
           | true, Some instances =>
               vests' ← for_each instances
                          (fun vest vests =>
                             entry ← entry_of imageWidth imageHeight vest;
                             Some (vests ++ [entry]))
                          vests;
               Some (persons, vests')
           | _, _ => Some (persons, vests)
           end
       end)
    ([], []).

End Floats.

End VestOnlyInput.

(** The instances of the labels with exactly this name, in order. *)
Definition instances_named (name : string) (labels : list Label.t)
    : list LabelInstance.t :=
  flat_map (fun label =>
              if bool_decide (Label.Name label = name) then instances_of label
              else [])
           labels.

(** The instance carries a box and a confidence. *)
Definition complete (entry : LabelInstance.t) : Prop :=
  is_Some (LabelInstance.BoundingBox entry)
  /\ is_Some (LabelInstance.Confidence entry).

(** * Properties *)

(** ** Comparisons *)

Lemma Qltb_lt x y : Qltb x y = true <-> (x < y)%Q.
Proof.
  unfold Qltb. rewrite negb_true_iff, <- not_true_iff_false, Qle_bool_iff.
  split; [apply Qnot_le_lt | apply Qlt_not_le].
Qed.

Lemma Qltb_ge x y : Qltb x y = false <-> (y <= x)%Q.
Proof. unfold Qltb. rewrite negb_false_iff. apply Qle_bool_iff. Qed.

Lemma Qgtb_gt x y : Qgtb x y = true <-> (y < x)%Q.
Proof. apply Qltb_lt. Qed.

Lemma Qgtb_le x y : Qgtb x y = false <-> (x <= y)%Q.
Proof. apply Qltb_ge. Qed.

(** Turn every boolean comparison of the context and the goal into an order
    fact, deciding the comparisons that are tested. *)
Ltac order_facts :=
  repeat match goal with
  | H : Qltb _ _ = true |- _ => apply Qltb_lt in H
  | H : Qltb _ _ = false |- _ => apply Qltb_ge in H
  | H : Qgtb _ _ = true |- _ => apply Qgtb_gt in H
  | H : Qgtb _ _ = false |- _ => apply Qgtb_le in H
  | |- Qltb _ _ = true => apply Qltb_lt
  | |- Qltb _ _ = false => apply Qltb_ge
  | |- Qgtb _ _ = true => apply Qgtb_gt
  | |- Qgtb _ _ = false => apply Qgtb_le
  end.

(** ** The intersection predicate *)

Section Geometry.

Local Open Scope Q_scope.
Import Interval BoundingBox.

(** When the first interval starts first (or both start together) it is the
    left one. *)
Lemma if_intervals_intersect_left (a b : Interval.t) :
  min a <= min b ->
  if_intervals_intersect a b = Qltb (min b) (max a).
Proof.
  intros Hab. unfold if_intervals_intersect.
  destruct (Qgtb (min a) (min b)) eqn:Hgt; [|reflexivity].
  order_facts. lra.
Qed.

(** When the second interval starts strictly first, the two are swapped. *)
Lemma if_intervals_intersect_right (a b : Interval.t) :
  min b < min a ->
  if_intervals_intersect a b = Qltb (min a) (max b).
Proof.
  intros Hba. unfold if_intervals_intersect.
  destruct (Qgtb (min a) (min b)) eqn:Hgt; [reflexivity|].
  order_facts. lra.
Qed.

(** With distinct starting points the order of the arguments is
    immaterial. *)
Lemma if_intervals_intersect_sym_lt (a b : Interval.t) :
  min a < min b ->
  if_intervals_intersect a b = if_intervals_intersect b a.
Proof.
  intros Hab.
  rewrite (if_intervals_intersect_left a b) by lra.
  now rewrite (if_intervals_intersect_right b a).
Qed.

Lemma Qltb_proper_interval (i : Interval.t) :
  min i < max i -> forall m, m == min i -> Qltb m (max i) = true.
Proof. intros Hi m Hm. order_facts. lra. Qed.

(** Intervals of positive length: the order of the arguments is
    immaterial. *)
Lemma if_intervals_intersect_sym_proper (a b : Interval.t) :
  min a < max a -> min b < max b ->
  if_intervals_intersect a b = if_intervals_intersect b a.
Proof.
  intros Ha Hb.
  destruct (Qlt_le_dec (min a) (min b)) as [Hlt|Hle].
  - now apply if_intervals_intersect_sym_lt.
  - destruct (Qlt_le_dec (min b) (min a)) as [Hlt'|Hle'].
    + symmetry. now apply if_intervals_intersect_sym_lt.
    + rewrite (if_intervals_intersect_left a b) by assumption.
      rewrite (if_intervals_intersect_left b a) by assumption.
      rewrite (Qltb_proper_interval a Ha), (Qltb_proper_interval b Hb);
        [reflexivity | lra | lra].
Qed.

(** Boxes of positive width and height: the predicate is symmetric. *)
Lemma if_boxes_intersect_sym_proper (A B : BoundingBox.t) :
  min (x_interval A) < max (x_interval A) ->
  min (y_interval A) < max (y_interval A) ->
  min (x_interval B) < max (x_interval B) ->
  min (y_interval B) < max (y_interval B) ->
  if_boxes_intersect A B = if_boxes_intersect B A.
Proof.
  intros. unfold if_boxes_intersect.
  rewrite (if_intervals_intersect_sym_proper (x_interval A) (x_interval B)) by assumption.
  now rewrite (if_intervals_intersect_sym_proper (y_interval A) (y_interval B)).
Qed.

(** An interval that ends where another starts: the test fails with the
    ending interval first; with the ending interval second it succeeds
    exactly when that interval has no length and the other one has. *)
Lemma meets_apart (a b : Interval.t) :
  min a <= max a -> meets a b ->
  if_intervals_intersect a b = false
  /\ (if_intervals_intersect b a = true
      <-> min a == max a /\ min b < max b).
Proof.
  unfold meets. intros Ha Hmeet. split.
  - rewrite if_intervals_intersect_left by lra. order_facts. lra.
  - destruct (Qlt_le_dec (min a) (min b)) as [Hlt|Hle].
    + rewrite if_intervals_intersect_right by assumption.
      rewrite Qltb_lt. split; [lra | intros [Heq _]; lra].
    + rewrite if_intervals_intersect_left by assumption.
      rewrite Qltb_lt. split; [intros H; split; lra | intros [_ H]; lra].
Qed.

(** Touching boxes pass the test only when the second one is degenerate. *)
Lemma boxes_touch_degenerate (A B : BoundingBox.t) :
  well_formed A -> well_formed B -> boxes_touch A B ->
  if_boxes_intersect A B = true -> degenerate B.
Proof.
  intros [HAx HAy] [HBx HBy] Htouch Hint.
  unfold if_boxes_intersect in Hint. apply andb_true_iff in Hint as [Hx Hy].
  unfold degenerate.
  destruct Htouch as [H|[H|[H|H]]].
  - apply (meets_apart _ _ HAx) in H as [H _]. congruence.
  - apply (meets_apart _ _ HBx) in H as [_ H]. left. now apply H.
  - apply (meets_apart _ _ HAy) in H as [H _]. congruence.
  - apply (meets_apart _ _ HBy) in H as [_ H]. right. now apply H.
Qed.

Lemma proper_not_degenerate (A : BoundingBox.t) :
  proper_box A -> ~ degenerate A.
Proof.
  unfold proper_box, proper_interval, degenerate. intros [Hx Hy] [H|H]; lra.
Qed.

Lemma if_intervals_intersect_self (i : Interval.t) :
  if_intervals_intersect i i = Qltb (min i) (max i).
Proof. apply if_intervals_intersect_left. lra. Qed.

End Geometry.

(** C2.  [if_intervals_intersect a b] holds exactly when, the interval that
    starts first being taken as the left one (the first argument when both
    start together), the right one starts strictly before the left one ends,
    and [if_boxes_intersect] holds exactly when both projections intersect
    in that sense.  Boxes that only touch, such as [0,0]-[1,1] and
    [1,0]-[2,1], do not intersect, with one exception: when the two boxes
    start at the same coordinate and the second argument has no extent
    there, the tie is resolved in favour of the first argument and the test
    answers [True].  The unit square and the segment on its left edge touch,
    and the square intersects the segment. *)
Theorem intersection_is_strict_overlap_except_on_ties :
  (forall a b : Interval.t,
     ((Interval.min a <= Interval.min b)%Q ->
      (if_intervals_intersect a b = true <-> (Interval.min b < Interval.max a)%Q))
     /\ ((Interval.min b < Interval.min a)%Q ->
         (if_intervals_intersect a b = true <-> (Interval.min a < Interval.max b)%Q)))
  /\ (forall A B : BoundingBox.t,
        if_boxes_intersect A B = true <->
        if_intervals_intersect (BoundingBox.x_interval A) (BoundingBox.x_interval B) = true
        /\ if_intervals_intersect (BoundingBox.y_interval A) (BoundingBox.y_interval B) = true)
  /\ (forall a b : Interval.t,
        (Interval.min a <= Interval.max a)%Q -> meets a b ->
        if_intervals_intersect a b = false
        /\ (if_intervals_intersect b a = true
            <-> (Interval.min a == Interval.max a)%Q
                /\ (Interval.min b < Interval.max b)%Q))
  /\ (forall A B : BoundingBox.t,
        well_formed A -> well_formed B -> boxes_touch A B ->
        (if_boxes_intersect A B = true -> degenerate B)
        /\ (if_boxes_intersect B A = true -> degenerate A)
        /\ (proper_box A -> proper_box B ->
            if_boxes_intersect A B = false /\ if_boxes_intersect B A = false))
  /\ if_boxes_intersect (box_of_corners 0 0 1 1) (box_of_corners 1 0 2 1) = false
  /\ if_boxes_intersect (box_of_corners 1 0 2 1) (box_of_corners 0 0 1 1) = false
  /\ (let segment := make_bounding_box (mkBoxData 0 1 0 0) in
      let square := make_bounding_box (mkBoxData 1 1 0 0) in
      well_formed square /\ well_formed segment
      /\ boxes_touch square segment
      /\ if_boxes_intersect square segment = true
      /\ if_boxes_intersect segment square = false).
Proof.
  split; [|split; [|split; [|split; [|split; [|split]]]]].
  - intros a b. split; intros H.
    + rewrite if_intervals_intersect_left by assumption. apply Qltb_lt.
    + rewrite if_intervals_intersect_right by assumption. apply Qltb_lt.
  - intros A B. unfold if_boxes_intersect. apply andb_true_iff.
  - apply meets_apart.
  - intros A B HA HB Htouch.
    pose proof (boxes_touch_degenerate A B HA HB Htouch) as HAB.
    assert (Hback : boxes_touch B A).
    { unfold boxes_touch in *. tauto. }
    pose proof (boxes_touch_degenerate B A HB HA Hback) as HBA.
    split; [exact HAB|]. split; [exact HBA|].
    intros HpA HpB.
    split; [destruct (if_boxes_intersect A B) eqn:Hi
           | destruct (if_boxes_intersect B A) eqn:Hi]; try reflexivity;
      exfalso.
    + apply (proper_not_degenerate B HpB). now apply HAB.
    + apply (proper_not_degenerate A HpA). now apply HBA.
  - reflexivity.
  - reflexivity.
  - split; [split; vm_compute; discriminate|].
    split; [split; vm_compute; discriminate|].
    split; [right; left; vm_compute; reflexivity|].
    split; reflexivity.
Qed.

(** C4.  The predicate depends on the order of its arguments when the two
    boxes start at the same coordinate and one of them is degenerate: a box
    of width zero at the left edge of the unit square does not intersect the
    square, while the square intersects it.  (On boxes of positive width and
    height the predicate is symmetric, [if_boxes_intersect_sym_proper].) *)
Theorem if_boxes_intersect_order_dependent :
  let segment := make_bounding_box (mkBoxData 0 1 0 0) in
  let square := make_bounding_box (mkBoxData 1 1 0 0) in
  if_boxes_intersect segment square = false
  /\ if_boxes_intersect square segment = true.
Proof. split; reflexivity. Qed.

(** C9.  A degenerate interval does not intersect itself, and neither does a
    box one of whose projections is degenerate. *)
Theorem degenerate_misses_itself :
  (forall i : Interval.t,
     (Interval.min i == Interval.max i)%Q -> if_intervals_intersect i i = false)
  /\ (forall c : Q,
        if_intervals_intersect (Interval.mk c c) (Interval.mk c c) = false)
  /\ (forall A : BoundingBox.t,
        degenerate A -> if_boxes_intersect A A = false).
Proof.
  assert (Hi : forall i : Interval.t,
             (Interval.min i == Interval.max i)%Q ->
             if_intervals_intersect i i = false).
  { intros i Heq. rewrite if_intervals_intersect_self. order_facts.
    rewrite Heq. apply Qle_refl. }
  split; [exact Hi|]. split.
  - intros c. apply Hi. simpl. reflexivity.
  - intros A [Hx|Hy]; unfold if_boxes_intersect.
    + now rewrite (Hi _ Hx).
    + rewrite (Hi _ Hy). apply andb_false_r.
Qed.

(** A box of height zero, built by [make_bounding_box], is degenerate and
    misses itself. *)
Lemma degenerate_misses_itself_witness :
  degenerate (make_bounding_box (mkBoxData (1 # 2) 0 0 0))
  /\ if_boxes_intersect (make_bounding_box (mkBoxData (1 # 2) 0 0 0))
                        (make_bounding_box (mkBoxData (1 # 2) 0 0 0)) = false.
Proof.
  assert (Hd : degenerate (make_bounding_box (mkBoxData (1 # 2) 0 0 0))).
  { right. simpl. reflexivity. }
  split; [exact Hd|].
  exact (proj2 (proj2 degenerate_misses_itself) _ Hd).
Defined.

(** ** Loops *)

Section Loops.

Lemma for_in_step {S A} (x : A) (xs : list A) (body : A -> S -> S) (s : S) :
  for_in (x :: xs) body s = for_in xs body (body x s).
Proof. reflexivity. Qed.

(** Bodies that agree on every item and state run the same loop. *)
Lemma for_in_ext {S A} (body body' : A -> S -> S) (xs : list A) (s : S) :
  (forall x s, body x s = body' x s) ->
  for_in xs body s = for_in xs body' s.
Proof.
  intros Hbody. revert s. induction xs as [|x xs IH]; intros s; [reflexivity|].
  now rewrite !for_in_step, Hbody, IH.
Qed.

(** Two loops over lists that are related item by item, with a body that
    does not tell related items apart, end in the same state. *)
Lemma for_in_Forall2 {S A} (R : A -> A -> Prop) (body : A -> S -> S)
    (xs ys : list A) (s : S) :
  Forall2 R xs ys ->
  (forall x y s, R x y -> body x s = body y s) ->
  for_in xs body s = for_in ys body s.
Proof.
  intros HR Hbody. revert s.
  induction HR as [|x y xs ys Hxy _ IH]; intros s; [reflexivity|].
  now rewrite !for_in_step, (Hbody x y s Hxy), IH.
Qed.

(** A [for] loop whose body keeps an invariant of the items already
    visited returns, and the invariant holds of the whole list. *)
Lemma for_each_invariant {S A} (I : list A -> S -> Prop) (xs : list A)
    (body : A -> S -> option S) (s : S) :
  I [] s ->
  (forall visited x s,
     I visited s -> x ∈ xs ->
     exists s', body x s = Some s' /\ I (visited ++ [x]) s') ->
  exists s', for_each xs body s = Some s' /\ I xs s'.
Proof.
  intros Hinit Hstep.
  enough (Hgen : forall rest visited s,
             visited ++ rest = xs -> I visited s ->
             exists s', for_each rest body s = Some s' /\ I xs s')
    by (apply (Hgen xs [] s); [reflexivity | assumption]).
  induction rest as [|x rest IH]; intros visited s0 Hxs Hinv.
  - rewrite app_nil_r in Hxs. subst. simpl. eauto.
  - destruct (Hstep visited x s0 Hinv) as (s1 & Hbody & Hinv1).
    { rewrite <- Hxs. apply elem_of_app. right. apply elem_of_cons. now left. }
    simpl. rewrite Hbody.
    apply (IH (visited ++ [x])); [|assumption].
    now rewrite <- app_assoc.
Qed.

End Loops.

(** ** The class [Stats] *)

Section StatsFacts.

Variable set_iter : gset string -> list string.

Local Abbreviation add_all l st := (for_in l (Stats._add_person set_iter) st).

Lemma add_person_population person self h :
  Stats.population (Stats._add_person set_iter person (self, h)).1
  = Stats.population self ++ [person].
Proof. reflexivity. Qed.

Lemma add_person_store person self h :
  (Stats._add_person set_iter person (self, h)).2
  = <[person := Person.set_ind (py_len (Stats.population self)) (h person)]> h.
Proof. reflexivity. Qed.

(** The constructor appends the persons it is given, in order. *)
Lemma add_all_population l st :
  Stats.population (add_all l st).1 = Stats.population st.1 ++ l.
Proof.
  revert st. induction l as [|x l IH]; intros [self h].
  - simpl. now rewrite app_nil_r.
  - rewrite for_in_step, IH, add_person_population, <- app_assoc. reflexivity.
Qed.

(** An object outside the list is not touched. *)
Lemma add_all_store_other l st (r : ref) :
  r ∉ l -> (add_all l st).2 r = st.2 r.
Proof.
  revert st. induction l as [|x l IH]; intros [self h] Hr; [reflexivity|].
  apply not_elem_of_cons in Hr as [Hx Hl].
  rewrite for_in_step, IH by assumption.
  rewrite add_person_store. now apply fn_lookup_insert_ne.
Qed.

(** Only [ind] is written: equipment and box are those of the input. *)
Lemma add_all_equipment l st (r : ref) :
  Person.equipment ((add_all l st).2 r) = Person.equipment (st.2 r).
Proof.
  revert st. induction l as [|x l IH]; intros [self h]; [reflexivity|].
  rewrite for_in_step, IH, add_person_store. cbn [fst snd].
  destruct (decide (x = r)) as [->|Hne].
  - now rewrite fn_lookup_insert.
  - now rewrite fn_lookup_insert_ne.
Qed.

(** Distinct objects receive the positions they are appended at. *)
Lemma add_all_ind l st :
  NoDup l ->
  forall (i : nat) (r : ref),
    l !! i = Some r ->
    Person.ind ((add_all l st).2 r)
    = Some (Z.of_nat (length (Stats.population st.1) + i)).
Proof.
  revert st. induction l as [|x l IH]; intros [self h] Hnd i r Hi; [done|].
  apply NoDup_cons in Hnd as [Hx Hnd].
  rewrite for_in_step. destruct i as [|i]; simpl in Hi.
  - injection Hi as ->.
    rewrite add_all_store_other by assumption.
    rewrite add_person_store, fn_lookup_insert. simpl.
    unfold py_len. now rewrite Nat.add_0_r.
  - rewrite (IH _ Hnd i r Hi), add_person_population, length_app. simpl.
    do 2 f_equal. lia.
Qed.

(** An object carries the position of its last occurrence in the list. *)
Lemma add_all_ind_last l st :
  forall (i : nat) (r : ref),
    l !! i = Some r ->
    (forall j, (i < j)%nat -> l !! j <> Some r) ->
    Person.ind ((add_all l st).2 r)
    = Some (Z.of_nat (length (Stats.population st.1) + i)).
Proof.
  revert st. induction l as [|x l IH]; intros [self h] i r Hi Hlast; [done|].
  rewrite for_in_step. destruct i as [|i]; simpl in Hi.
  - injection Hi as ->.
    rewrite add_all_store_other.
    + rewrite add_person_store, fn_lookup_insert. simpl.
      unfold py_len. now rewrite Nat.add_0_r.
    + intros Hin. apply list_elem_of_lookup in Hin as [j Hj].
      apply (Hlast (S j)); [lia | exact Hj].
  - rewrite (IH _ i r Hi), add_person_population, length_app.
    + simpl. do 2 f_equal. lia.
    + intros j Hj. apply (Hlast (S j)). lia.
Qed.

(** Only the objects of the list receive an [ind]. *)
Lemma add_all_ind_other l st (r : ref) :
  r ∉ l -> Person.ind ((add_all l st).2 r) = Person.ind (st.2 r).
Proof. intros Hr. now rewrite add_all_store_other. Qed.

Lemma init_population population h :
  Stats.population (Stats.init set_iter population h).1 = population.
Proof. unfold Stats.init. now rewrite add_all_population. Qed.

Lemma init_equipment population h r :
  Person.equipment ((Stats.init set_iter population h).2 r)
  = Person.equipment (h r).
Proof. unfold Stats.init. now rewrite add_all_equipment. Qed.

(** [sum] of a list of ones and nothing else counts the ones. *)
Lemma py_sum_flat_map_ones {A} (P : A -> Prop) `{!forall x, Decision (P x)}
    (test : A -> bool) (l : list A) :
  (forall x, test x = true <-> P x) ->
  py_sum (flat_map (fun x => if test x then [1%Z] else []) l)
  = Z.of_nat (length (filter P l)).
Proof.
  intros Htest. unfold py_sum.
  enough (Hgen : forall acc,
             fold_left Z.add (flat_map (fun x => if test x then [1%Z] else []) l) acc
             = (acc + Z.of_nat (length (filter P l)))%Z)
    by (now rewrite Hgen).
  induction l as [|x l IH]; intros acc; simpl; [lia|].
  rewrite filter_cons. destruct (test x) eqn:Hx.
  - apply Htest in Hx. rewrite decide_True by assumption.
    simpl. rewrite IH. lia.
  - rewrite decide_False; [apply IH|].
    intros HP. apply Htest in HP. congruence.
Qed.

Lemma py_len_set_zero (s : gset string) :
  (py_len_set s =? 0)%Z = true <-> s = ∅.
Proof.
  unfold py_len_set. rewrite Z.eqb_eq.
  split.
  - intros H. apply leibniz_equiv, size_empty_inv. lia.
  - intros ->. now rewrite size_empty.
Qed.

(** [unequipped_size] counts the persons with an empty equipment set. *)
Lemma unequipped_size_count (self : Stats.t) (h : store) :
  Stats.unequipped_size self h
  = Z.of_nat (length (filter (fun r => Person.equipment (h r) = ∅)
                             (Stats.population self))).
Proof.
  unfold Stats.unequipped_size.
  apply (py_sum_flat_map_ones (fun r => Person.equipment (h r) = ∅)).
  intros r. apply py_len_set_zero.
Qed.

(** The empty and the non-empty sets split a list. *)
Lemma length_filter_split {A} (P : A -> Prop) `{!forall x, Decision (P x)}
    (l : list A) :
  length (filter P l) + length (filter (fun x => ¬ P x) l) = length l.
Proof.
  induction l as [|x l IH]; [reflexivity|].
  rewrite !filter_cons. destruct (decide (P x)).
  - rewrite decide_False by tauto. simpl. lia.
  - rewrite decide_True by assumption. simpl. lia.
Qed.

(** [equipped_size] counts the persons with a non-empty equipment set. *)
Lemma equipped_size_count (self : Stats.t) (h : store) :
  Stats.equipped_size self h
  = Z.of_nat (length (filter (fun r => Person.equipment (h r) ≠ ∅)
                             (Stats.population self))).
Proof.
  unfold Stats.equipped_size, Stats.population_size, py_len.
  rewrite unequipped_size_count.
  pose proof (length_filter_split (fun r => Person.equipment (h r) = ∅)
                (Stats.population self)) as Hsplit.
  lia.
Qed.

End StatsFacts.

(** C6.  For the [Stats] built from any person list, the equipped and the
    unequipped counts add up to the population count; the unequipped count
    is the number of persons of the population whose equipment set is empty
    and the equipped count the number of those whose set is not. *)
Theorem stats_counts_add_up (set_iter : gset string -> list string)
    (population : list ref) (h : store) :
  let st := Stats.init set_iter population h in
  (Stats.equipped_size st.1 st.2 + Stats.unequipped_size st.1 st.2
   = Stats.population_size st.1)%Z
  /\ Stats.unequipped_size st.1 st.2
     = Z.of_nat (length (filter (fun r => Person.equipment (st.2 r) = ∅)
                                (Stats.population st.1)))
  /\ Stats.equipped_size st.1 st.2
     = Z.of_nat (length (filter (fun r => Person.equipment (st.2 r) ≠ ∅)
                                (Stats.population st.1)))
  /\ Stats.population st.1 = population.
Proof.
  intros st. split; [|split; [|split]].
  - unfold Stats.equipped_size. lia.
  - apply unequipped_size_count.
  - apply equipped_size_count.
  - apply init_population.
Qed.

(** C8, as stated, fails when the list holds the same object twice: the
    second visit overwrites the [ind] written by the first, so the person at
    position 0 carries [ind] 1. *)
Lemma ind_is_last_position_when_aliased :
  let st := Stats.init elements [0; 0] (fun _ => Person.new) in
  Stats.population st.1 !! 0 = Some 0
  /\ Person.ind (st.2 0) = Some 1%Z
  /\ ¬ indexed_by_position st.
Proof.
  intros st. split; [reflexivity|]. split; [reflexivity|].
  intros Hall. specialize (Hall 0 0 eq_refl). discriminate Hall.
Qed.

(** C8, amended.  For every list handed to the constructor the population
    is that list, and every person in it carries as [ind] the zero-based
    position of its last occurrence in the list; persons outside the list
    keep the [ind] they had.  Hence every person carries its own position
    exactly when the persons of the list are pairwise distinct, as the
    parsers produce them, and then no [ind] occurs twice. *)
Theorem ind_is_position (set_iter : gset string -> list string)
    (population : list ref) (h : store) :
  let st := Stats.init set_iter population h in
  Stats.population st.1 = population
  /\ (forall (i : nat) (person : ref),
        population !! i = Some person ->
        (forall j, (i < j)%nat -> population !! j <> Some person) ->
        Person.ind (st.2 person) = Some (Z.of_nat i))
  /\ (forall person : ref,
        person ∉ population -> Person.ind (st.2 person) = Person.ind (h person))
  /\ (NoDup population <-> indexed_by_position st)
  /\ (NoDup population -> ind_unique st).
Proof.
  intros st.
  assert (Hpop : Stats.population st.1 = population) by apply init_population.
  assert (Hlast : forall (i : nat) (person : ref),
             population !! i = Some person ->
             (forall j, (i < j)%nat -> population !! j <> Some person) ->
             Person.ind (st.2 person) = Some (Z.of_nat i)).
  { intros i person Hi Hnone. subst st. unfold Stats.init.
    now rewrite (add_all_ind_last set_iter _ _ i person Hi Hnone). }
  assert (Hpos : NoDup population -> indexed_by_position st).
  { intros Hnd i person Hi. rewrite Hpop in Hi. apply Hlast; [assumption|].
    intros j Hj Hperson.
    pose proof (NoDup_lookup _ _ _ _ Hnd Hi Hperson). lia. }
  split; [exact Hpop|]. split; [exact Hlast|]. split; [|split].
  - intros person Hperson. subst st. unfold Stats.init.
    now rewrite (add_all_ind_other set_iter _ _ person Hperson).
  - split; [exact Hpos|].
    intros Hall. apply NoDup_alt. intros i j person Hi Hj.
    rewrite <- Hpop in Hi, Hj.
    pose proof (Hall i person Hi) as Hi'. rewrite (Hall j person Hj) in Hi'.
    injection Hi' as Hij. lia.
  - intros Hnd i j p q Hi Hj Heq.
    rewrite (Hpos Hnd i p Hi), (Hpos Hnd j q Hj) in Heq.
    injection Heq as Heq. lia.
Qed.

(** Three distinct persons carry their positions; the one person of the
    list [[0; 0; 0]] carries the position 2. *)
Lemma ind_is_position_witness :
  NoDup [0; 1; 2]
  /\ indexed_by_position (Stats.init elements [0; 1; 2] (fun _ => Person.new))
  /\ Person.ind ((Stats.init elements [0; 0; 0] (fun _ => Person.new)).2 0)
     = Some 2%Z.
Proof.
  assert (Hnd : NoDup [0; 1; 2]) by (apply (bool_decide_unpack (NoDup [0; 1; 2])); exact I).
  split; [exact Hnd|]. split.
  - exact (proj1 (proj1 (proj2 (proj2 (proj2
             (ind_is_position elements [0; 1; 2] (fun _ => Person.new)))))) Hnd).
  - apply (proj1 (proj2 (ind_is_position elements [0; 0; 0] (fun _ => Person.new)))
             2 0 eq_refl).
    intros j Hj Hperson. apply lookup_lt_Some in Hperson. simpl in Hperson. lia.
Defined.

(** ** The matching loops *)

Section Matching.

Lemma frame_refl h : frame h h.
Proof. intros r. auto. Qed.

Lemma frame_trans h1 h2 h3 : frame h1 h2 -> frame h2 h3 -> frame h1 h3.
Proof.
  intros H12 H23 r. destruct (H12 r) as (?&?&?), (H23 r) as (?&?&?).
  repeat split; congruence.
Qed.

Lemma extends_nothing h (P : ref -> string -> Prop) :
  (forall r c, ¬ P r c) -> extends h h P.
Proof.
  intros HP. split; [apply frame_refl|].
  intros r c. specialize (HP r c). tauto.
Qed.

Lemma extends_compose h h1 h2 (P Q R : ref -> string -> Prop) :
  extends h h1 P -> extends h1 h2 Q ->
  (forall r c, R r c <-> P r c \/ Q r c) ->
  extends h h2 R.
Proof.
  intros [Hf1 H1] [Hf2 H2] HR. split; [now apply (frame_trans h h1 h2)|].
  intros r c. rewrite H2, H1, HR. tauto.
Qed.

(** [person.equipment.add(group)] *)
Lemma extends_add h person group :
  extends h (<[person := Person.add_equipment group (h person)]> h)
          (fun r c => r = person /\ c = group).
Proof.
  split.
  - intros r. destruct (decide (person = r)) as [->|Hne].
    + rewrite fn_lookup_insert. auto.
    + rewrite fn_lookup_insert_ne by assumption. auto.
  - intros r c. destruct (decide (person = r)) as [->|Hne].
    + rewrite fn_lookup_insert. simpl.
      rewrite elem_of_union, elem_of_singleton. intuition congruence.
    + rewrite fn_lookup_insert_ne by assumption. split; [auto|].
      intros [?|[? _]]; [assumption | congruence].
Qed.

(** One test of one person against one box, as both variants perform it:
    it succeeds when the person has a box, and adds the group exactly when
    the boxes intersect. *)
Lemma test_one h0 h person group box :
  frame h0 h -> is_Some (Person.box (h0 person)) ->
  exists person_box,
    Person.box (h person) = Some person_box
    /\ extends h
         (if if_boxes_intersect person_box box
          then <[person := Person.add_equipment group (h person)]> h else h)
         (fun r c => r = person /\ c = group /\ hits h0 r box).
Proof.
  intros Hf [person_box Hbox].
  destruct (Hf person) as (Hbox' & _). rewrite Hbox in Hbox'.
  exists person_box. split; [assumption|].
  destruct (if_boxes_intersect person_box box) eqn:Hi.
  - eapply extends_compose;
      [apply (extends_nothing h (fun _ _ => False)); tauto
      | apply extends_add |].
    intros r c. split.
    + intros (-> & -> & _). auto.
    + intros [[]|[-> ->]]. repeat split. exists person_box. auto.
  - apply extends_nothing. intros r c (-> & _ & pb & Hpb & Hhit).
    congruence.
Qed.

End Matching.

Section CustomLabelsMatching.

Variable population : list ref.
Variable h0 : store.
Hypothesis boxes_present :
  forall r, r ∈ population -> is_Some (Person.box (h0 r)).

(** The innermost loop: one box of one group against every person. *)
Lemma custom_person_loop (h : store) (group_name : string)
    (box : BoundingBox.t) :
  frame h0 h ->
  exists s',
    for_each population
      (fun person '(h, intersected_count) =>
         match Person.box (h person) with
         | Some person_box =>
             if if_boxes_intersect person_box box
             then Some (<[person := Person.add_equipment group_name (h person)]> h,
                        (intersected_count + 1)%Z)
             else Some (h, intersected_count)
         | None => None
         end)
      (h, 0%Z) = Some s'
    /\ extends h s'.1
         (fun r c => r ∈ population /\ c = group_name /\ hits h0 r box).
Proof.
  intros Hf.
  apply (for_each_invariant
           (fun visited (s : store * Z) =>
              extends h s.1
                (fun r c => r ∈ visited /\ c = group_name /\ hits h0 r box))).
  - apply extends_nothing. intros r c (Hr & _). now apply elem_of_nil in Hr.
  - intros visited person [h1 count] Hinv Hin. cbn [fst] in Hinv.
    destruct (test_one h0 h1 person group_name box) as (pb & Hpb & Hext).
    { apply (frame_trans h0 h h1); [assumption | apply Hinv]. }
    { now apply boxes_present. }
    rewrite Hpb.
    exists (if if_boxes_intersect pb box
            then <[person := Person.add_equipment group_name (h1 person)]> h1
            else h1,
            if if_boxes_intersect pb box then (count + 1)%Z else count).
    split.
    + destruct (if_boxes_intersect pb box); reflexivity.
    + eapply extends_compose; [exact Hinv | exact Hext |].
      intros r c. cbn beta. rewrite elem_of_app, list_elem_of_singleton.
      split.
      * intros ([Hv | ->] & -> & Hhit); auto 10.
      * intros [(Hv & -> & Hhit) | (-> & -> & Hhit)]; auto 10.
Qed.

(** The middle loop: every box of one group. *)
Lemma custom_box_loop (h : store) (warnings : list (string * Z))
    (group_name : string) (group_boxes : list BoundingBox.t) :
  frame h0 h ->
  exists s',
    for_each group_boxes
      (fun box '(h, warnings) =>
         match
           for_each population
             (fun person '(h, intersected_count) =>
                match Person.box (h person) with
                | Some person_box =>
                    if if_boxes_intersect person_box box
                    then Some (<[person := Person.add_equipment group_name (h person)]> h,
                               (intersected_count + 1)%Z)
                    else Some (h, intersected_count)
                | None => None
                end)
             (h, 0%Z)
         with
         | Some (h, intersected_count) =>
             if (1 <? intersected_count)%Z
             then Some (h, warnings ++ [(group_name, intersected_count)])
             else Some (h, warnings)
         | None => None
         end)
      (h, warnings) = Some s'
    /\ extends h s'.1
         (fun r c =>
            r ∈ population /\ c = group_name
            /\ exists b, b ∈ group_boxes /\ hits h0 r b).
Proof.
  intros Hf.
  apply (for_each_invariant
           (fun visited (s : store * list (string * Z)) =>
              extends h s.1
                (fun r c =>
                   r ∈ population /\ c = group_name
                   /\ exists b, b ∈ visited /\ hits h0 r b))).
  - apply extends_nothing. intros r c (_ & _ & b & Hb & _).
    now apply elem_of_nil in Hb.
  - intros visited box [h1 ws] Hinv Hin. cbn [fst] in Hinv.
    destruct (custom_person_loop h1 group_name box) as ([h2 count] & Hrun & Hext).
    { apply (frame_trans h0 h h1); [assumption | apply Hinv]. }
    rewrite Hrun. cbn [fst] in Hext.
    exists (h2, if (1 <? count)%Z then ws ++ [(group_name, count)] else ws).
    split; [destruct (1 <? count)%Z; reflexivity|].
    cbn [fst]. eapply extends_compose; [exact Hinv | exact Hext |].
    intros r c. cbn beta. split.
    + intros (Hr & -> & b & Hb & Hhit).
      apply elem_of_app in Hb as [Hb|Hb].
      * left. eauto 10.
      * apply list_elem_of_singleton in Hb as ->. right. auto.
    + intros [(Hr & -> & b & Hb & Hhit)|(Hr & -> & Hhit)].
      * repeat split; try assumption. exists b. split; [|assumption].
        apply elem_of_app. now left.
      * repeat split; try assumption. exists box. split; [|assumption].
        apply elem_of_app. right. now apply list_elem_of_singleton.
Qed.

(** The outer loop: every group of the map. *)
Lemma custom_group_loop (h : store)
    (equipment_boxes : list (string * list BoundingBox.t)) :
  frame h0 h ->
  exists s',
    CustomLabels.match_equipment population equipment_boxes (h, []) = Some s'
    /\ extends h s'.1
         (fun r c => r ∈ population /\ wears equipment_boxes h0 r c).
Proof.
  intros Hf. unfold CustomLabels.match_equipment.
  apply (for_each_invariant
           (fun visited (s : store * list (string * Z)) =>
              extends h s.1
                (fun r c => r ∈ population /\ wears visited h0 r c))).
  - apply extends_nothing. intros r c (_ & boxes & b & Hin & _).
    now apply elem_of_nil in Hin.
  - intros visited [group_name group_boxes] [h1 ws] Hinv Hin.
    cbn [fst] in Hinv.
    destruct (custom_box_loop h1 ws group_name group_boxes) as (s2 & Hrun & Hext).
    { apply (frame_trans h0 h h1); [assumption | apply Hinv]. }
    exists s2. split; [exact Hrun|].
    eapply extends_compose; [exact Hinv | exact Hext |].
    intros r c. cbn beta. unfold wears. split.
    + intros (Hr & boxes & b & Hgb & Hb & Hhit).
      apply elem_of_app in Hgb as [Hgb|Hgb].
      * left. eauto 10.
      * apply list_elem_of_singleton in Hgb. injection Hgb as -> ->.
        right. eauto 10.
    + intros [(Hr & boxes & b & Hgb & Hb & Hhit)|(Hr & -> & b & Hb & Hhit)].
      * split; [assumption|]. exists boxes, b. split; [|auto].
        apply elem_of_app. now left.
      * split; [assumption|]. exists group_boxes, b. split; [|auto].
        apply elem_of_app. right. now apply list_elem_of_singleton.
Qed.

End CustomLabelsMatching.

Section PreTrainedMatching.

Variable population : list ref.
Variable h0 : store.
Hypothesis boxes_present :
  forall r, r ∈ population -> is_Some (Person.box (h0 r)).

(** The innermost loop: one person against every box of one group. *)
Lemma pretrained_box_loop (h : store) (person : ref) (group : string)
    (boxes : list BoundingBox.t) :
  frame h0 h -> person ∈ population ->
  exists h',
    for_each boxes
      (fun box h =>
         match Person.box (h person) with
         | Some person_box =>
             if if_boxes_intersect person_box box
             then Some (<[person := Person.add_equipment group (h person)]> h)
             else Some h
         | None => None
         end)
      h = Some h'
    /\ extends h h'
         (fun r c =>
            r = person /\ c = group /\ exists b, b ∈ boxes /\ hits h0 r b).
Proof.
  intros Hf Hin.
  apply (for_each_invariant
           (fun visited (h' : store) =>
              extends h h'
                (fun r c =>
                   r = person /\ c = group
                   /\ exists b, b ∈ visited /\ hits h0 r b))).
  - apply extends_nothing. intros r c (_ & _ & b & Hb & _).
    now apply elem_of_nil in Hb.
  - intros visited box h1 Hinv _.
    destruct (test_one h0 h1 person group box) as (pb & Hpb & Hext).
    { apply (frame_trans h0 h h1); [assumption | apply Hinv]. }
    { now apply boxes_present. }
    rewrite Hpb.
    exists (if if_boxes_intersect pb box
            then <[person := Person.add_equipment group (h1 person)]> h1
            else h1).
    split; [destruct (if_boxes_intersect pb box); reflexivity|].
    eapply extends_compose; [exact Hinv | exact Hext |].
    intros r c. cbn beta. split.
    + intros (-> & -> & b & Hb & Hhit).
      apply elem_of_app in Hb as [Hb|Hb].
      * left. eauto 10.
      * apply list_elem_of_singleton in Hb as ->. right. auto.
    + intros [(-> & -> & b & Hb & Hhit)|(-> & -> & Hhit)].
      * repeat split. exists b. split; [|assumption].
        apply elem_of_app. now left.
      * repeat split. exists box. split; [|assumption].
        apply elem_of_app. right. now apply list_elem_of_singleton.
Qed.

(** The middle loop: one person against every group of the map. *)
Lemma pretrained_group_loop (h : store) (person : ref)
    (equipment_boxes : list (string * list BoundingBox.t)) :
  frame h0 h -> person ∈ population ->
  exists h',
    for_each equipment_boxes
      (fun '(group, boxes) =>
         for_each boxes
           (fun box h =>
              match Person.box (h person) with
              | Some person_box =>
                  if if_boxes_intersect person_box box
                  then Some (<[person := Person.add_equipment group (h person)]> h)
                  else Some h
              | None => None
              end))
      h = Some h'
    /\ extends h h' (fun r c => r = person /\ wears equipment_boxes h0 r c).
Proof.
  intros Hf Hin.
  apply (for_each_invariant
           (fun visited (h' : store) =>
              extends h h' (fun r c => r = person /\ wears visited h0 r c))).
  - apply extends_nothing. intros r c (_ & boxes & b & Hgb & _).
    now apply elem_of_nil in Hgb.
  - intros visited [group boxes] h1 Hinv _.
    destruct (pretrained_box_loop h1 person group boxes) as (h2 & Hrun & Hext);
      [apply (frame_trans h0 h h1); [assumption | apply Hinv] | assumption |].
    exists h2. split; [exact Hrun|].
    eapply extends_compose; [exact Hinv | exact Hext |].
    intros r c. cbn beta. unfold wears. split.
    + intros (-> & bs & b & Hgb & Hb & Hhit).
      apply elem_of_app in Hgb as [Hgb|Hgb].
      * left. eauto 10.
      * apply list_elem_of_singleton in Hgb. injection Hgb as -> ->.
        right. eauto 10.
    + intros [(-> & bs & b & Hgb & Hb & Hhit)|(-> & -> & b & Hb & Hhit)].
      * split; [reflexivity|]. exists bs, b. split; [|auto].
        apply elem_of_app. now left.
      * split; [reflexivity|]. exists boxes, b. split; [|auto].
        apply elem_of_app. right. now apply list_elem_of_singleton.
Qed.

End PreTrainedMatching.

(** The outer loop of the single-detector variant: every person of the
    list. *)
Lemma pretrained_person_loop (population : list ref) (h0 : store)
    (equipment_boxes : list (string * list BoundingBox.t)) :
  (forall r, r ∈ population -> is_Some (Person.box (h0 r))) ->
  exists h',
    PreTrained.match_equipment population equipment_boxes h0 = Some h'
    /\ extends h0 h' (fun r c => r ∈ population /\ wears equipment_boxes h0 r c).
Proof.
  intros Hboxes. unfold PreTrained.match_equipment.
  apply (for_each_invariant
           (fun visited (h' : store) =>
              extends h0 h'
                (fun r c => r ∈ visited /\ wears equipment_boxes h0 r c))).
  - apply extends_nothing. intros r c (Hr & _). now apply elem_of_nil in Hr.
  - intros visited person h1 Hinv Hin.
    destruct (pretrained_group_loop population h0 Hboxes h1 person equipment_boxes)
      as (h2 & Hrun & Hext); [apply Hinv | assumption |].
    exists h2. split; [exact Hrun|].
    eapply extends_compose; [exact Hinv | exact Hext |].
    intros r c. cbn beta. rewrite elem_of_app, list_elem_of_singleton. tauto.
Qed.

(** Growing empty sets by what is worn leaves exactly what is worn. *)
Lemma extends_matched (population : list ref)
    (equipment_boxes : list (string * list BoundingBox.t)) (h h' : store) :
  (forall r, r ∈ population -> Person.equipment (h r) = ∅) ->
  extends h h' (fun r c => r ∈ population /\ wears equipment_boxes h r c) ->
  matched population equipment_boxes h h'.
Proof.
  intros Hempty [Hf Hext]. split; [exact Hf|]. split.
  - intros r Hr. apply set_eq. intros c. rewrite Hext. tauto.
  - intros r Hr c. rewrite Hext, (Hempty r Hr), elem_of_empty. tauto.
Qed.

(** C1.  On a population whose persons have a box and an empty equipment
    set, both matching loops (groups outermost in
    [Lambda_PreTrained_and_CustomLabels.py], persons outermost in
    [Lambda_PreTrained.py]) return, and afterwards every person of the
    population holds exactly the categories under which some box intersects
    the person's box; boxes and the other attributes are as before and no
    other object is touched.  In particular a box that intersects several
    persons gives its category to each of them, a box that intersects nobody
    and a person that intersects nothing add nothing. *)
Theorem matcher_assigns_exactly_the_intersecting_categories
    (population : list ref)
    (equipment_boxes : list (string * list BoundingBox.t)) (h : store) :
  (forall r, r ∈ population ->
     Person.equipment (h r) = ∅ /\ is_Some (Person.box (h r))) ->
  (exists h' warnings,
     CustomLabels.match_equipment population equipment_boxes (h, [])
     = Some (h', warnings)
     /\ matched population equipment_boxes h h')
  /\ (exists h',
        PreTrained.match_equipment population equipment_boxes h = Some h'
        /\ matched population equipment_boxes h h').
Proof.
  intros Hpop.
  assert (Hboxes : forall r, r ∈ population -> is_Some (Person.box (h r)))
    by (intros r Hr; apply (Hpop r Hr)).
  assert (Hempty : forall r, r ∈ population -> Person.equipment (h r) = ∅)
    by (intros r Hr; apply (Hpop r Hr)).
  split.
  - destruct (custom_group_loop population h Hboxes h equipment_boxes)
      as ([h' warnings] & Hrun & Hext); [apply frame_refl|].
    exists h', warnings. split; [exact Hrun|].
    now apply extends_matched.
  - destruct (pretrained_person_loop population h equipment_boxes Hboxes)
      as (h' & Hrun & Hext).
    exists h'. split; [exact Hrun|].
    now apply extends_matched.
Qed.

(** The scenario of the specification: two persons, one boot that lies inside
    the box of the first. *)
Lemma matcher_assigns_exactly_the_intersecting_categories_witness :
  let persons :=
    [Person.set_box (make_bounding_box (mkBoxData (1 # 2) (1 # 2) 0 0)) Person.new;
     Person.set_box
       (make_bounding_box (mkBoxData (3 # 10) (3 # 10) (6 # 10) (6 # 10)))
       Person.new] in
  let equipment_boxes :=
    [("boot", [make_bounding_box (mkBoxData (1 # 10) (1 # 10) (1 # 10) (1 # 10))])] in
  (forall r, r ∈ refs_of persons ->
     Person.equipment (store_of persons r) = ∅
     /\ is_Some (Person.box (store_of persons r)))
  /\ exists h',
       PreTrained.match_equipment (refs_of persons) equipment_boxes
         (store_of persons) = Some h'
       /\ matched (refs_of persons) equipment_boxes (store_of persons) h'.
Proof.
  intros persons equipment_boxes.
  assert (Hpop : forall r, r ∈ refs_of persons ->
                   Person.equipment (store_of persons r) = ∅
                   /\ is_Some (Person.box (store_of persons r))).
  { intros r Hr. apply elem_of_seq in Hr. simpl in Hr.
    destruct r as [|[|r]]; [| |lia]; (split; [reflexivity | eexists; reflexivity]). }
  split; [exact Hpop|].
  exact (proj2 (matcher_assigns_exactly_the_intersecting_categories
                  (refs_of persons) equipment_boxes (store_of persons) Hpop)).
Defined.

(** The same scenario, run: the first person ends with the boot, the second
    with nothing, in both variants. *)
Example scenario_boot :
  let persons :=
    [Person.set_box (make_bounding_box (mkBoxData (1 # 2) (1 # 2) 0 0)) Person.new;
     Person.set_box
       (make_bounding_box (mkBoxData (3 # 10) (3 # 10) (6 # 10) (6 # 10)))
       Person.new] in
  let equipment_boxes :=
    [("boot", [make_bounding_box (mkBoxData (1 # 10) (1 # 10) (1 # 10) (1 # 10))])] in
  (fun h => (elements (Person.equipment (h 0)), elements (Person.equipment (h 1))))
    <$> PreTrained.match_equipment (refs_of persons) equipment_boxes (store_of persons)
  = Some (["boot"], [])
  /\ (fun s => (elements (Person.equipment (s.1 0)),
                elements (Person.equipment (s.1 1)), s.2))
       <$> CustomLabels.match_equipment (refs_of persons) equipment_boxes
             (store_of persons, [])
     = Some (["boot"], [], []).
Proof. split; vm_compute; reflexivity. Qed.

(** ** The parsers *)

Section Parsers.

Lemma pretrained_person_entries (instances : list LabelInstance.t)
    (population : list Person.t) :
  for_in instances
    (fun entry population =>
       match LabelInstance.BoundingBox entry, LabelInstance.Confidence entry with
       | Some box_data, Some confidence =>
           population ++ [PreTrained.person_of box_data confidence]
       | _, _ => population
       end)
    population
  = population ++ omap person_with_both instances.
Proof.
  revert population.
  induction instances as [|entry instances IH]; intros population.
  - simpl. now rewrite app_nil_r.
  - rewrite for_in_step, IH. unfold person_with_both at 2. simpl.
    destruct (LabelInstance.BoundingBox entry), (LabelInstance.Confidence entry);
      simpl; rewrite <- ?app_assoc; reflexivity.
Qed.

Lemma custom_person_entries (instances : list LabelInstance.t)
    (population : list Person.t) :
  for_in instances
    (fun entry population =>
       match LabelInstance.BoundingBox entry with
       | Some box_data => population ++ [CustomLabels.person_of box_data]
       | None => population
       end)
    population
  = population ++ omap person_with_box instances.
Proof.
  revert population.
  induction instances as [|entry instances IH]; intros population.
  - simpl. now rewrite app_nil_r.
  - rewrite for_in_step, IH. unfold person_with_box at 2. simpl.
    destruct (LabelInstance.BoundingBox entry);
      simpl; rewrite <- ?app_assoc; reflexivity.
Qed.

Lemma expected_persons_cons is_person accept label labels :
  expected_persons is_person accept (label :: labels)
  = (if is_person (Label.Name label)
     then omap accept (instances_of label) else [])
    ++ expected_persons is_person accept labels.
Proof. reflexivity. Qed.

(** What [parse_objects] has collected after any number of labels. *)
Lemma pretrained_population (cfg : Config.t) (labels : list Label.t) :
  (PreTrained.parse_objects cfg labels).1
  = expected_persons (fun name => py_in name (Config.PERSON_KEYS cfg))
      person_with_both labels.
Proof.
  unfold PreTrained.parse_objects.
  match goal with |- (for_in _ ?b _).1 = _ => set (body := b) end.
  assert (Hstep : forall label population equipment_boxes,
             (body label (population, equipment_boxes)).1
             = population
               ++ (if py_in (Label.Name label) (Config.PERSON_KEYS cfg)
                   then omap person_with_both (instances_of label) else [])).
  { intros label population equipment_boxes. unfold body, instances_of.
    destruct (Label.Instances label) as [instances|]; cbn [default].
    - destruct (py_in (Label.Name label) (Config.PERSON_KEYS cfg)); cbn [fst].
      + apply pretrained_person_entries.
      + now rewrite app_nil_r.
    - cbn [fst omap list_omap]. destruct (py_in (Label.Name label) (Config.PERSON_KEYS cfg)); now rewrite app_nil_r. }
  enough (Hgen : forall st,
             (for_in labels body st).1
             = st.1 ++ expected_persons
                         (fun name => py_in name (Config.PERSON_KEYS cfg))
                         person_with_both labels)
    by apply (Hgen ([], [])).
  clearbody body.
  induction labels as [|label labels IH]; intros [population equipment_boxes].
  - simpl. now rewrite app_nil_r.
  - rewrite for_in_step, expected_persons_cons, IH.
    destruct (body label (population, equipment_boxes)) as [population' eb'] eqn:Hb.
    pose proof (Hstep label population equipment_boxes) as Hs.
    rewrite Hb in Hs. cbn [fst] in *. rewrite Hs, <- app_assoc. reflexivity.
Qed.

(** What [parse_general_objects] has collected after any number of
    labels. *)
Lemma custom_population (cfg : Config.t) (labels : list Label.t) :
  (CustomLabels.parse_general_objects cfg labels).1
  = expected_persons (fun name => py_in (lower name) (Config.PERSON_KEYS cfg))
      person_with_box labels.
Proof.
  unfold CustomLabels.parse_general_objects.
  match goal with |- (for_in _ ?b _).1 = _ => set (body := b) end.
  assert (Hstep : forall label population equipment_boxes,
             (body label (population, equipment_boxes)).1
             = population
               ++ (if py_in (lower (Label.Name label)) (Config.PERSON_KEYS cfg)
                   then omap person_with_box (instances_of label) else [])).
  { intros label population equipment_boxes. unfold body, instances_of.
    destruct (Label.Instances label) as [instances|]; cbn [default].
    - destruct (py_in (lower (Label.Name label)) (Config.PERSON_KEYS cfg)); cbn [fst].
      + apply custom_person_entries.
      + now rewrite app_nil_r.
    - cbn [fst omap list_omap]. destruct (py_in (lower (Label.Name label)) (Config.PERSON_KEYS cfg)); now rewrite app_nil_r. }
  enough (Hgen : forall st,
             (for_in labels body st).1
             = st.1 ++ expected_persons
                         (fun name => py_in (lower name) (Config.PERSON_KEYS cfg))
                         person_with_box labels)
    by apply (Hgen ([], [])).
  clearbody body.
  induction labels as [|label labels IH]; intros [population equipment_boxes].
  - simpl. now rewrite app_nil_r.
  - rewrite for_in_step, expected_persons_cons, IH.
    destruct (body label (population, equipment_boxes)) as [population' eb'] eqn:Hb.
    pose proof (Hstep label population equipment_boxes) as Hs.
    rewrite Hb in Hs. cbn [fst] in *. rewrite Hs, <- app_assoc. reflexivity.
Qed.

End Parsers.

(** C3, as stated, fails in [parse_general_objects]: an instance of a person
    label that carries a bounding box and no confidence is not skipped, it
    becomes a person. *)
Lemma person_without_confidence_is_kept :
  let box_data := mkBoxData (1 # 2) (1 # 2) 0 0 in
  let entry := LabelInstance.mk (Some box_data) None in
  let labels := [Label.mk "Person" (Some [entry])] in
  LabelInstance.Confidence entry = None
  /\ (CustomLabels.parse_general_objects CustomLabels.config labels).1
     = [CustomLabels.person_of box_data]
  /\ (CustomLabels.parse_general_objects CustomLabels.config labels).1
     <> expected_persons
          (fun name => py_in (lower name) CustomLabels.PERSON_KEYS)
          person_with_both labels.
Proof.
  intros box_data entry labels.
  split; [reflexivity|]. split; [reflexivity|].
  intros Heq. apply (f_equal length) in Heq. discriminate Heq.
Qed.

(** C3, amended.  The population either parser returns holds, in the order of
    the answer, one person for every accepted instance of every label whose
    name is a person name, and nothing else: [parse_objects] accepts the
    instances that carry a bounding box and a confidence,
    [parse_general_objects] those that carry a bounding box.  Both are total
    functions: the instances they do not accept are passed over silently. *)
Theorem persons_are_the_accepted_instances (cfg : Config.t)
    (labels : list Label.t) :
  (PreTrained.parse_objects cfg labels).1
  = expected_persons (fun name => py_in name (Config.PERSON_KEYS cfg))
      person_with_both labels
  /\ (CustomLabels.parse_general_objects cfg labels).1
     = expected_persons (fun name => py_in (lower name) (Config.PERSON_KEYS cfg))
         person_with_box labels.
Proof. split; [apply pretrained_population | apply custom_population]. Qed.

(** ** Letter case *)

Lemma ascii_lower_idempotent (c : Ascii.ascii) :
  ascii_lower (ascii_lower c) = ascii_lower c.
Proof. destruct c as [[] [] [] [] [] [] [] []]; reflexivity. Qed.

Lemma ascii_case_variant_lower (c d : Ascii.ascii) :
  ascii_case_variant c d -> ascii_lower c = ascii_lower d.
Proof.
  intros [->|[[_ ->]|[_ ->]]];
    [reflexivity | symmetry | ]; apply ascii_lower_idempotent.
Qed.

(** Names that differ by case only have the same [lower()]. *)
Lemma case_variant_lower (s t : string) :
  case_variant s t -> lower s = lower t.
Proof.
  revert t. induction s as [|c s IH]; intros [|d t]; simpl; try tauto.
  intros [Hc Hs]. now rewrite (ascii_case_variant_lower c d Hc), (IH t Hs).
Qed.

Lemma ascii_case_variant_refl (c : Ascii.ascii) : ascii_case_variant c c.
Proof. now left. Qed.

Lemma ascii_case_variant_down (c : Ascii.ascii) :
  ascii_is_upper c = true -> ascii_case_variant c (ascii_lower c).
Proof. intros Hc. right; left. auto. Qed.

Lemma ascii_case_variant_up (c : Ascii.ascii) :
  ascii_is_upper c = true -> ascii_case_variant (ascii_lower c) c.
Proof. intros Hc. right; right. auto. Qed.

(** Two literal names differ by case only: character by character. *)
Ltac case_variant_literals :=
  simpl;
  repeat (split;
          [match goal with
           | |- ascii_case_variant ?c ?d =>
               first [ apply ascii_case_variant_refl
                     | exact (ascii_case_variant_down c eq_refl)
                     | exact (ascii_case_variant_up d eq_refl) ]
           end |]);
  exact I.

(** C5, as stated, fails in [parse_objects]: it compares names as they are,
    so the lower-case spelling of a person name yields no person and the
    lower-case spelling of a helmet name files no box. *)
Lemma pretrained_names_are_case_sensitive :
  let box_data := mkBoxData (1 # 2) (1 # 2) 0 0 in
  let entry := LabelInstance.mk (Some box_data) (Some (99 # 1)%Q) in
  label_case_variant (Label.mk "Person" (Some [entry]))
                     (Label.mk "person" (Some [entry]))
  /\ label_case_variant (Label.mk "Helmet" (Some [entry]))
                        (Label.mk "helmet" (Some [entry]))
  /\ PreTrained.parse_objects PreTrained.config [Label.mk "Person" (Some [entry])]
     = ([PreTrained.person_of box_data (99 # 1)%Q], [])
  /\ PreTrained.parse_objects PreTrained.config [Label.mk "person" (Some [entry])]
     = ([], [])
  /\ PreTrained.parse_objects PreTrained.config [Label.mk "Helmet" (Some [entry])]
     = ([], [("helmet", [make_bounding_box box_data])])
  /\ PreTrained.parse_objects PreTrained.config [Label.mk "helmet" (Some [entry])]
     = ([], []).
Proof.
  intros box_data entry.
  assert (Hp : case_variant "Person" "person") by case_variant_literals.
  assert (Hh : case_variant "Helmet" "helmet") by case_variant_literals.
  split; [split; [exact Hp | reflexivity]|].
  split; [split; [exact Hh | reflexivity]|].
  split; [reflexivity|]. split; [reflexivity|]. split; reflexivity.
Qed.

(** C5, amended.  In [Lambda_PreTrained_and_CustomLabels.py] the case of a
    label name is immaterial: two answers whose labels differ by the case of
    their names only are parsed to the same persons and the same boxes under
    the same categories, by [parse_general_objects] and by
    [parse_custom_objects], whatever the configuration. *)
Theorem label_case_is_immaterial (cfg : Config.t)
    (labels labels' : list Label.t) (customs customs' : list CustomLabel.t)
    (equipment_boxes : list (string * list BoundingBox.t)) :
  Forall2 label_case_variant labels labels' ->
  Forall2 custom_label_case_variant customs customs' ->
  CustomLabels.parse_general_objects cfg labels
  = CustomLabels.parse_general_objects cfg labels'
  /\ CustomLabels.parse_custom_objects cfg customs equipment_boxes
     = CustomLabels.parse_custom_objects cfg customs' equipment_boxes.
Proof.
  intros Hlabels Hcustoms. split.
  - unfold CustomLabels.parse_general_objects.
    apply (for_in_Forall2 label_case_variant); [assumption|].
    intros l l' [population boxes] [Hname Hinst].
    apply case_variant_lower in Hname. now rewrite Hname, Hinst.
  - unfold CustomLabels.parse_custom_objects.
    apply (for_in_Forall2 custom_label_case_variant); [assumption|].
    intros l l' boxes [Hname Hgeo].
    apply case_variant_lower in Hname. now rewrite Hname, Hgeo.
Qed.

Lemma label_case_is_immaterial_witness :
  let entry := LabelInstance.mk (Some (mkBoxData (1 # 2) (1 # 2) 0 0)) None in
  let labels := [Label.mk "Person" (Some [entry]); Label.mk "HardHat" (Some [entry])] in
  let labels' := [Label.mk "PERSON" (Some [entry]); Label.mk "hardhat" (Some [entry])] in
  let customs := [CustomLabel.mk "Mask" (Some (Some (mkBoxData (1 # 4) (1 # 4) 0 0)))] in
  let customs' := [CustomLabel.mk "mask" (Some (Some (mkBoxData (1 # 4) (1 # 4) 0 0)))] in
  Forall2 label_case_variant labels labels'
  /\ Forall2 custom_label_case_variant customs customs'
  /\ CustomLabels.parse_general_objects CustomLabels.config labels
     = CustomLabels.parse_general_objects CustomLabels.config labels'.
Proof.
  intros entry labels labels' customs customs'.
  assert (Hl : Forall2 label_case_variant labels labels').
  { constructor; [split; [case_variant_literals | reflexivity]|].
    constructor; [split; [case_variant_literals | reflexivity]|].
    constructor. }
  assert (Hc : Forall2 custom_label_case_variant customs customs').
  { constructor; [split; [case_variant_literals | reflexivity]|].
    constructor. }
  split; [exact Hl|]. split; [exact Hc|].
  exact (proj1 (label_case_is_immaterial CustomLabels.config labels labels'
                  customs customs' [] Hl Hc)).
Defined.

Lemma py_len_set_positive (s : gset string) :
  (0 <? py_len_set s)%Z = true <-> s <> ∅.
Proof.
  unfold py_len_set. rewrite Z.ltb_lt. split.
  - intros Hpos ->. rewrite size_empty in Hpos. lia.
  - intros Hne. destruct (size s) eqn:Hsize; [|lia].
    exfalso. apply Hne, leibniz_equiv, size_empty_inv, Hsize.
Qed.

(** ** The summary text *)

Section Summary.

Variable set_iter : gset string -> list string.

Lemma string_app_cons (x : Ascii.ascii) (a b : string) :
  String x a +:+ b = String x (a +:+ b).
Proof. reflexivity. Qed.

Lemma string_app_assoc (a b c : string) : (a +:+ b) +:+ c = a +:+ (b +:+ c).
Proof.
  induction a as [|x a IH]; [reflexivity|].
  now rewrite !string_app_cons, IH.
Qed.

Lemma string_app_empty_r (a : string) : a +:+ "" = a.
Proof.
  induction a as [|x a IH]; [reflexivity|].
  now rewrite string_app_cons, IH.
Qed.

(** A loop that appends one line per item. *)
Lemma for_in_lines {A} (f : A -> string) (xs : list A) (message : string) :
  for_in xs (fun x message => message +:+ f x) message
  = message +:+ lines (map f xs).
Proof.
  revert message. induction xs as [|x xs IH]; intros message.
  - simpl. now rewrite string_app_empty_r.
  - rewrite for_in_step, IH.
    change (lines (map f (x :: xs))) with (f x +:+ lines (map f xs)).
    apply string_app_assoc.
Qed.

(** Reading a [defaultdict] yields the list under the key, or the empty
    list, and leaves every reading as it was. *)
Lemma defaultdict_get_value (e2p : gmap string (list ref)) (key : string) :
  (Stats.defaultdict_get e2p key).1 = default [] (e2p !! key).
Proof. unfold Stats.defaultdict_get. now destruct (e2p !! key). Qed.

Lemma defaultdict_get_frame (e2p : gmap string (list ref)) (key k : string) :
  default [] ((Stats.defaultdict_get e2p key).2 !! k) = default [] (e2p !! k).
Proof.
  unfold Stats.defaultdict_get. destruct (e2p !! key) eqn:Hkey; [reflexivity|].
  simpl. destruct (decide (key = k)) as [->|Hne].
  - now rewrite lookup_insert_eq, Hkey.
  - now rewrite lookup_insert_ne.
Qed.

Lemma group_line_frame (e2p e2p' : gmap string (list ref)) entry :
  (forall k, default [] (e2p' !! k) = default [] (e2p !! k)) ->
  group_line e2p' entry = group_line e2p entry.
Proof. intros Hk. unfold group_line. now rewrite Hk. Qed.

(** The loop over the configured groups writes one line per group and
    changes no reading of [equipment2person]. *)
Lemma group_loop (groups : list (string * list string)) (message : string)
    (e2p : gmap string (list ref)) :
  let result :=
    for_in groups
      (fun '(equipment_group, _) '(message, e2p) =>
         let '(persons, e2p) := Stats.defaultdict_get e2p equipment_group in
         (message +:+ "Persons with " +:+ equipment_group +:+ ": "
                  +:+ py_str (py_len persons) +:+ "." +:+ LF, e2p))
      (message, e2p) in
  result.1 = message +:+ lines (map (group_line e2p) groups)
  /\ forall k, default [] (result.2 !! k) = default [] (e2p !! k).
Proof.
  revert message e2p. induction groups as [|[g names] groups IH];
    intros message e2p.
  - simpl. now rewrite string_app_empty_r.
  - cbn zeta. rewrite for_in_step.
    pose proof (defaultdict_get_value e2p g) as Hv.
    pose proof (defaultdict_get_frame e2p g) as Hf.
    destruct (Stats.defaultdict_get e2p g) as [persons e2p1].
    cbn [fst snd] in Hv, Hf. subst persons.
    destruct (IH (message +:+ "Persons with " +:+ g +:+ ": "
                  +:+ py_str (py_len (default [] (e2p !! g))) +:+ "." +:+ LF)
                 e2p1) as [Htext Hframe].
    split.
    + rewrite Htext. simpl.
      rewrite (map_ext_in (group_line e2p1) (group_line e2p))
        by (intros; now apply group_line_frame).
      unfold group_line at 2. simpl. now rewrite !string_app_assoc.
    + intros k. now rewrite Hframe, Hf.
Qed.

(** A loop that appends one line per item, where writing a line may raise. *)
Lemma for_each_lines {A} (f : A -> option string) (xs : list A)
    (message : string) :
  for_each xs (fun x message => line ← f x; Some (message +:+ line)) message
  = (fun ls => message +:+ lines ls) <$> mapM f xs.
Proof.
  revert message. induction xs as [|x xs IH]; intros message.
  - cbn. now rewrite string_app_empty_r.
  - cbn [for_each mapM]. cbn. destruct (f x) as [line|]; cbn; [|reflexivity].
    rewrite IH. destruct (mapM f xs) as [ls|]; cbn; [|reflexivity].
    f_equal. change (lines (line :: ls)) with (line +:+ lines ls).
    apply string_app_assoc.
Qed.

Lemma for_each_ext {S A} (xs : list A) (body body' : A -> S -> option S)
    (s : S) :
  (forall x s, body x s = body' x s) ->
  for_each xs body s = for_each xs body' s.
Proof.
  intros Hext. revert s. induction xs as [|x xs IH]; intros s; [reflexivity|].
  cbn [for_each]. rewrite Hext. destruct (body' x s); [apply IH | reflexivity].
Qed.

(** *** [format] on the names *)

Lemma format_rest_plain (c : Ascii.ascii) (s : string) :
  is_brace c = false ->
  format_rest (String c s) = String c <$> format_rest s.
Proof. intros Hc. cbn [format_rest]. now rewrite Hc. Qed.

Lemma brace_differs (c c' : Ascii.ascii) :
  is_brace c = true -> is_brace c' = false -> Ascii.eqb c c' = false.
Proof.
  intros Hc Hc'. destruct (Ascii.eqb_spec c c') as [->|]; [congruence | reflexivity].
Qed.

(** Text without braces in front of a template is copied. *)
Lemma format_rest_prefix (a s : string) :
  brace_free a = true ->
  format_rest (a +:+ s) = String.append a <$> format_rest s.
Proof.
  induction a as [|c a IH]; intros Ha.
  - change ("" +:+ s) with s. destruct (format_rest s); reflexivity.
  - cbn [brace_free] in Ha. apply andb_true_iff in Ha as [Hc Ha].
    apply negb_true_iff in Hc.
    rewrite string_app_cons, format_rest_plain, IH by assumption.
    now destruct (format_rest s).
Qed.

(** Text without braces behind a template is copied. *)
Lemma format_rest_suffix (s b : string) :
  brace_free b = true ->
  format_rest (s +:+ b) = (fun r => r +:+ b) <$> format_rest s.
Proof.
  intros Hb.
  assert (Hplain : format_rest b = Some b).
  { clear s. induction b as [|c b IH]; [reflexivity|].
    cbn [brace_free] in Hb. apply andb_true_iff in Hb as [Hc Hb].
    apply negb_true_iff in Hc. now rewrite format_rest_plain, IH. }
  remember (String.length s) as n eqn:Hn.
  revert s Hn. induction n as [n IH] using lt_wf_ind. intros s Hn.
  destruct s as [|c s]; [change ("" +:+ b) with b; now rewrite Hplain|].
  rewrite string_app_cons. destruct (is_brace c) eqn:Hc.
  - destruct s as [|c' s].
    + change ("" +:+ b) with b. destruct b as [|c' b].
      * cbn [format_rest]. now rewrite Hc.
      * cbn [brace_free] in Hb. apply andb_true_iff in Hb as [Hc' _].
        apply negb_true_iff in Hc'.
        cbn [format_rest]. now rewrite Hc, (brace_differs c c').
    + rewrite string_app_cons. cbn [format_rest]. rewrite Hc.
      destruct (Ascii.eqb c c'); [|reflexivity].
      rewrite (IH (String.length s)); [|cbn in Hn; lia | reflexivity].
      now destruct (format_rest s).
  - rewrite !format_rest_plain by assumption.
    rewrite (IH (String.length s)); [|cbn in Hn; lia | reflexivity].
    now destruct (format_rest s).
Qed.

Lemma format_rest_brace_free (s : string) :
  brace_free s = true -> format_rest s = Some s.
Proof.
  intros Hs. rewrite <- (string_app_empty_r s) at 1.
  rewrite format_rest_prefix by assumption. cbn.
  now rewrite string_app_empty_r.
Qed.

Lemma brace_free_app (a b : string) :
  brace_free (a +:+ b) = brace_free a && brace_free b.
Proof.
  induction a as [|c a IH]; [reflexivity|].
  rewrite string_app_cons. cbn [brace_free]. now rewrite IH, andb_assoc.
Qed.

Lemma brace_free_join (names : list string) :
  Forall (fun name => brace_free name = true) names ->
  brace_free (py_join ", " names) = true.
Proof.
  unfold py_join. induction 1 as [|name names Hname _ IH]; [reflexivity|].
  cbn [String.concat]. destruct names as [|name' names]; [assumption|].
  change (String.append ?a ?b) with (a +:+ b).
  rewrite !brace_free_app, Hname, IH. reflexivity.
Qed.

(** The line of an equipped person: the joined names go through [format]
    with the rest of the template. *)
Lemma person_line_equipped (h : store) (idx : Z) (person : ref) :
  Person.equipment (h person) <> ∅ ->
  Stats.person_line set_iter h idx person
  = (fun names => "Person " +:+ py_str idx +:+ " wears: " +:+ names +:+ "." +:+ LF)
    <$> format_rest (py_join ", " (Stats.worn set_iter h person)).
Proof.
  intros Hne. unfold Stats.person_line.
  rewrite (proj2 (py_len_set_positive _) Hne).
  rewrite format_rest_prefix by reflexivity.
  rewrite format_rest_suffix by reflexivity.
  now destruct (format_rest (py_join ", " (Stats.worn set_iter h person))).
Qed.

Lemma person_line_unequipped (h : store) (idx : Z) (person : ref) :
  Person.equipment (h person) = ∅ ->
  Stats.person_line set_iter h idx person
  = Some ("Person " +:+ py_str idx +:+ " is unequipped." +:+ LF).
Proof.
  intros Hnone. unfold Stats.person_line.
  destruct (0 <? py_len_set (Person.equipment (h person)))%Z eqn:Hpos;
    [|reflexivity].
  apply py_len_set_positive in Hpos. contradiction.
Qed.

(** Names without braces are rendered as they are. *)
Lemma person_line_plain (h : store) (idx : Z) (person : ref) :
  enumerates set_iter ->
  (forall name, name ∈ Person.equipment (h person) -> brace_free name = true) ->
  Stats.person_line set_iter h idx person
  = Some (plain_line set_iter h idx person).
Proof.
  intros Henum Hfree. unfold plain_line.
  destruct (0 <? py_len_set (Person.equipment (h person)))%Z eqn:Hpos.
  - apply py_len_set_positive in Hpos. rewrite person_line_equipped by assumption.
    rewrite format_rest_brace_free; [reflexivity|].
    apply brace_free_join, Forall_forall. intros name Hname.
    apply Hfree. unfold Stats.worn in Hname. rewrite (Henum _) in Hname.
    now apply elem_of_elements in Hname.
  - apply person_line_unequipped.
    destruct (decide (Person.equipment (h person) = ∅)) as [|Hne]; [assumption|].
    apply py_len_set_positive in Hne. congruence.
Qed.

(** [prepare_message] writes the closed form, and returns an object all of
    whose readings are those of the object it was called on; it raises when
    a line does. *)
Lemma prepare_message_text (header : string) (cfg : Config.t)
    (self : Stats.t) (h : store) :
  match Stats.prepare_message set_iter header cfg self h with
  | Some (text, self') =>
      message_text set_iter header cfg self h = Some text
      /\ Stats.population self' = Stats.population self
      /\ forall k,
           default [] (Stats.equipment2person self' !! k)
           = default [] (Stats.equipment2person self !! k)
  | None => message_text set_iter header cfg self h = None
  end.
Proof.
  unfold Stats.prepare_message, message_text, message_of_lines.
  set (message0 := (header +:+ _) +:+ _).
  destruct (group_loop (Config.TARGET_PPE_GROUP_KEYS cfg) message0
              (Stats.equipment2person self)) as [Htext Hframe].
  destruct (for_in (Config.TARGET_PPE_GROUP_KEYS cfg) _ _) as [message e2p].
  cbn [fst snd] in *. subst message.
  rewrite (for_each_ext _ _
             (fun entry message =>
                line ← Stats.person_line set_iter h entry.1 entry.2;
                Some (message +:+ line)))
    by (now intros [idx person] message).
  rewrite (for_each_lines
             (fun entry => Stats.person_line set_iter h entry.1 entry.2)).
  destruct (mapM _ (py_enumerate (Stats.population self))) as [ls|];
    cbn; [|reflexivity].
  split; [|split; [reflexivity | exact Hframe]].
  now rewrite string_app_assoc.
Qed.

(** The positions [enumerate] pairs the persons with. *)
Lemma py_enumerate_elem {A} (xs : list A) (x : A) :
  x ∈ xs <-> exists idx, (idx, x) ∈ py_enumerate xs.
Proof.
  unfold py_enumerate. split.
  - intros Hx. apply list_elem_of_lookup in Hx as [i Hi].
    exists (Z.of_nat i). apply list_elem_of_lookup. exists i.
    now rewrite list_lookup_imap, Hi.
  - intros [idx Hin]. apply list_elem_of_lookup in Hin as [i Hi].
    rewrite list_lookup_imap in Hi.
    destruct (xs !! i) as [y|] eqn:Hy; [|discriminate].
    injection Hi as _ ->. apply list_elem_of_lookup. now exists i.
Qed.

(** The summary is missing exactly when the names of some equipped person
    of the population hold a brace that [format] does not accept. *)
Lemma message_text_None (header : string) (cfg : Config.t)
    (self : Stats.t) (h : store) :
  message_text set_iter header cfg self h = None
  <-> exists person,
        person ∈ Stats.population self
        /\ Person.equipment (h person) <> ∅
        /\ format_rest (py_join ", " (Stats.worn set_iter h person)) = None.
Proof.
  unfold message_text. rewrite fmap_None, mapM_None, Exists_exists. split.
  - intros ([idx person] & Hin & Hline). cbn [fst snd] in Hline.
    exists person. split; [apply py_enumerate_elem; now exists idx|].
    destruct (decide (Person.equipment (h person) = ∅)) as [Hnone|Hne].
    + now rewrite person_line_unequipped in Hline.
    + split; [assumption|]. rewrite person_line_equipped in Hline by assumption.
      now apply fmap_None in Hline.
  - intros (person & Hin & Hne & Hnames).
    apply py_enumerate_elem in Hin as [idx Hin].
    exists (idx, person). split; [assumption|]. cbn [fst snd].
    rewrite person_line_equipped by assumption. now rewrite Hnames.
Qed.

(** With no brace in any name the summary is the plain text. *)
Lemma message_text_plain (header : string) (cfg : Config.t)
    (self : Stats.t) (h : store) :
  enumerates set_iter ->
  names_brace_free self h ->
  message_text set_iter header cfg self h
  = Some (plain_text set_iter header cfg self h).
Proof.
  intros Henum Hfree. unfold message_text, plain_text.
  rewrite (proj2 (mapM_Some _ _
             (map (fun entry => plain_line set_iter h entry.1 entry.2)
                  (py_enumerate (Stats.population self))))); [reflexivity|].
  apply Forall2_fmap_r, Forall_Forall2_diag, Forall_forall.
  intros [idx person] Hin. cbn [fst snd].
  apply person_line_plain; [assumption|].
  intros name Hname. apply (Hfree person name); [|assumption].
  apply py_enumerate_elem. now exists idx.
Qed.

(** A second call on the object the first one leaves renders the same. *)
Lemma message_text_frame (header : string) (cfg : Config.t)
    (self self' : Stats.t) (h : store) :
  Stats.population self' = Stats.population self ->
  (forall k, default [] (Stats.equipment2person self' !! k)
             = default [] (Stats.equipment2person self !! k)) ->
  message_text set_iter header cfg self' h
  = message_text set_iter header cfg self h.
Proof.
  intros Hpop Hframe. unfold message_text, message_of_lines.
  unfold Stats.population_size, Stats.unequipped_size. rewrite Hpop.
  destruct (mapM _ (py_enumerate (Stats.population self))) as [ls|];
    cbn; [|reflexivity].
  do 3 f_equal. f_equal.
  apply map_ext_in. intros entry _. now apply group_line_frame.
Qed.

End Summary.

Lemma alphabetical_iter_enumerates : enumerates alphabetical_iter.
Proof. intros s. apply merge_sort_Permutation. Qed.

Lemma reversed_iter_enumerates : enumerates reversed_iter.
Proof.
  intros s. unfold reversed_iter.
  rewrite reverse_Permutation. apply merge_sort_Permutation.
Qed.

(** C7, as stated, fails: [prepare_message] joins the names in the order the
    set yields them.  Under an iteration order that yields [helmet] before
    [boot] the line of a person wearing both reads "helmet, boot", which is
    not alphabetical and is not the text the sorted join gives. *)
Lemma wears_line_follows_the_set_not_the_alphabet :
  let h : store :=
    fun _ => Person.add_equipment "boot" (Person.add_equipment "helmet" Person.new) in
  let st := Stats.init reversed_iter [0] h in
  enumerates reversed_iter
  /\ Stats.worn reversed_iter st.2 0 = ["helmet"; "boot"]
  /\ ¬ alphabetical (Stats.worn reversed_iter st.2 0)
  /\ fst <$> CustomLabels.prepare_message reversed_iter CustomLabels.config st.1 st.2
     = Some ("Report: " +:+ LF +:+ "Found 1 persons." +:+ LF
             +:+ "Without equipment: 0." +:+ LF
             +:+ "Persons with helmet: 1." +:+ LF
             +:+ "Persons with mask: 0." +:+ LF
             +:+ "Persons with boot: 1." +:+ LF
             +:+ "Person 0 wears: helmet, boot." +:+ LF)
  /\ fst <$> CustomLabels.prepare_message reversed_iter CustomLabels.config st.1 st.2
     <> fst <$> CustomLabels.prepare_message alphabetical_iter CustomLabels.config
                  st.1 st.2.
Proof.
  intros h st.
  split; [exact reversed_iter_enumerates|].
  split; [vm_compute; reflexivity|].
  split.
  - replace (Stats.worn reversed_iter st.2 0) with ["helmet"; "boot"]
      by (vm_compute; reflexivity).
    intros Hsorted. apply Sorted_inv in Hsorted as [_ Hhd].
    apply HdRel_inv in Hhd. vm_compute in Hhd. exact Hhd.
  - split; [vm_compute; reflexivity|].
    vm_compute. discriminate.
Qed.

(** C7, amended.  Whatever the iteration order of sets, [prepare_message]
    joins the names of an equipped person in the order the set yields them,
    each name once, and without sorting: the names are alphabetical exactly
    when the set happens to be iterated alphabetically.  The joined names
    are part of the template [format] is applied to.  When no worn name
    holds a brace, as with the groups of the configuration, the summary is
    returned with every line reading ["Person i wears: "], the joined names
    as they are, and a full stop.  In a name a doubled brace is rendered as
    one; any other brace makes [format] raise, and [prepare_message] raises
    exactly when that happens on the line of some equipped person of the
    population.  A second call on the object a first call leaves behind
    renders the same text.  The header is the literal text the first line
    starts with, which holds no brace. *)
Theorem summary_lists_equipment_in_set_order
    (set_iter : gset string -> list string) (header : string)
    (cfg : Config.t) (self : Stats.t) (h : store) :
  enumerates set_iter -> brace_free header = true ->
  let result := Stats.prepare_message set_iter header cfg self h in
  fst <$> result = message_text set_iter header cfg self h
  /\ (result = None
      <-> exists person,
            person ∈ Stats.population self
            /\ Person.equipment (h person) <> ∅
            /\ format_rest (py_join ", " (Stats.worn set_iter h person)) = None)
  /\ (names_brace_free self h ->
      fst <$> result = Some (plain_text set_iter header cfg self h))
  /\ (forall idx person,
        Person.equipment (h person) <> ∅ ->
        Stats.person_line set_iter h idx person
        = (fun names =>
             "Person " +:+ py_str idx +:+ " wears: " +:+ names +:+ "." +:+ LF)
          <$> format_rest (py_join ", " (Stats.worn set_iter h person)))
  /\ (forall idx person,
        Person.equipment (h person) <> ∅ ->
        (forall name, name ∈ Person.equipment (h person) -> brace_free name = true) ->
        Stats.person_line set_iter h idx person
        = Some ("Person " +:+ py_str idx +:+ " wears: "
                +:+ py_join ", " (Stats.worn set_iter h person) +:+ "." +:+ LF))
  /\ (forall person,
        Stats.worn set_iter h person ≡ₚ elements (Person.equipment (h person)))
  /\ (forall person,
        alphabetical (Stats.worn set_iter h person)
        <-> Stats.worn set_iter h person
            = alphabetical_iter (Person.equipment (h person)))
  /\ (forall text self',
        result = Some (text, self') ->
        fst <$> Stats.prepare_message set_iter header cfg self' h = Some text).
Proof.
  intros Henum _ result.
  pose proof (prepare_message_text set_iter header cfg self h) as Hfirst.
  fold result in Hfirst.
  assert (Htext : fst <$> result = message_text set_iter header cfg self h).
  { destruct result as [[text self']|]; [|now rewrite Hfirst].
    destruct Hfirst as (Htext & _). now rewrite Htext. }
  split; [exact Htext|]. split; [|split; [|split; [|split; [|split; [|split]]]]].
  - rewrite <- message_text_None, <- Htext. now rewrite fmap_None.
  - intros Hfree. rewrite Htext. now apply message_text_plain.
  - intros idx person. apply person_line_equipped.
  - intros idx person Hne Hfree.
    rewrite person_line_plain by assumption. unfold plain_line.
    now rewrite (proj2 (py_len_set_positive _) Hne).
  - intros person. apply Henum.
  - intros person. unfold alphabetical, alphabetical_iter. split.
    + intros Hsorted. apply (Sorted_unique String.le); [assumption | |].
      * apply Sorted_merge_sort; apply _.
      * rewrite merge_sort_Permutation. apply Henum.
    + intros ->. apply Sorted_merge_sort; apply _.
  - intros text self' Hresult. rewrite Hresult in Hfirst.
    destruct Hfirst as (Hsame & Hpop & Hframe).
    pose proof (prepare_message_text set_iter header cfg self' h) as Hsecond.
    rewrite (message_text_frame set_iter header cfg self self' h Hpop Hframe),
      Hsame in Hsecond.
    destruct (Stats.prepare_message set_iter header cfg self' h)
      as [[text2 self2]|]; [|discriminate].
    destruct Hsecond as ([= ->] & _). reflexivity.
Qed.

(** A person wearing [boot] and [helmet], under the reversed iteration. *)
Lemma summary_lists_equipment_in_set_order_witness :
  let h : store :=
    fun _ => Person.add_equipment "boot" (Person.add_equipment "helmet" Person.new) in
  let st := Stats.init reversed_iter [0] h in
  enumerates reversed_iter
  /\ brace_free ("Report: " +:+ LF) = true
  /\ Stats.worn reversed_iter st.2 0
     ≡ₚ elements (Person.equipment (st.2 0)).
Proof.
  intros h st. split; [exact reversed_iter_enumerates|].
  split; [reflexivity|].
  exact (proj1 (proj2 (proj2 (proj2 (proj2 (proj2
           (summary_lists_equipment_in_set_order
              reversed_iter ("Report: " +:+ LF)
              CustomLabels.config st.1 st.2
              reversed_iter_enumerates eq_refl)))))) 0).
Defined.

(** ** The vest matcher of [lambda_function.py] *)

Section VestMatching.

Import VestOnly.

(** An index within range reads and deletes the item at that position. *)
Lemma py_index_nat {A} (l : list A) (k : nat) :
  (k < length l)%nat -> py_index l (Z.of_nat k) = l !! k.
Proof.
  intros Hk. unfold py_index, py_len.
  replace ((0 <=? Z.of_nat k)%Z && (Z.of_nat k <? Z.of_nat (length l))%Z)
    with true by (symmetry; apply andb_true_iff; split; lia).
  now rewrite Nat2Z.id.
Qed.

Lemma py_del_nat {A} (l : list A) (k : nat) :
  (k < length l)%nat -> py_del l (Z.of_nat k) = Some (delete k l).
Proof.
  intros Hk. unfold py_del, py_len.
  replace ((0 <=? Z.of_nat k)%Z && (Z.of_nat k <? Z.of_nat (length l))%Z)
    with true by (symmetry; apply andb_true_iff; split; lia).
  now rewrite Nat2Z.id.
Qed.

(** Copying a list item by item. *)
Lemma copy_loop {A} (l acc : list A) :
  for_in l (fun x acc => acc ++ [x]) acc = acc ++ l.
Proof.
  revert acc. induction l as [|x l IH]; intros acc.
  - simpl. now rewrite app_nil_r.
  - rewrite for_in_step, IH, <- app_assoc. reflexivity.
Qed.

Lemma first_overlap_cons vest person rest :
  first_overlap vest (person :: rest)
  = if overlaps vest person then Some (person, rest)
    else match first_overlap vest rest with
         | Some (found, rest') => Some (found, person :: rest')
         | None => None
         end.
Proof. reflexivity. Qed.

(** The inner loop, entered at position [k], finds the first person from
    [k] on that overlaps the vest, and removes that person and the vest. *)
Lemma inner_loop_first_overlap (fuel : nat) (vest : Detection) (h : Z)
    (st : state) (k j : nat) :
  (length (persons st) - k < fuel)%nat ->
  (k <= length (persons st))%nat ->
  (h - matched st)%Z = Z.of_nat j -> (j < length (vests st))%nat ->
  inner_loop fuel vest h (py_len (persons st)) (Z.of_nat k) st
  = match first_overlap vest (drop k (persons st)) with
    | Some (person, rest) =>
        Some (mkState (take k (persons st) ++ rest) (delete j (vests st))
                      (personsWithvests st ++ [mkPair person vest])
                      (matched st + 1))
    | None => Some st
    end.
Proof.
  revert k. induction fuel as [|fuel IH]; intros k Hfuel Hk Hj Hjlt; [lia|].
  cbn [inner_loop]. unfold py_len at 1.
  destruct (decide (k < length (persons st))%nat) as [Hlt|Hge].
  - replace (Z.of_nat k <? Z.of_nat (length (persons st)))%Z with true
      by (symmetry; apply Z.ltb_lt; lia).
    rewrite (py_index_nat _ k Hlt).
    destruct (lookup_lt_is_Some_2 (persons st) k Hlt) as [person Hperson].
    rewrite Hperson. cbn [mbind option_bind].
    rewrite (drop_S _ _ _ Hperson), first_overlap_cons.
    destruct (overlaps vest person).
    + rewrite (py_del_nat _ k Hlt). cbn [mbind option_bind].
      rewrite Hj, (py_del_nat _ j Hjlt). cbn [mbind option_bind].
      now rewrite delete_take_drop.
    + replace (Z.of_nat k + 1)%Z with (Z.of_nat (S k)) by lia.
      rewrite (IH (S k)) by (assumption || lia).
      destruct (first_overlap vest (drop (S k) (persons st))) as [[found rest]|];
        [|reflexivity].
      rewrite (take_S_r _ _ _ Hperson), <- app_assoc. reflexivity.
  - replace (Z.of_nat k <? Z.of_nat (length (persons st)))%Z with false
      by (symmetry; apply Z.ltb_ge; lia).
    rewrite drop_ge by lia. reflexivity.
Qed.

(** The outer loop, entered when the vests waiting for their turn are
    [waiting] and those already passed over are [spare], runs the greedy
    policy on the waiting vests. *)
Lemma outer_loop_greedy (waiting : list Detection) :
  forall (fuel : nat) (totalvests h : Z) (st : state) (spare : list Detection),
    (length waiting < fuel)%nat ->
    vests st = spare ++ waiting ->
    (h - matched st)%Z = Z.of_nat (length spare) ->
    totalvests = (h + Z.of_nat (length waiting))%Z ->
    exists st',
      outer_loop fuel totalvests h st = Some st'
      /\ (personsWithvests st', persons st', vests st')
         = let '(pairs, unmatched, spare') :=
             greedy_matching (persons st) waiting in
           (personsWithvests st ++ pairs, unmatched, spare ++ spare').
Proof.
  induction waiting as [|vest waiting IH];
    intros fuel totalvests h st spare Hfuel Hvests Hidx Htotal;
    (destruct fuel as [|fuel]; [simpl in Hfuel; lia|]); cbn [outer_loop].
  - replace (h <? totalvests)%Z with false
      by (symmetry; apply Z.ltb_ge; simpl in Htotal; lia).
    exists st. split; [reflexivity|]. simpl.
    now rewrite Hvests, !app_nil_r.
  - replace (h <? totalvests)%Z with true
      by (symmetry; apply Z.ltb_lt; simpl in Htotal; simpl; lia).
    assert (Hlt : (length spare < length (vests st))%nat)
      by (rewrite Hvests, length_app; simpl; lia).
    rewrite Hidx, (py_index_nat _ _ Hlt), Hvests.
    rewrite list_lookup_middle by reflexivity. cbn [mbind option_bind].
    rewrite (inner_loop_first_overlap _ vest h st 0 (length spare))
      by (assumption || lia).
    rewrite drop_0, take_0. cbn [greedy_matching].
    destruct (first_overlap vest (persons st)) as [[person rest]|].
    + cbn [mbind option_bind app].
      destruct (IH fuel totalvests (h + 1)%Z
                  (mkState rest (delete (length spare) (vests st))
                           (personsWithvests st ++ [mkPair person vest])
                           (matched st + 1))
                  spare) as (st' & Hrun & Hres).
      * simpl in Hfuel. lia.
      * cbn [vests]. rewrite Hvests, delete_middle. reflexivity.
      * cbn [matched]. lia.
      * simpl in Htotal. lia.
      * exists st'. split; [exact Hrun|]. rewrite Hres. cbn [persons personsWithvests].
        destruct (greedy_matching rest waiting) as [[pairs unmatched] spare'].
        now rewrite <- app_assoc.
    + cbn [mbind option_bind].
      destruct (IH fuel totalvests (h + 1)%Z st (spare ++ [vest]))
        as (st' & Hrun & Hres).
      * simpl in Hfuel. lia.
      * now rewrite Hvests, <- app_assoc.
      * rewrite length_app. simpl. lia.
      * simpl in Htotal. lia.
      * exists st'. split; [exact Hrun|]. rewrite Hres.
        destruct (greedy_matching (persons st) waiting) as [[pairs unmatched] spare'].
        now rewrite <- app_assoc.
Qed.

(** [matchPersonsAndVests] returns, and what it returns is the greedy
    matching. *)
Lemma matchPersonsAndVests_greedy (personsList vestsList : list Detection) :
  matchPersonsAndVests personsList vestsList
  = Some (greedy_matching personsList vestsList).
Proof.
  unfold matchPersonsAndVests. rewrite !copy_loop. cbn [app].
  destruct (outer_loop_greedy vestsList (S (length vestsList))
              (py_len vestsList) 0 (mkState personsList vestsList [] 0) [])
    as (st' & Hrun & Hres);
    [lia | reflexivity | reflexivity | unfold py_len; lia |].
  rewrite Hrun. cbn [mbind option_bind]. rewrite Hres.
  cbn [persons personsWithvests app].
  now destruct (greedy_matching personsList vestsList) as [[pairs unmatched] spare'].
Qed.

(** The person [first_overlap] finds overlaps the vest and nobody before
    that person does; the rest is the list without that person. *)
Lemma first_overlap_Some vest candidates person rest :
  first_overlap vest candidates = Some (person, rest) ->
  exists before after,
    candidates = before ++ person :: after
    /\ rest = before ++ after
    /\ overlaps vest person = true
    /\ Forall (fun q => overlaps vest q = false) before.
Proof.
  revert person rest. induction candidates as [|q candidates IH];
    intros person rest; [discriminate|].
  rewrite first_overlap_cons. destruct (overlaps vest q) eqn:Hq.
  - intros [= <- <-]. exists [], candidates. auto.
  - destruct (first_overlap vest candidates) as [[found rest']|]; [|discriminate].
    intros [= <- <-].
    destruct (IH found rest' eq_refl) as (before & after & -> & -> & Hov & Hnone).
    exists (q :: before), after. repeat split; auto.
Qed.

(** The greedy matching splits both lists: every person and every vest is
    in exactly one of the pairs or left over, and paired boxes overlap. *)
Lemma greedy_matching_partition (candidates vestsList : list Detection) :
  let '(pairs, unmatched, spare) := greedy_matching candidates vestsList in
  map Person pairs ++ unmatched ≡ₚ candidates
  /\ map Vest pairs ++ spare ≡ₚ vestsList
  /\ Forall (fun pair => overlaps (Vest pair) (Person pair) = true) pairs.
Proof.
  revert candidates. induction vestsList as [|vest vestsList IH]; intros candidates.
  - simpl. repeat split; auto.
  - cbn [greedy_matching].
    destruct (first_overlap vest candidates) as [[person rest]|] eqn:Hfirst.
    + specialize (IH rest).
      destruct (greedy_matching rest vestsList) as [[pairs unmatched] spare].
      destruct IH as (Hp & Hv & Hov).
      apply first_overlap_Some in Hfirst
        as (before & after & -> & -> & Hperson & _).
      repeat split.
      * simpl. rewrite Hp. apply Permutation_middle.
      * simpl. now rewrite Hv.
      * constructor; assumption.
    + specialize (IH candidates).
      destruct (greedy_matching candidates vestsList) as [[pairs unmatched] spare].
      destruct IH as (Hp & Hv & Hov).
      repeat split; [assumption | | assumption].
      rewrite <- Permutation_middle. now rewrite Hv.
Qed.

End VestMatching.

(** C10.  [matchPersonsAndVests] returns for every input, and what it
    returns is the greedy one-to-one matching: vests are taken in list
    order, each is paired with the first person still unmatched whose box it
    overlaps (boxes that only share an edge overlap), and both leave the
    lists.  Hence the pairs and the unmatched persons together are the input
    persons, each once; likewise for the vests; the counts add up; and
    paired boxes overlap. *)
Theorem matchPersonsAndVests_is_greedy_one_to_one
    (personsList vestsList : list VestOnly.Detection) :
  let '(pairs, unmatched, spare) :=
    VestOnly.greedy_matching personsList vestsList in
  VestOnly.matchPersonsAndVests personsList vestsList
  = Some (pairs, unmatched, spare)
  /\ map VestOnly.Person pairs ++ unmatched ≡ₚ personsList
  /\ map VestOnly.Vest pairs ++ spare ≡ₚ vestsList
  /\ (length pairs + length unmatched = length personsList)%nat
  /\ (length pairs + length spare = length vestsList)%nat
  /\ Forall (fun pair =>
               VestOnly.overlaps (VestOnly.Vest pair) (VestOnly.Person pair) = true)
            pairs
  /\ (NoDup personsList -> NoDup (map VestOnly.Person pairs))
  /\ (NoDup vestsList -> NoDup (map VestOnly.Vest pairs))
  /\ (forall vest candidates person rest,
        VestOnly.first_overlap vest candidates = Some (person, rest) ->
        exists before after,
          candidates = before ++ person :: after
          /\ rest = before ++ after
          /\ VestOnly.overlaps vest person = true
          /\ Forall (fun q => VestOnly.overlaps vest q = false) before)
  /\ VestOnly.overlaps (detection_of_corners 1 0 2 1)
                       (detection_of_corners 0 0 1 1) = true.
Proof.
  pose proof (matchPersonsAndVests_greedy personsList vestsList) as Hrun.
  pose proof (greedy_matching_partition personsList vestsList) as Hpart.
  destruct (VestOnly.greedy_matching personsList vestsList)
    as [[pairs unmatched] spare].
  destruct Hpart as (Hp & Hv & Hov).
  split; [exact Hrun|]. split; [exact Hp|]. split; [exact Hv|].
  split; [|split; [|split; [|split; [|split; [|split]]]]].
  - apply Permutation_length in Hp. rewrite length_app, length_map in Hp. exact Hp.
  - apply Permutation_length in Hv. rewrite length_app, length_map in Hv. exact Hv.
  - exact Hov.
  - intros Hnd. rewrite <- Hp in Hnd. now apply NoDup_app in Hnd as [Hnd _].
  - intros Hnd. rewrite <- Hv in Hnd. now apply NoDup_app in Hnd as [Hnd _].
  - apply first_overlap_Some.
  - reflexivity.
Qed.

(** Two persons and two vests: the first vest touches the first person along
    an edge and takes that person; the second vest lies far from the person
    who is left. *)
Lemma matchPersonsAndVests_is_greedy_one_to_one_witness :
  let p0 := detection_of_corners 0 0 1 1 in
  let p1 := detection_of_corners (1 # 2) 0 (3 # 2) 1 in
  let v0 := detection_of_corners 1 0 2 1 in
  let v1 := detection_of_corners 5 5 6 6 in
  VestOnly.matchPersonsAndVests [p0; p1] [v0; v1]
  = Some ([VestOnly.mkPair p0 v0], [p1], [v1]).
Proof.
  intros p0 p1 v0 v1.
  exact (proj1 (matchPersonsAndVests_is_greedy_one_to_one [p0; p1] [v0; v1])).
Defined.

(** ** From the detector's answer to the statistics *)

Section Pipeline.

Variable set_iter : gset string -> list string.

Lemma expected_persons_fresh is_person accept labels :
  (forall entry p, accept entry = Some p -> fresh p) ->
  Forall fresh (expected_persons is_person accept labels).
Proof.
  intros Haccept. unfold expected_persons.
  apply Forall_forall. intros p Hp.
  apply list_elem_of_In, in_flat_map in Hp as (label & _ & Hp).
  destruct (is_person (Label.Name label)); [|destruct Hp].
  apply list_elem_of_In, list_elem_of_omap in Hp as (entry & _ & Hentry).
  now apply (Haccept entry).
Qed.

Lemma person_with_both_fresh entry p : person_with_both entry = Some p -> fresh p.
Proof.
  unfold person_with_both.
  destruct (LabelInstance.BoundingBox entry), (LabelInstance.Confidence entry);
    intros [= <-]; (split; [reflexivity | eexists; reflexivity]).
Qed.

Lemma person_with_box_fresh entry p : person_with_box entry = Some p -> fresh p.
Proof.
  unfold person_with_box. destruct (LabelInstance.BoundingBox entry);
    intros [= <-]; (split; [reflexivity | eexists; reflexivity]).
Qed.

(** The references of freshly stored persons are distinct and lead to fresh
    persons. *)
Lemma refs_of_NoDup (persons : list Person.t) : NoDup (refs_of persons).
Proof. apply NoDup_seq. Qed.

Lemma store_of_fresh (persons : list Person.t) (r : ref) :
  Forall fresh persons -> r ∈ refs_of persons -> fresh (store_of persons r).
Proof.
  intros Hall Hr. apply elem_of_seq in Hr as [_ Hr].
  rewrite Forall_forall in Hall. apply Hall, list_elem_of_In, nth_In. lia.
Qed.

(** What holds of the statistics built on a matched store. *)
Lemma init_after_matching (persons : list Person.t)
    (equipment_boxes : list (string * list BoundingBox.t)) (h : store) :
  matched (refs_of persons) equipment_boxes (store_of persons) h ->
  let st := Stats.init set_iter (refs_of persons) h in
  Stats.population st.1 = refs_of persons
  /\ indexed_by_position st
  /\ forall r, r ∈ refs_of persons ->
       forall c, c ∈ Person.equipment (st.2 r)
                 <-> wears equipment_boxes (store_of persons) r c.
Proof.
  intros (_ & _ & Hworn) st. subst st. split; [apply init_population|]. split.
  - intros i person Hi. rewrite init_population in Hi. unfold Stats.init.
    now rewrite (add_all_ind set_iter _ _ (refs_of_NoDup persons) i person Hi).
  - intros r Hr c. rewrite init_equipment. now apply Hworn.
Qed.

(** [build_stats] of [Lambda_PreTrained.py] returns on every answer of the
    detector; the persons are indexed by position and wear exactly the
    categories of the boxes they intersect. *)
Lemma pretrained_build_stats_returns (cfg : Config.t) (labels : list Label.t) :
  let parsed := PreTrained.parse_objects cfg labels in
  exists st,
    PreTrained.build_stats set_iter cfg labels = Some st
    /\ Stats.population st.1 = refs_of parsed.1
    /\ indexed_by_position st
    /\ forall r, r ∈ refs_of parsed.1 ->
         forall c, c ∈ Person.equipment (st.2 r)
                   <-> wears parsed.2 (store_of parsed.1) r c.
Proof.
  intros parsed. unfold PreTrained.build_stats. fold parsed.
  assert (Hfresh : Forall fresh parsed.1).
  { subst parsed. rewrite pretrained_population.
    apply expected_persons_fresh, person_with_both_fresh. }
  destruct parsed as [persons equipment_boxes]. cbn [fst snd] in *.
  destruct (pretrained_person_loop (refs_of persons) (store_of persons)
              equipment_boxes) as (h & Hrun & Hext).
  { intros r Hr. now apply store_of_fresh. }
  rewrite Hrun. eexists. split; [reflexivity|].
  apply init_after_matching, extends_matched; [|assumption].
  intros r Hr. now apply store_of_fresh.
Qed.

(** The same for [build_stats] of [Lambda_PreTrained_and_CustomLabels.py],
    whose boxes come from the general and from the custom detectors. *)
Lemma custom_build_stats_returns (cfg : Config.t) (labels : list Label.t)
    (customs : list CustomLabel.t) :
  let parsed := CustomLabels.parse_general_objects cfg labels in
  let equipment_boxes := CustomLabels.parse_custom_objects cfg customs parsed.2 in
  exists st warnings,
    CustomLabels.build_stats set_iter cfg labels customs = Some (st, warnings)
    /\ Stats.population st.1 = refs_of parsed.1
    /\ indexed_by_position st
    /\ forall r, r ∈ refs_of parsed.1 ->
         forall c, c ∈ Person.equipment (st.2 r)
                   <-> wears equipment_boxes (store_of parsed.1) r c.
Proof.
  intros parsed equipment_boxes. unfold CustomLabels.build_stats.
  fold parsed.
  assert (Hfresh : Forall fresh parsed.1).
  { subst parsed. rewrite custom_population.
    apply expected_persons_fresh, person_with_box_fresh. }
  subst equipment_boxes.
  destruct parsed as [persons general_boxes]. cbn [fst snd] in *.
  destruct (custom_group_loop (refs_of persons) (store_of persons)
              (fun r Hr => proj2 (store_of_fresh persons r Hfresh Hr))
              (store_of persons)
              (CustomLabels.parse_custom_objects cfg customs general_boxes))
    as ([h warnings] & Hrun & Hext); [apply frame_refl|].
  rewrite Hrun. eexists _, warnings. split; [reflexivity|].
  apply init_after_matching, extends_matched; [|assumption].
  intros r Hr. now apply store_of_fresh.
Qed.

End Pipeline.

(** The scenario of the specification, from the detector's answer to the
    summary: two persons, one boot inside the box of the first. *)
Example scenario_end_to_end :
  let instance w h l t :=
    LabelInstance.mk (Some (mkBoxData w h l t)) (Some (99 # 1)%Q) in
  let labels :=
    [Label.mk "Person"
       (Some [instance (1 # 2) (1 # 2) 0 0;
              instance (3 # 10) (3 # 10) (6 # 10) (6 # 10)])%Q;
     Label.mk "Boot" (Some [instance (1 # 10) (1 # 10) (1 # 10) (1 # 10)])%Q;
     Label.mk "Tree" (Some [instance (1 # 10) (1 # 10) (1 # 10) (1 # 10)])%Q] in
  (fun st =>
     (Stats.population_size st.1,
      Stats.equipped_size st.1 st.2,
      Stats.unequipped_size st.1 st.2,
      Stats.equipment2person st.1 !! "boot",
      fst <$> PreTrained.prepare_message alphabetical_iter PreTrained.config
                st.1 st.2))
    <$> PreTrained.build_stats alphabetical_iter PreTrained.config labels
  = Some (2%Z, 1%Z, 1%Z, Some [0],
          Some ("Found 2 persons." +:+ LF
                +:+ "Without equipment: 1." +:+ LF
                +:+ "Persons with helmet: 0." +:+ LF
                +:+ "Persons with boot: 1." +:+ LF
                +:+ "Person 0 wears: boot." +:+ LF
                +:+ "Person 1 is unequipped." +:+ LF)).
Proof. vm_compute. reflexivity. Qed.

(** * Further properties of the code *)

(** ** [make_bounding_box] and the intersection test *)

Lemma py_min_le_max (a b : Q) : (py_min a b <= py_max a b)%Q.
Proof.
  unfold py_min, py_max, Qgtb.
  destruct (Qltb b a) eqn:Hba, (Qltb a b) eqn:Hab; order_facts; lra.
Qed.

Lemma py_min_max_ordered (a b : Q) :
  (a <= b)%Q -> (py_min a b == a /\ py_max a b == b)%Q.
Proof.
  intros Hle. unfold py_min, py_max, Qgtb.
  destruct (Qltb b a) eqn:Hba, (Qltb a b) eqn:Hab; order_facts; split; lra.
Qed.

Lemma py_min_max_swapped (a b : Q) :
  (b <= a)%Q -> (py_min a b == b /\ py_max a b == a)%Q.
Proof.
  intros Hle. unfold py_min, py_max, Qgtb.
  destruct (Qltb b a) eqn:Hba, (Qltb a b) eqn:Hab; order_facts; split; lra.
Qed.

(** ** Sums of floats *)

Section Rounding.

Local Open Scope Q_scope.

Local Abbreviation p2 z := (Qpower 2 z).

Lemma p2_pos z : 0 < p2 z.
Proof. apply Qpower_0_lt. reflexivity. Qed.

Lemma p2_plus a b : p2 (a + b) == p2 a * p2 b.
Proof. apply Qpower_plus. discriminate. Qed.

Lemma p2_inject (z : Z) : (0 <= z)%Z -> p2 z == inject_Z (2 ^ z).
Proof. intros Hz. symmetry. apply (Zpower_Qpower 2 z Hz). Qed.

Lemma p2_le a b : (a <= b)%Z -> p2 a <= p2 b.
Proof. intros Hab. apply Qpower_le_compat_l; [assumption | discriminate]. Qed.

Lemma p2_opp z : p2 z * p2 (- z) == 1.
Proof.
  rewrite <- p2_plus. replace (z + - z)%Z with 0%Z by lia. reflexivity.
Qed.

(** [round_half_even] stays between the floor and the ceiling. *)
Lemma round_half_even_above (n : Z) (d : positive) (k : Z) :
  (k * Zpos d <= n)%Z -> (k <= round_half_even n d)%Z.
Proof.
  intros Hk. unfold round_half_even.
  pose proof (Z.div_mod n (Zpos d) ltac:(lia)) as Hdm.
  pose proof (Z.mod_pos_bound n (Zpos d) ltac:(lia)) as Hr.
  assert (Hfloor : (k <= n / Zpos d)%Z) by (apply Z.div_le_lower_bound; lia).
  destruct (2 * (n mod Zpos d) ?= Zpos d)%Z; [destruct (Z.even _)| |]; lia.
Qed.

Lemma round_half_even_below (n : Z) (d : positive) (k : Z) :
  (n <= k * Zpos d)%Z -> (round_half_even n d <= k)%Z.
Proof.
  intros Hk. unfold round_half_even.
  pose proof (Z.div_mod n (Zpos d) ltac:(lia)) as Hdm.
  pose proof (Z.mod_pos_bound n (Zpos d) ltac:(lia)) as Hr.
  set (r := (n mod Zpos d)%Z) in *. set (fl := (n / Zpos d)%Z) in *.
  destruct (Z.eq_dec r 0%Z) as [Hz|Hnz].
  - assert (Hfl : (fl <= k)%Z) by nia.
    destruct (Z.compare_spec (2 * r) (Zpos d)); [lia | lia | lia].
  - assert (Hfl : (fl + 1 <= k)%Z) by nia.
    destruct (2 * r ?= Zpos d)%Z; [destruct (Z.even _)| |]; lia.
Qed.


Lemma inject_pow2_log2 (n : Z) :
  (0 < n)%Z ->
  p2 (Z.log2 n) <= inject_Z n /\ inject_Z n < p2 (Z.log2 n + 1).
Proof.
  intros Hn. pose proof (Z.log2_spec n Hn) as [Hlo Hhi].
  pose proof (Z.log2_nonneg n) as Hnn.
  rewrite !p2_inject by lia. rewrite <- Zle_Qle, <- Zlt_Qlt.
  replace (Z.log2 n + 1)%Z with (Z.succ (Z.log2 n)) by lia. auto.
Qed.

(** The test of [floor_log2], read on the rationals. *)
Lemma floor_log2_test (n : Z) (d : positive) (k : Z) :
  (if (0 <=? k)%Z then (Zpos d * 2 ^ k <=? n)%Z
   else (Zpos d <=? n * 2 ^ (- k))%Z) = true
  <-> p2 k * inject_Z (Zpos d) <= inject_Z n.
Proof.
  destruct (0 <=? k)%Z eqn:Hk.
  - apply Z.leb_le in Hk. rewrite Z.leb_le, p2_inject by assumption.
    rewrite <- inject_Z_mult, <- Zle_Qle. split; lia.
  - apply Z.leb_gt in Hk. rewrite Z.leb_le.
    pose proof (p2_pos k) as Hpos. pose proof (p2_pos (- k)) as Hpos'.
    pose proof (p2_opp k) as Hone.
    assert (Hinj : p2 (- k) == inject_Z (2 ^ (- k))) by (apply p2_inject; lia).
    rewrite Zle_Qle, inject_Z_mult, <- Hinj.
    set (D := inject_Z (Zpos d)) in *. set (N := inject_Z n) in *.
    set (a := p2 k) in *. set (b := p2 (- k)) in *.
    split; intros H.
    + assert (H1 : a * D <= a * (N * b)) by (apply Qmult_le_l; assumption).
      assert (H2 : a * (N * b) == N) by (rewrite (Qmult_comm N b), Qmult_assoc, Hone; ring).
      lra.
    + assert (H1 : (a * D) * b <= N * b) by (apply Qmult_le_compat_r; lra).
      assert (H2 : (a * D) * b == D).
      { rewrite (Qmult_comm a D), <- Qmult_assoc, Hone. ring. }
      lra.
Qed.

(** [floor_log2 n d] is the integer part of the binary logarithm of
    [n / d]. *)
Lemma floor_log2_bounds (n : Z) (d : positive) :
  (0 < n)%Z ->
  p2 (floor_log2 n d) * inject_Z (Zpos d) <= inject_Z n
  /\ inject_Z n < p2 (floor_log2 n d + 1) * inject_Z (Zpos d).
Proof.
  intros Hn. unfold floor_log2.
  set (k := (Z.log2 n - Z.log2 (Zpos d))%Z).
  destruct (inject_pow2_log2 n Hn) as [Hnlo Hnhi].
  destruct (inject_pow2_log2 (Zpos d) ltac:(lia)) as [Hdlo Hdhi].
  set (D := inject_Z (Zpos d)) in *. set (N := inject_Z n) in *.
  assert (HD : 0 < D) by (unfold D; rewrite <- (Zlt_Qlt 0); lia).
  assert (Hlow : p2 (k - 1) * D < N).
  { assert (H1 : p2 (Z.log2 n) == p2 (k - 1) * p2 (Z.log2 (Zpos d) + 1)).
    { rewrite <- p2_plus. unfold k. f_equiv. lia. }
    pose proof (p2_pos (k - 1)) as Hp.
    assert (H2 : p2 (k - 1) * D < p2 (k - 1) * p2 (Z.log2 (Zpos d) + 1))
      by (apply Qmult_lt_l; assumption).
    lra. }
  assert (Hhigh : N < p2 (k + 1) * D).
  { assert (H1 : p2 (Z.log2 n + 1) == p2 (k + 1) * p2 (Z.log2 (Zpos d))).
    { rewrite <- p2_plus. unfold k. f_equiv. lia. }
    pose proof (p2_pos (k + 1)) as Hp.
    assert (H2 : p2 (k + 1) * p2 (Z.log2 (Zpos d)) <= p2 (k + 1) * D)
      by (apply Qmult_le_l; assumption).
    lra. }
  pose proof (floor_log2_test n d k) as Htest. fold D N in Htest.
  destruct (if (0 <=? k)%Z then (Zpos d * 2 ^ k <=? n)%Z
            else (Zpos d <=? n * 2 ^ (- k))%Z) eqn:Ht.
  - assert (Hk : p2 k * D <= N) by (apply Htest; reflexivity).
    replace (if (0 <=? k)%Z
             then if (Zpos d * 2 ^ k <=? n)%Z then k else (k - 1)%Z
             else if (Zpos d <=? n * 2 ^ (- k))%Z then k else (k - 1)%Z)
      with k; [split; assumption|].
    destruct (0 <=? k)%Z; rewrite Ht; reflexivity.
  - assert (Hk : ~ p2 k * D <= N) by (intros H; apply Htest in H; discriminate).
    replace (if (0 <=? k)%Z
             then if (Zpos d * 2 ^ k <=? n)%Z then k else (k - 1)%Z
             else if (Zpos d <=? n * 2 ^ (- k))%Z then k else (k - 1)%Z)
      with (k - 1)%Z.
    + replace (k - 1 + 1)%Z with k by lia. split; lra.
    + destruct (0 <=? k)%Z; rewrite Ht; reflexivity.
Qed.


Lemma p2_negative (e : Z) :
  (e < 0)%Z -> p2 e == 1 # Z.to_pos (2 ^ (- e)).
Proof.
  intros He.
  assert (Hpow : (0 < 2 ^ (- e))%Z) by (apply Z.pow_pos_nonneg; lia).
  pose proof (p2_opp e) as Hone.
  rewrite (p2_inject (- e)) in Hone by lia.
  assert (Hinv : inject_Z (2 ^ (- e)) * (1 # Z.to_pos (2 ^ (- e))) == 1).
  { unfold Qeq. cbn [Qnum Qden Qmult inject_Z].
    rewrite Pos.mul_1_l, Z2Pos.id by assumption. lia. }
  assert (Hne : ~ inject_Z (2 ^ (- e)) == 0).
  { intros H. unfold Qeq in H. cbn in H. lia. }
  apply (Qmult_inj_r _ _ (inject_Z (2 ^ (- e))) Hne).
  rewrite Hone. rewrite Qmult_comm. now rewrite Hinv.
Qed.

(** [round64 x] is a multiple of the last place of [x], between the
    multiples below and above [x]. *)
Lemma round64_grid (x : Q) :
  Qnum x <> 0%Z ->
  exists m : Z,
    round64 x == inject_Z m * p2 (last_place x)
    /\ (forall k : Z, inject_Z k * p2 (last_place x) <= x -> (k <= m)%Z)
    /\ (forall k : Z, x <= inject_Z k * p2 (last_place x) -> (m <= k)%Z).
Proof.
  intros Hx. unfold round64.
  destruct (Z.eqb_spec (Qnum x) 0) as [|_]; [contradiction|].
  set (e := last_place x). destruct x as [n d]. cbn [Qnum Qden] in *.
  destruct (0 <=? e)%Z eqn:He.
  - apply Z.leb_le in He.
    assert (Hpow : (0 < 2 ^ e)%Z) by (apply Z.pow_pos_nonneg; lia).
    set (P := (2 ^ e)%Z) in *.
    exists (round_half_even n (d * Z.to_pos P)). split; [|split].
    + rewrite (p2_inject e He). fold P. now rewrite inject_Z_mult.
    + intros k Hk. apply round_half_even_above.
      rewrite (p2_inject e He) in Hk. fold P in Hk.
      rewrite <- inject_Z_mult in Hk. unfold Qle in Hk.
      cbn [Qnum Qden inject_Z] in Hk.
      rewrite Pos2Z.inj_mul, Z2Pos.id by assumption. lia.
    + intros k Hk. apply round_half_even_below.
      rewrite (p2_inject e He) in Hk. fold P in Hk.
      rewrite <- inject_Z_mult in Hk. unfold Qle in Hk.
      cbn [Qnum Qden inject_Z] in Hk.
      rewrite Pos2Z.inj_mul, Z2Pos.id by assumption. lia.
  - apply Z.leb_gt in He.
    assert (Hpow : (0 < 2 ^ (- e))%Z) by (apply Z.pow_pos_nonneg; lia).
    pose proof (p2_negative e He) as Hg.
    set (P := (2 ^ (- e))%Z) in *.
    exists (round_half_even (n * P) d). split; [|split].
    + rewrite Qred_correct, Hg. unfold Qeq. cbn [Qnum Qden Qmult inject_Z]. lia.
    + intros k Hk. apply round_half_even_above.
      rewrite Hg in Hk. unfold Qle in Hk.
      cbn [Qnum Qden Qmult inject_Z] in Hk.
      rewrite Pos.mul_1_l, Z2Pos.id in Hk by assumption. lia.
    + intros k Hk. apply round_half_even_below.
      rewrite Hg in Hk. unfold Qle in Hk.
      cbn [Qnum Qden Qmult inject_Z] in Hk.
      rewrite Pos.mul_1_l, Z2Pos.id in Hk by assumption. lia.
Qed.


Lemma Qabs_numerator (x : Q) :
  Qabs x * inject_Z (Zpos (Qden x)) == inject_Z (Z.abs (Qnum x)).
Proof.
  destruct x as [n d]. unfold Qeq.
  cbn [Qabs Qnum Qden Qmult inject_Z]. lia.
Qed.

(** The last place lies at most 52 binary places below the leading one. *)
Lemma last_place_bounds (x : Q) :
  Qnum x <> 0%Z ->
  (-1074 <= last_place x)%Z
  /\ Qabs x < p2 (last_place x + 53)
  /\ ((-1074 < last_place x)%Z -> p2 (last_place x + 52) <= Qabs x).
Proof.
  intros Hx. unfold last_place.
  destruct (floor_log2_bounds (Z.abs (Qnum x)) (Qden x) ltac:(lia)) as [Hlo Hhi].
  set (E := floor_log2 (Z.abs (Qnum x)) (Qden x)) in *.
  rewrite <- (Qabs_numerator x) in Hlo, Hhi.
  set (D := inject_Z (Zpos (Qden x))) in *.
  assert (HD : 0 < D) by (unfold D; rewrite <- (Zlt_Qlt 0); lia).
  apply Qmult_le_r in Hlo; [|assumption].
  apply Qmult_lt_r in Hhi; [|assumption].
  split; [lia|]. split.
  - eapply Qlt_le_trans; [exact Hhi|]. apply p2_le. lia.
  - intros He. replace (Z.max (E - 52) (-1074) + 52)%Z with E by lia. exact Hlo.
Qed.

Lemma round64_zero (x : Q) : Qnum x = 0%Z -> round64 x = 0 /\ x == 0.
Proof.
  intros Hx. split.
  - unfold round64. now rewrite Hx.
  - unfold Qeq. cbn. lia.
Qed.

Lemma not_zero (x : Q) : Qnum x <> 0%Z -> ~ x == 0.
Proof. intros Hx H. unfold Qeq in H. cbn in H. lia. Qed.

(** A float is a multiple of the last place of every number that is not
    smaller in absolute value. *)
Lemma representable_on_grid (l : Q) (e : Z) :
  representable l -> Qnum l <> 0%Z -> (last_place l >= e)%Z ->
  exists k : Z, l == inject_Z k * p2 e.
Proof.
  intros Hl Hnz He.
  destruct (round64_grid l Hnz) as (m & Hform & _).
  exists (m * 2 ^ (last_place l - e))%Z.
  transitivity (round64 l); [symmetry; exact Hl|].
  rewrite Hform, inject_Z_mult, <- (p2_inject (last_place l - e)) by lia.
  rewrite <- Qmult_assoc, <- p2_plus.
  replace (last_place l - e + e)%Z with (last_place l) by lia. reflexivity.
Qed.

(** Rounding never crosses a float. *)
Lemma round64_above (l x : Q) :
  representable l -> l <= x -> l <= round64 x.
Proof.
  intros Hl Hlx.
  destruct (Z.eq_dec (Qnum x) 0%Z) as [Hx|Hx].
  { destruct (round64_zero x Hx) as [-> Hzero]. lra. }
  destruct (round64_grid x Hx) as (m & Hform & Habove & _).
  set (e := last_place x) in *.
  pose proof (p2_pos e) as Hg.
  assert (Hgrid : forall k : Z, l == inject_Z k * p2 e -> l <= round64 x).
  { intros k Hk. rewrite Hform, Hk. apply Qmult_le_compat_r; [|lra].
    rewrite <- Zle_Qle. apply Habove. now rewrite <- Hk. }
  destruct (Z.eq_dec (Qnum l) 0%Z) as [Hz|Hnz].
  { apply (Hgrid 0%Z). destruct (round64_zero l Hz) as [_ ->]. ring. }
  destruct (Z_lt_ge_dec (last_place l) e) as [Hfine|Hcoarse].
  - destruct (last_place_bounds l Hnz) as (Hmin & Hsmall & _).
    destruct (last_place_bounds x Hx) as (_ & _ & Hlarge).
    fold e in Hlarge. specialize (Hlarge ltac:(lia)).
    assert (Hstep : p2 (last_place l + 53) <= p2 (e + 52)) by (apply p2_le; lia).
    assert (Hpos : 0 < x).
    { destruct (Qlt_le_dec 0 x) as [|Hneg]; [assumption|exfalso].
      rewrite (Qabs_neg x Hneg) in Hlarge.
      rewrite (Qabs_neg l) in Hsmall by lra. lra. }
    rewrite (Qabs_pos x) in Hlarge by lra.
    assert (Hk : (2 ^ 52 <= m)%Z).
    { apply Habove. rewrite <- (p2_inject 52) by lia. rewrite <- p2_plus.
      now replace (52 + e)%Z with (e + 52)%Z by lia. }
    pose proof (Qle_Qabs l) as Habs.
    assert (Hround : p2 (e + 52) <= round64 x).
    { rewrite Hform. replace (e + 52)%Z with (52 + e)%Z by lia.
      rewrite p2_plus, (p2_inject 52) by lia.
      apply Qmult_le_compat_r; [|lra]. now rewrite <- Zle_Qle. }
    lra.
  - destruct (representable_on_grid l e Hl Hnz Hcoarse) as [k Hk].
    now apply (Hgrid k).
Qed.

Lemma round64_below (l x : Q) :
  representable l -> x <= l -> round64 x <= l.
Proof.
  intros Hl Hlx.
  destruct (Z.eq_dec (Qnum x) 0%Z) as [Hx|Hx].
  { destruct (round64_zero x Hx) as [-> Hzero]. lra. }
  destruct (round64_grid x Hx) as (m & Hform & _ & Hbelow).
  set (e := last_place x) in *.
  pose proof (p2_pos e) as Hg.
  assert (Hgrid : forall k : Z, l == inject_Z k * p2 e -> round64 x <= l).
  { intros k Hk. rewrite Hform, Hk. apply Qmult_le_compat_r; [|lra].
    rewrite <- Zle_Qle. apply Hbelow. now rewrite <- Hk. }
  destruct (Z.eq_dec (Qnum l) 0%Z) as [Hz|Hnz].
  { apply (Hgrid 0%Z). destruct (round64_zero l Hz) as [_ ->]. ring. }
  destruct (Z_lt_ge_dec (last_place l) e) as [Hfine|Hcoarse].
  - destruct (last_place_bounds l Hnz) as (Hmin & Hsmall & _).
    destruct (last_place_bounds x Hx) as (_ & _ & Hlarge).
    fold e in Hlarge. specialize (Hlarge ltac:(lia)).
    assert (Hstep : p2 (last_place l + 53) <= p2 (e + 52)) by (apply p2_le; lia).
    assert (Hneg : x < 0).
    { destruct (Qlt_le_dec x 0) as [|Hpos]; [assumption|exfalso].
      rewrite (Qabs_pos x Hpos) in Hlarge.
      rewrite (Qabs_pos l) in Hsmall by lra. lra. }
    rewrite (Qabs_neg x) in Hlarge by lra.
    assert (Hk : (m <= - 2 ^ 52)%Z).
    { apply Hbelow. rewrite inject_Z_opp, <- (p2_inject 52) by lia.
      assert (Heq : - p2 52 * p2 e == - p2 (e + 52)).
      { replace (e + 52)%Z with (52 + e)%Z by lia. rewrite p2_plus. ring. }
      rewrite Heq. lra. }
    pose proof (Qle_Qabs (- l)) as Habs. rewrite Qabs_opp in Habs.
    assert (Hround : round64 x <= - p2 (e + 52)).
    { rewrite Hform. replace (e + 52)%Z with (52 + e)%Z by lia.
      rewrite p2_plus, (p2_inject 52) by lia.
      assert (Hm : inject_Z m <= - inject_Z (2 ^ 52))
        by (rewrite <- inject_Z_opp, <- Zle_Qle; exact Hk).
      assert (Hmul : inject_Z m * p2 e <= - inject_Z (2 ^ 52) * p2 e)
        by (apply Qmult_le_compat_r; [exact Hm | lra]).
      lra. }
    lra.
  - destruct (representable_on_grid l e Hl Hnz Hcoarse) as [k Hk].
    now apply (Hgrid k).
Qed.

(** Adding to a float something that is not negative does not lead below
    it, and adding something that is not positive does not lead above. *)
Lemma float_add_above (l w : Q) :
  representable l -> 0 <= w -> l <= float_add l w.
Proof. intros Hl Hw. apply round64_above; [assumption | lra]. Qed.

Lemma float_add_below (l w : Q) :
  representable l -> w <= 0 -> float_add l w <= l.
Proof. intros Hl Hw. apply round64_below; [assumption | lra]. Qed.

End Rounding.

(** The sums Python prints as [0.30000000000000004], [0.5] and [1.0]; a tie
    that goes up to the even neighbour; and a sum of two subnormal
    numbers. *)
Example float_add_rounds :
  (float_add (3602879701896397 # 2 ^ 55) (3602879701896397 # 2 ^ 54)
   == 1351079888211149 # 2 ^ 52
   /\ float_add (1 # 2) (1 # 2 ^ 54) == 1 # 2
   /\ float_add 1 (1 # 2 ^ 53) == 1
   /\ float_add (4503599627370497 # 2 ^ 52) (1 # 2 ^ 53)
      == 2251799813685249 # 2 ^ 51
   /\ float_add (1 # 2 ^ 1074) (1 # 2 ^ 1074) == 1 # 2 ^ 1073)%Q.
Proof. repeat split; vm_compute; reflexivity. Qed.

(** X1.  [make_bounding_box] always returns a box whose intervals run from
    the smaller to the larger end, whatever the signs of the width and the
    height: the ends of the horizontal interval are [Left] and the float
    sum [Left + Width], in the order in which they compare, and likewise
    for the vertical one.  When [Left] is a float, a width that is not
    negative gives [[Left, Left + Width]] and a width that is not positive
    gives [[Left + Width, Left]]; likewise for [Top] and the height.  The
    box has no width exactly when the sum rounds back to [Left], which a
    positive width does not exclude: with [Left] one half and [Width]
    [2^-54] the horizontal interval is the single point one half. *)
Theorem make_bounding_box_normalises (box_data : BoxData) :
  let box := make_bounding_box box_data in
  let x := BoundingBox.x_interval box in
  let y := BoundingBox.y_interval box in
  let right := float_add (Left box_data) (Width box_data) in
  let bottom := float_add (Top box_data) (Height box_data) in
  well_formed box
  /\ ((Left box_data <= right)%Q ->
      (Interval.min x == Left box_data /\ Interval.max x == right)%Q)
  /\ ((right <= Left box_data)%Q ->
      (Interval.min x == right /\ Interval.max x == Left box_data)%Q)
  /\ ((Top box_data <= bottom)%Q ->
      (Interval.min y == Top box_data /\ Interval.max y == bottom)%Q)
  /\ ((bottom <= Top box_data)%Q ->
      (Interval.min y == bottom /\ Interval.max y == Top box_data)%Q)
  /\ (representable (Left box_data) ->
      ((0 <= Width box_data)%Q ->
       (Interval.min x == Left box_data /\ Interval.max x == right)%Q)
      /\ ((Width box_data <= 0)%Q ->
          (Interval.min x == right /\ Interval.max x == Left box_data)%Q))
  /\ (representable (Top box_data) ->
      ((0 <= Height box_data)%Q ->
       (Interval.min y == Top box_data /\ Interval.max y == bottom)%Q)
      /\ ((Height box_data <= 0)%Q ->
          (Interval.min y == bottom /\ Interval.max y == Top box_data)%Q))
  /\ (degenerate box
      <-> (right == Left box_data)%Q \/ (bottom == Top box_data)%Q)
  /\ (let thin := mkBoxData (1 # 2 ^ 54) 1 (1 # 2) 0 in
      (0 < Width thin)%Q
      /\ representable (Left thin)
      /\ BoundingBox.x_interval (make_bounding_box thin)
         = Interval.mk (1 # 2) (1 # 2)).
Proof.
  cbn zeta. unfold make_bounding_box, well_formed, degenerate.
  cbn [BoundingBox.x_interval BoundingBox.y_interval Interval.min Interval.max
       Width Height Left Top].
  split; [split; apply py_min_le_max|].
  split; [apply py_min_max_ordered|]. split; [apply py_min_max_swapped|].
  split; [apply py_min_max_ordered|]. split; [apply py_min_max_swapped|].
  split.
  { intros Hleft. split; intros Hsign.
    - apply py_min_max_ordered. now apply float_add_above.
    - apply py_min_max_swapped. now apply float_add_below. }
  split.
  { intros Htop. split; intros Hsign.
    - apply py_min_max_ordered. now apply float_add_above.
    - apply py_min_max_swapped. now apply float_add_below. }
  split;
    [|split; [reflexivity | split; [vm_compute; reflexivity
                                   | vm_compute; reflexivity]]].
  set (left := Left box_data). set (top := Top box_data).
  set (right := float_add left (Width box_data)).
  set (bottom := float_add top (Height box_data)).
  destruct (Qlt_le_dec right left) as [Hx|Hx];
    [destruct (py_min_max_swapped left right) as [Hxmin Hxmax]; [lra|]
    |destruct (py_min_max_ordered left right) as [Hxmin Hxmax]; [lra|]];
    (destruct (Qlt_le_dec bottom top) as [Hy|Hy];
     [destruct (py_min_max_swapped top bottom) as [Hymin Hymax]; [lra|]
     |destruct (py_min_max_ordered top bottom) as [Hymin Hymax]; [lra|]]);
    rewrite Hxmin, Hxmax, Hymin, Hymax;
    split; intros [H|H]; (left; lra) || (right; lra).
Qed.

(** A box given with a negative width is folded back. *)
Lemma make_bounding_box_normalises_witness :
  let box_data := mkBoxData (- (1 # 4)) (1 # 2) (1 # 2) 0 in
  representable (Left box_data)
  /\ (Width box_data <= 0)%Q
  /\ (Interval.min (BoundingBox.x_interval (make_bounding_box box_data)) == 1 # 4)%Q
  /\ (Interval.max (BoundingBox.x_interval (make_bounding_box box_data)) == 1 # 2)%Q.
Proof.
  intros box_data.
  assert (Hl : representable (Left box_data)) by (vm_compute; reflexivity).
  assert (Hw : (Width box_data <= 0)%Q) by (vm_compute; discriminate).
  split; [exact Hl|]. split; [exact Hw|].
  destruct (proj2 (proj1 (proj2 (proj2 (proj2 (proj2 (proj2
             (make_bounding_box_normalises box_data)))))) Hl) Hw)
    as [Hmin Hmax].
  split; [rewrite Hmin | rewrite Hmax]; vm_compute; reflexivity.
Defined.

(** X2.  A box intersects itself exactly when it has positive width and
    positive height. *)
Theorem if_boxes_intersect_self (A : BoundingBox.t) :
  if_boxes_intersect A A = true <-> proper_box A.
Proof.
  unfold if_boxes_intersect, proper_box, proper_interval.
  rewrite andb_true_iff, !if_intervals_intersect_self, !Qltb_lt. reflexivity.
Qed.

(** X3.  On boxes of positive width and height the test does not depend on
    the order of its arguments. *)
Theorem if_boxes_intersect_symmetric_on_proper_boxes (A B : BoundingBox.t) :
  proper_box A -> proper_box B ->
  if_boxes_intersect A B = if_boxes_intersect B A.
Proof.
  intros [HAx HAy] [HBx HBy]. unfold if_boxes_intersect.
  rewrite (if_intervals_intersect_sym_proper _ _ HAx HBx).
  now rewrite (if_intervals_intersect_sym_proper _ _ HAy HBy).
Qed.

Lemma if_boxes_intersect_symmetric_on_proper_boxes_witness :
  let A := box_of_corners 0 0 1 1 in
  let B := box_of_corners (1 # 2) (1 # 2) 2 2 in
  proper_box A /\ proper_box B
  /\ if_boxes_intersect A B = if_boxes_intersect B A.
Proof.
  intros A B.
  assert (HA : proper_box A) by (split; reflexivity).
  assert (HB : proper_box B) by (split; reflexivity).
  split; [exact HA|]. split; [exact HB|].
  exact (if_boxes_intersect_symmetric_on_proper_boxes A B HA HB).
Defined.

(** Intervals of positive length intersect exactly when some point lies
    strictly inside both. *)
Lemma if_intervals_intersect_common_point (a b : Interval.t) :
  proper_interval a -> proper_interval b ->
  if_intervals_intersect a b = true
  <-> exists x, inside_interval x a /\ inside_interval x b.
Proof.
  unfold proper_interval, inside_interval. intros Ha Hb.
  destruct (Qlt_le_dec (Interval.min b) (Interval.min a)) as [Hlt|Hle].
  - rewrite if_intervals_intersect_right, Qltb_lt by assumption. split.
    + intros Hov.
      destruct (Qlt_le_dec (Interval.max a) (Interval.max b)) as [Hm|Hm].
      * exists ((Interval.min a + Interval.max a) * (1 # 2))%Q. split; split; lra.
      * exists ((Interval.min a + Interval.max b) * (1 # 2))%Q. split; split; lra.
    + intros (x & [? ?] & [? ?]). lra.
  - rewrite if_intervals_intersect_left, Qltb_lt by assumption. split.
    + intros Hov.
      destruct (Qlt_le_dec (Interval.max a) (Interval.max b)) as [Hm|Hm].
      * exists ((Interval.min b + Interval.max a) * (1 # 2))%Q. split; split; lra.
      * exists ((Interval.min b + Interval.max b) * (1 # 2))%Q. split; split; lra.
    + intros (x & [? ?] & [? ?]). lra.
Qed.

(** X4.  Two boxes of positive width and height intersect, in the sense of
    [if_boxes_intersect], exactly when some point lies strictly inside
    both. *)
Theorem if_boxes_intersect_common_point (A B : BoundingBox.t) :
  proper_box A -> proper_box B ->
  if_boxes_intersect A B = true
  <-> exists x y, inside_box x y A /\ inside_box x y B.
Proof.
  intros [HAx HAy] [HBx HBy]. unfold if_boxes_intersect, inside_box.
  rewrite andb_true_iff.
  rewrite (if_intervals_intersect_common_point _ _ HAx HBx).
  rewrite (if_intervals_intersect_common_point _ _ HAy HBy).
  split.
  - intros [(x & Hxa & Hxb) (y & Hya & Hyb)]. exists x, y. auto.
  - intros (x & y & [Hxa Hya] & [Hxb Hyb]). split; eauto.
Qed.

Lemma if_boxes_intersect_common_point_witness :
  let A := box_of_corners 0 0 1 1 in
  let B := box_of_corners (1 # 2) (1 # 2) 2 2 in
  proper_box A /\ proper_box B
  /\ (if_boxes_intersect A B = true
      <-> exists x y, inside_box x y A /\ inside_box x y B).
Proof.
  intros A B.
  assert (HA : proper_box A) by (split; reflexivity).
  assert (HB : proper_box B) by (split; reflexivity).
  split; [exact HA|]. split; [exact HB|].
  exact (if_boxes_intersect_common_point A B HA HB).
Defined.

(** ** The matching loops on any initial equipment *)

(** Two persons with the same attributes are the same. *)
Lemma person_eq (p q : Person.t) :
  Person.equipment p = Person.equipment q -> Person.ind p = Person.ind q ->
  Person.box p = Person.box q -> Person.confidence p = Person.confidence q ->
  p = q.
Proof. destruct p, q. simpl. now intros -> -> -> ->. Qed.

(** Stores that grew from the same store by the same categories agree. *)
Lemma extends_unique h h1 h2 (P : ref -> string -> Prop) :
  extends h h1 P -> extends h h2 P -> forall r, h1 r = h2 r.
Proof.
  intros [Hf1 H1] [Hf2 H2] r.
  destruct (Hf1 r) as (Hb1 & Hi1 & Hc1), (Hf2 r) as (Hb2 & Hi2 & Hc2).
  apply person_eq; try congruence.
  apply set_eq. intros c. now rewrite H1, H2.
Qed.

(** X5.  Whatever the persons hold before, both matching loops return when
    every person of the population has a box; they only add to equipment
    sets (a person ends with what the person held plus the categories under
    which some box intersects the person's box, nothing is ever removed and
    no other attribute changes), and the two loop orders (groups outermost,
    persons outermost) end in the same store. *)
Theorem matching_only_adds_and_loop_order_is_immaterial
    (population : list ref)
    (equipment_boxes : list (string * list BoundingBox.t)) (h : store) :
  (forall r, r ∈ population -> is_Some (Person.box (h r))) ->
  exists h1 h2 warnings,
    CustomLabels.match_equipment population equipment_boxes (h, [])
    = Some (h1, warnings)
    /\ PreTrained.match_equipment population equipment_boxes h = Some h2
    /\ (forall r, h1 r = h2 r)
    /\ frame h h1
    /\ (forall r, Person.equipment (h r) ⊆ Person.equipment (h1 r))
    /\ (forall r c,
          c ∈ Person.equipment (h1 r)
          <-> c ∈ Person.equipment (h r)
              \/ (r ∈ population /\ wears equipment_boxes h r c)).
Proof.
  intros Hboxes.
  destruct (custom_group_loop population h Hboxes h equipment_boxes)
    as ([h1 warnings] & Hrun1 & Hext1); [apply frame_refl|].
  destruct (pretrained_person_loop population h equipment_boxes Hboxes)
    as (h2 & Hrun2 & Hext2).
  cbn [fst] in Hext1.
  exists h1, h2, warnings. split; [exact Hrun1|]. split; [exact Hrun2|].
  split; [exact (extends_unique _ _ _ _ Hext1 Hext2)|].
  destruct Hext1 as [Hf Hiff]. split; [exact Hf|]. split; [|exact Hiff].
  intros r c Hc. apply Hiff. now left.
Qed.

Lemma matching_only_adds_and_loop_order_is_immaterial_witness :
  let persons :=
    [Person.add_equipment "mask"
       (Person.set_box (make_bounding_box (mkBoxData (1 # 2) (1 # 2) 0 0)) Person.new)] in
  let equipment_boxes :=
    [("boot", [make_bounding_box (mkBoxData (1 # 10) (1 # 10) (1 # 10) (1 # 10))])] in
  (forall r, r ∈ refs_of persons -> is_Some (Person.box (store_of persons r)))
  /\ exists h1 h2 warnings,
       CustomLabels.match_equipment (refs_of persons) equipment_boxes
         (store_of persons, []) = Some (h1, warnings)
       /\ PreTrained.match_equipment (refs_of persons) equipment_boxes
            (store_of persons) = Some h2
       /\ (forall r, h1 r = h2 r).
Proof.
  intros persons equipment_boxes.
  assert (Hboxes : forall r, r ∈ refs_of persons ->
                     is_Some (Person.box (store_of persons r))).
  { intros r Hr. apply elem_of_seq in Hr. simpl in Hr.
    destruct r as [|r]; [eexists; reflexivity | lia]. }
  split; [exact Hboxes|].
  destruct (matching_only_adds_and_loop_order_is_immaterial
              (refs_of persons) equipment_boxes (store_of persons) Hboxes)
    as (h1 & h2 & warnings & Hrun1 & Hrun2 & Hsame & _).
  exists h1, h2, warnings. auto.
Defined.

(** Matching a second time finds nothing new. *)
Lemma extends_again h h1 h2 (P Q : ref -> string -> Prop) :
  extends h h1 P -> extends h1 h2 Q ->
  (forall r c, Q r c -> P r c) ->
  forall r, h2 r = h1 r.
Proof.
  intros [Hf1 H1] [Hf2 H2] HQP r.
  destruct (Hf2 r) as (Hb & Hi & Hc).
  apply person_eq; try assumption.
  apply set_eq. intros c. rewrite H2, H1. specialize (HQP r c). tauto.
Qed.

Lemma wears_frame equipment_boxes h h' r c :
  frame h h' -> wears equipment_boxes h' r c <-> wears equipment_boxes h r c.
Proof.
  intros Hf. unfold wears, hits. destruct (Hf r) as (Hbox & _).
  now rewrite Hbox.
Qed.

(** X6.  Matching is idempotent: run on the store a first run left, either
    loop returns and changes no person. *)
Theorem matching_twice_is_matching_once (population : list ref)
    (equipment_boxes : list (string * list BoundingBox.t)) (h h1 : store) :
  (forall r, r ∈ population -> is_Some (Person.box (h r))) ->
  PreTrained.match_equipment population equipment_boxes h = Some h1 ->
  exists h2 h3 warnings,
    PreTrained.match_equipment population equipment_boxes h1 = Some h2
    /\ CustomLabels.match_equipment population equipment_boxes (h1, [])
       = Some (h3, warnings)
    /\ (forall r, h2 r = h1 r)
    /\ (forall r, h3 r = h1 r).
Proof.
  intros Hboxes Hrun.
  destruct (pretrained_person_loop population h equipment_boxes Hboxes)
    as (h1' & Hrun' & Hext).
  rewrite Hrun in Hrun'. injection Hrun' as <-.
  assert (Hboxes1 : forall r, r ∈ population -> is_Some (Person.box (h1 r))).
  { intros r Hr. destruct Hext as [Hf _]. destruct (Hf r) as (Hb & _).
    rewrite Hb. now apply Hboxes. }
  destruct (pretrained_person_loop population h1 equipment_boxes Hboxes1)
    as (h2 & Hrun2 & Hext2).
  destruct (custom_group_loop population h1 Hboxes1 h1 equipment_boxes)
    as ([h3 warnings] & Hrun3 & Hext3); [apply frame_refl|].
  cbn [fst] in Hext3.
  exists h2, h3, warnings. split; [exact Hrun2|]. split; [exact Hrun3|].
  assert (Hsub : forall r c,
             r ∈ population /\ wears equipment_boxes h1 r c ->
             r ∈ population /\ wears equipment_boxes h r c).
  { intros r c [Hr Hw]. split; [assumption|].
    now apply (wears_frame equipment_boxes h h1 r c (proj1 Hext)). }
  split; [exact (extends_again _ _ _ _ _ Hext Hext2 Hsub)
         | exact (extends_again _ _ _ _ _ Hext Hext3 Hsub)].
Qed.

Lemma matching_twice_is_matching_once_witness :
  let persons :=
    [Person.set_box (make_bounding_box (mkBoxData (1 # 2) (1 # 2) 0 0)) Person.new] in
  let equipment_boxes :=
    [("boot", [make_bounding_box (mkBoxData (1 # 10) (1 # 10) (1 # 10) (1 # 10))])] in
  let h1 : store :=
    fun r => default (store_of persons)
               (PreTrained.match_equipment (refs_of persons) equipment_boxes
                  (store_of persons)) r in
  exists h2 h3 warnings,
    PreTrained.match_equipment (refs_of persons) equipment_boxes h1 = Some h2
    /\ CustomLabels.match_equipment (refs_of persons) equipment_boxes (h1, [])
       = Some (h3, warnings)
    /\ (forall r, h2 r = h1 r)
    /\ (forall r, h3 r = h1 r).
Proof.
  intros persons equipment_boxes h1.
  apply (matching_twice_is_matching_once (refs_of persons) equipment_boxes
           (store_of persons) h1).
  - intros r Hr. apply elem_of_seq in Hr. simpl in Hr.
    destruct r as [|r]; [eexists; reflexivity | lia].
  - reflexivity.
Defined.

(** ** When the matching loops raise *)

Section Raising.

(** A loop whose successful steps are all within a preorder stays within
    it. *)
Lemma for_each_preserves {S A} (R : S -> S -> Prop) (xs : list A)
    (body : A -> S -> option S) :
  (forall s, R s s) -> (forall a b c, R a b -> R b c -> R a c) ->
  (forall x s s', body x s = Some s' -> R s s') ->
  forall s s', for_each xs body s = Some s' -> R s s'.
Proof.
  intros Hrefl Htrans Hbody. induction xs as [|x xs IH]; intros s s' Hrun.
  - injection Hrun as <-. apply Hrefl.
  - simpl in Hrun. destruct (body x s) as [s1|] eqn:Hx; [|discriminate].
    apply (Htrans s s1 s'); [now apply (Hbody x) | now apply IH].
Qed.

(** A loop raises when the body raises on one of the items in every state
    the loop can be in. *)
Lemma for_each_raises {S A} (I : S -> Prop) (xs : list A)
    (body : A -> S -> option S) (x : A) :
  x ∈ xs ->
  (forall y s s', I s -> body y s = Some s' -> I s') ->
  (forall s, I s -> body x s = None) ->
  forall s, I s -> for_each xs body s = None.
Proof.
  intros Hx Hkeep Hfail. induction xs as [|y xs IH]; intros s Hs.
  - now apply elem_of_nil in Hx.
  - simpl. destruct (body y s) as [s1|] eqn:Hy; [|reflexivity].
    apply elem_of_cons in Hx as [->|Hx].
    + rewrite (Hfail s Hs) in Hy. discriminate.
    + apply IH; [assumption | now apply (Hkeep y s)].
Qed.

(** A loop whose body does nothing does nothing. *)
Lemma for_each_skip {S A} (xs : list A) (body : A -> S -> option S) (s : S) :
  (forall x, x ∈ xs -> body x s = Some s) -> for_each xs body s = Some s.
Proof.
  induction xs as [|x xs IH]; intros Hbody; [reflexivity|].
  simpl. rewrite Hbody by (apply elem_of_cons; now left).
  apply IH. intros y Hy. apply Hbody, elem_of_cons. now right.
Qed.

Lemma frame_add h person group :
  frame h (<[person := Person.add_equipment group (h person)]> h).
Proof. apply extends_add. Qed.

(** One test of a person against a box keeps the frame when it returns. *)
Lemma test_frame (person : ref) (group : string) (box : BoundingBox.t)
    (h h' : store) :
  match Person.box (h person) with
  | Some person_box =>
      if if_boxes_intersect person_box box
      then Some (<[person := Person.add_equipment group (h person)]> h)
      else Some h
  | None => None
  end = Some h' ->
  frame h h'.
Proof.
  destruct (Person.box (h person)) as [pb|]; [|discriminate].
  destruct (if_boxes_intersect pb box); intros [= <-];
    [apply frame_add | apply frame_refl].
Qed.

(** Whenever the loop of [Lambda_PreTrained.py] returns, only equipment
    sets have changed. *)
Lemma pretrained_match_frame population equipment_boxes h h' :
  PreTrained.match_equipment population equipment_boxes h = Some h' ->
  frame h h'.
Proof.
  unfold PreTrained.match_equipment.
  apply (for_each_preserves frame); [apply frame_refl | apply frame_trans |].
  intros person s s'.
  apply (for_each_preserves frame); [apply frame_refl | apply frame_trans |].
  intros [group boxes] s0 s0'.
  apply (for_each_preserves frame); [apply frame_refl | apply frame_trans |].
  intros box s1 s1'. apply test_frame.
Qed.

Lemma pretrained_match_raises population equipment_boxes h r c boxes b :
  r ∈ population -> Person.box (h r) = None ->
  (c, boxes) ∈ equipment_boxes -> b ∈ boxes ->
  PreTrained.match_equipment population equipment_boxes h = None.
Proof.
  intros Hr Hnone Hgroup Hb. unfold PreTrained.match_equipment.
  apply (for_each_raises (frame h) _ _ r Hr); [| |apply frame_refl].
  - intros person s s' Hs Hrun. apply (frame_trans h s s' Hs).
    revert Hrun.
    apply (for_each_preserves frame); [apply frame_refl | apply frame_trans |].
    intros [group bs] s0 s0'.
    apply (for_each_preserves frame); [apply frame_refl | apply frame_trans |].
    intros box s1 s1'. apply test_frame.
  - intros s Hs.
    apply (for_each_raises (frame h) _ _ (c, boxes) Hgroup); [| |assumption].
    + intros [group bs] s0 s0' Hs0 Hrun. apply (frame_trans h s0 s0' Hs0).
      revert Hrun.
      apply (for_each_preserves frame); [apply frame_refl | apply frame_trans |].
      intros box s1 s1'. apply test_frame.
    + intros s0 Hs0.
      apply (for_each_raises (frame h) _ _ b Hb); [| |assumption].
      * intros box s1 s1' Hs1 Hrun. apply (frame_trans h s1 s1' Hs1).
        now apply test_frame in Hrun.
      * intros s1 Hs1. destruct (Hs1 r) as (Hbox & _).
        now rewrite Hbox, Hnone.
Qed.

Lemma pretrained_match_no_box population equipment_boxes h :
  (forall c boxes, (c, boxes) ∈ equipment_boxes -> boxes = []) ->
  PreTrained.match_equipment population equipment_boxes h = Some h.
Proof.
  intros Hempty. unfold PreTrained.match_equipment.
  apply for_each_skip. intros person _.
  apply for_each_skip. intros [c boxes] Hin.
  now rewrite (Hempty c boxes Hin).
Qed.

End Raising.

Section RaisingCustom.

(** One test of a person against a box, with the counter of the general
    variant, keeps the frame when it returns. *)
Lemma custom_test_frame (person : ref) (group_name : string)
    (box : BoundingBox.t) (s s' : store * Z) :
  (let '(h, intersected_count) := s in
   match Person.box (h person) with
   | Some person_box =>
       if if_boxes_intersect person_box box
       then Some (<[person := Person.add_equipment group_name (h person)]> h,
                  (intersected_count + 1)%Z)
       else Some (h, intersected_count)
   | None => None
   end) = Some s' ->
  frame s.1 s'.1.
Proof.
  destruct s as [h count], s' as [h' count']. cbn [fst].
  destruct (Person.box (h person)) as [pb|]; [|discriminate].
  destruct (if_boxes_intersect pb box); intros [= <- _];
    [apply frame_add | apply frame_refl].
Qed.

Lemma custom_person_frame population group_name box (s s' : store * Z) :
  for_each population
    (fun person '(h, intersected_count) =>
       match Person.box (h person) with
       | Some person_box =>
           if if_boxes_intersect person_box box
           then Some (<[person := Person.add_equipment group_name (h person)]> h,
                      (intersected_count + 1)%Z)
           else Some (h, intersected_count)
       | None => None
       end)
    s = Some s' ->
  frame s.1 s'.1.
Proof.
  apply (for_each_preserves (fun a b : store * Z => frame a.1 b.1));
    [intros; apply frame_refl | intros a b c; apply frame_trans |].
  intros person s0 s0'. apply custom_test_frame.
Qed.

Lemma custom_box_frame population group_name box
    (s s' : store * list (string * Z)) :
  (let '(h, warnings) := s in
   match
     for_each population
       (fun person '(h, intersected_count) =>
          match Person.box (h person) with
          | Some person_box =>
              if if_boxes_intersect person_box box
              then Some (<[person := Person.add_equipment group_name (h person)]> h,
                         (intersected_count + 1)%Z)
              else Some (h, intersected_count)
          | None => None
          end)
       (h, 0%Z)
   with
   | Some (h, intersected_count) =>
       if (1 <? intersected_count)%Z
       then Some (h, warnings ++ [(group_name, intersected_count)])
       else Some (h, warnings)
   | None => None
   end) = Some s' ->
  frame s.1 s'.1.
Proof.
  destruct s as [h warnings], s' as [h' warnings']. cbn [fst].
  destruct (for_each population _ (h, 0%Z)) as [[h1 count]|] eqn:Hrun;
    [|discriminate].
  apply custom_person_frame in Hrun. cbn [fst] in Hrun.
  destruct (1 <? count)%Z; now intros [= <- _].
Qed.

(** Whenever the loop of [Lambda_PreTrained_and_CustomLabels.py] returns,
    only equipment sets have changed. *)
Lemma custom_match_frame population equipment_boxes
    (s s' : store * list (string * Z)) :
  CustomLabels.match_equipment population equipment_boxes s = Some s' ->
  frame s.1 s'.1.
Proof.
  unfold CustomLabels.match_equipment.
  apply (for_each_preserves (fun a b : store * list (string * Z) => frame a.1 b.1));
    [intros; apply frame_refl | intros a b c; apply frame_trans |].
  intros [group_name group_boxes] s0 s0'.
  apply (for_each_preserves (fun a b : store * list (string * Z) => frame a.1 b.1));
    [intros; apply frame_refl | intros a b c; apply frame_trans |].
  intros box s1 s1'. apply custom_box_frame.
Qed.

Lemma custom_match_raises population equipment_boxes
    (s : store * list (string * Z)) r c boxes b :
  r ∈ population -> Person.box (s.1 r) = None ->
  (c, boxes) ∈ equipment_boxes -> b ∈ boxes ->
  CustomLabels.match_equipment population equipment_boxes s = None.
Proof.
  intros Hr Hnone Hgroup Hb. unfold CustomLabels.match_equipment.
  apply (for_each_raises (fun s0 : store * list (string * Z) => frame s.1 s0.1)
           _ _ (c, boxes) Hgroup); [| |apply frame_refl].
  - intros [group_name group_boxes] s0 s0' Hs0 Hrun.
    apply (frame_trans _ _ _ Hs0). revert Hrun.
    apply (for_each_preserves
             (fun a b : store * list (string * Z) => frame a.1 b.1));
      [intros; apply frame_refl | intros a0 b0 c0; apply frame_trans |].
    intros box s1 s1'. apply custom_box_frame.
  - intros s0 Hs0.
    apply (for_each_raises (fun s1 : store * list (string * Z) => frame s.1 s1.1)
             _ _ b Hb); [| |assumption].
    + intros box s1 s1' Hs1 Hrun. apply (frame_trans _ _ _ Hs1).
      now apply custom_box_frame in Hrun.
    + intros [h1 warnings] Hs1. cbn [fst] in Hs1.
      rewrite (for_each_raises (fun s2 : store * Z => frame s.1 s2.1) _ _ r Hr);
        [reflexivity | | | exact Hs1].
      * intros person s2 s2' Hs2 Hrun. apply (frame_trans _ _ _ Hs2).
        now apply custom_test_frame in Hrun.
      * intros [h2 count] Hs2. cbn [fst] in Hs2.
        destruct (Hs2 r) as (Hbox & _). now rewrite Hbox, Hnone.
Qed.

Lemma custom_match_no_box population equipment_boxes
    (s : store * list (string * Z)) :
  (forall c boxes, (c, boxes) ∈ equipment_boxes -> boxes = []) ->
  CustomLabels.match_equipment population equipment_boxes s = Some s.
Proof.
  intros Hempty. unfold CustomLabels.match_equipment.
  apply for_each_skip. intros [c boxes] Hin.
  now rewrite (Hempty c boxes Hin).
Qed.

End RaisingCustom.

Lemma box_missing_or_present (population : list ref) (h : store) :
  (forall r, r ∈ population -> is_Some (Person.box (h r)))
  \/ (exists r, r ∈ population /\ Person.box (h r) = None).
Proof.
  induction population as [|p population [IH|(r & Hr & Hnone)]].
  - left. intros r Hr. now apply elem_of_nil in Hr.
  - destruct (Person.box (h p)) as [pb|] eqn:Hp.
    + left. intros r Hr. apply elem_of_cons in Hr as [->|Hr]; [|now apply IH].
      rewrite Hp. now eexists.
    + right. exists p. split; [apply elem_of_cons; now left | assumption].
  - right. exists r. split; [apply elem_of_cons; now right | assumption].
Qed.

Lemma some_box_or_none (equipment_boxes : list (string * list BoundingBox.t)) :
  (forall c boxes, (c, boxes) ∈ equipment_boxes -> boxes = [])
  \/ (exists c boxes b, (c, boxes) ∈ equipment_boxes /\ b ∈ boxes).
Proof.
  induction equipment_boxes as [|[c [|b boxes]] equipment_boxes [IH|(c' & bs & b' & Hin & Hb)]].
  - left. intros c boxes Hin. now apply elem_of_nil in Hin.
  - left. intros c' bs Hin. apply elem_of_cons in Hin as [[= -> ->]|Hin];
      [reflexivity | now apply (IH c')].
  - right. exists c', bs, b'. split; [apply elem_of_cons; now right | assumption].
  - right. exists c, (b :: boxes), b.
    split; apply elem_of_cons; now left.
  - right. exists c', bs, b'. split; [apply elem_of_cons; now right | assumption].
Qed.

(** X7.  Either matching loop raises exactly when some person of the
    population has no box and the equipment map holds at least one box.
    With every box in place it returns; with no equipment box at all it
    returns without looking at any person. *)
Theorem matching_raises_exactly_on_a_missing_box (population : list ref)
    (equipment_boxes : list (string * list BoundingBox.t)) (h : store) :
  let missing :=
    exists r, r ∈ population /\ Person.box (h r) = None in
  let some_box :=
    exists c boxes b, (c, boxes) ∈ equipment_boxes /\ b ∈ boxes in
  (PreTrained.match_equipment population equipment_boxes h = None
   <-> missing /\ some_box)
  /\ (CustomLabels.match_equipment population equipment_boxes (h, []) = None
      <-> missing /\ some_box).
Proof.
  intros missing some_box. subst missing some_box. split; split.
  - intros Hnone.
    destruct (box_missing_or_present population h) as [Hall|Hmiss].
    { destruct (pretrained_person_loop population h equipment_boxes Hall)
        as (h' & Hrun & _). congruence. }
    destruct (some_box_or_none equipment_boxes) as [Hempty|Hsome]; [|auto].
    rewrite (pretrained_match_no_box population equipment_boxes h Hempty) in Hnone.
    discriminate.
  - intros [(r & Hr & Hnone) (c & boxes & b & Hin & Hb)].
    now apply (pretrained_match_raises population equipment_boxes h r c boxes b).
  - intros Hnone.
    destruct (box_missing_or_present population h) as [Hall|Hmiss].
    { destruct (custom_group_loop population h Hall h equipment_boxes)
        as (s' & Hrun & _); [apply frame_refl | congruence]. }
    destruct (some_box_or_none equipment_boxes) as [Hempty|Hsome]; [|auto].
    rewrite (custom_match_no_box population equipment_boxes (h, []) Hempty) in Hnone.
    discriminate.
  - intros [(r & Hr & Hnone) (c & boxes & b & Hin & Hb)].
    now apply (custom_match_raises population equipment_boxes (h, []) r c boxes b).
Qed.

(** ** The diagnostics *)

Section Warnings.

Variable population : list ref.
Variable h0 : store.
Hypothesis boxes_present :
  forall r, r ∈ population -> is_Some (Person.box (h0 r)).

Lemma hitsb_frame h r b : frame h0 h -> hitsb h r b = hitsb h0 r b.
Proof. intros Hf. unfold hitsb. destruct (Hf r) as (Hbox & _). now rewrite Hbox. Qed.

Lemma py_len_filter_snoc {A} (f : A -> bool) (l : list A) (x : A) :
  py_len (List.filter f (l ++ [x]))
  = (py_len (List.filter f l) + (if f x then 1 else 0))%Z.
Proof.
  unfold py_len. rewrite List.filter_app, length_app. simpl.
  destruct (f x); simpl; lia.
Qed.

(** The innermost loop counts the persons whose box intersects the box. *)
Lemma custom_person_loop_count (h : store) (group_name : string)
    (box : BoundingBox.t) :
  frame h0 h ->
  exists h',
    for_each population
      (fun person '(h, intersected_count) =>
         match Person.box (h person) with
         | Some person_box =>
             if if_boxes_intersect person_box box
             then Some (<[person := Person.add_equipment group_name (h person)]> h,
                        (intersected_count + 1)%Z)
             else Some (h, intersected_count)
         | None => None
         end)
      (h, 0%Z) = Some (h', intersected population h0 box)
    /\ frame h0 h'.
Proof.
  intros Hf.
  destruct (for_each_invariant
              (fun visited (s : store * Z) =>
                 frame h0 s.1
                 /\ s.2 = py_len (List.filter (fun r => hitsb h0 r box) visited))
              population
              (fun person '(h, intersected_count) =>
                 match Person.box (h person) with
                 | Some person_box =>
                     if if_boxes_intersect person_box box
                     then Some (<[person := Person.add_equipment group_name (h person)]> h,
                                (intersected_count + 1)%Z)
                     else Some (h, intersected_count)
                 | None => None
                 end)
              (h, 0%Z)) as ([h' count] & Hrun & Hf' & Hcount).
  - split; [assumption | reflexivity].
  - intros visited person [h1 count] [Hf1 Hcount] Hin. cbn [fst snd] in *.
    destruct (boxes_present person Hin) as [pb Hpb].
    pose proof (hitsb_frame h1 person box Hf1) as Hhit.
    unfold hitsb in Hhit at 1. destruct (Hf1 person) as (Hbox & _).
    rewrite Hbox, Hpb in *.
    rewrite py_len_filter_snoc, <- Hhit, <- Hcount.
    destruct (if_boxes_intersect pb box).
    + eexists. split; [reflexivity|]. cbn [fst snd].
      split; [|reflexivity]. apply (frame_trans h0 h1); [assumption|].
      apply frame_add.
    + eexists. split; [reflexivity|]. cbn [fst snd]. split; [assumption|lia].
  - cbn [fst snd] in *. exists h'. subst count. auto.
Qed.

(** The middle loop logs the boxes of the group that intersect more than
    one person. *)
Lemma custom_box_loop_warnings (h : store) (warnings : list (string * Z))
    (group_name : string) (group_boxes : list BoundingBox.t) :
  frame h0 h ->
  exists h',
    for_each group_boxes
      (fun box '(h, warnings) =>
         match
           for_each population
             (fun person '(h, intersected_count) =>
                match Person.box (h person) with
                | Some person_box =>
                    if if_boxes_intersect person_box box
                    then Some (<[person := Person.add_equipment group_name (h person)]> h,
                               (intersected_count + 1)%Z)
                    else Some (h, intersected_count)
                | None => None
                end)
             (h, 0%Z)
         with
         | Some (h, intersected_count) =>
             if (1 <? intersected_count)%Z
             then Some (h, warnings ++ [(group_name, intersected_count)])
             else Some (h, warnings)
         | None => None
         end)
      (h, warnings)
    = Some (h', warnings ++ expected_warnings population h0 [(group_name, group_boxes)])
    /\ frame h0 h'.
Proof.
  intros Hf.
  destruct (for_each_invariant
              (fun visited (s : store * list (string * Z)) =>
                 frame h0 s.1
                 /\ s.2 = warnings
                          ++ expected_warnings population h0 [(group_name, visited)])
              group_boxes
              (fun box '(h, warnings) =>
                 match
                   for_each population
                     (fun person '(h, intersected_count) =>
                        match Person.box (h person) with
                        | Some person_box =>
                            if if_boxes_intersect person_box box
                            then Some (<[person := Person.add_equipment group_name (h person)]> h,
                                       (intersected_count + 1)%Z)
                            else Some (h, intersected_count)
                        | None => None
                        end)
                     (h, 0%Z)
                 with
                 | Some (h, intersected_count) =>
                     if (1 <? intersected_count)%Z
                     then Some (h, warnings ++ [(group_name, intersected_count)])
                     else Some (h, warnings)
                 | None => None
                 end)
              (h, warnings)) as ([h' ws] & Hrun & Hf' & Hws).
  - split; [assumption|]. cbn. now rewrite app_nil_r.
  - intros visited box [h1 ws] [Hf1 Hws] Hin. cbn [fst snd] in *.
    destruct (custom_person_loop_count h1 group_name box Hf1) as (h2 & Hrun & Hf2).
    rewrite Hrun.
    assert (Hexp : expected_warnings population h0 [(group_name, visited ++ [box])]
                   = expected_warnings population h0 [(group_name, visited)]
                     ++ (if (1 <? intersected population h0 box)%Z
                         then [(group_name, intersected population h0 box)]
                         else [])).
    { unfold expected_warnings. cbn [flat_map fst snd]. rewrite !app_nil_r, omap_app.
      f_equal. cbn. now destruct (1 <? intersected population h0 box)%Z. }
    rewrite Hexp, app_assoc, <- Hws.
    destruct (1 <? intersected population h0 box)%Z.
    + eexists. split; [reflexivity|]. cbn [fst snd]. auto.
    + eexists. split; [reflexivity|]. cbn [fst snd]. now rewrite app_nil_r.
  - cbn [fst snd] in *. exists h'. subst ws. auto.
Qed.

(** The outer loop logs them group after group. *)
Lemma custom_group_loop_warnings
    (equipment_boxes : list (string * list BoundingBox.t)) :
  exists h',
    CustomLabels.match_equipment population equipment_boxes (h0, [])
    = Some (h', expected_warnings population h0 equipment_boxes)
    /\ frame h0 h'.
Proof.
  unfold CustomLabels.match_equipment.
  destruct (for_each_invariant
              (fun visited (s : store * list (string * Z)) =>
                 frame h0 s.1 /\ s.2 = expected_warnings population h0 visited)
              equipment_boxes
              (fun '(group_name, group_boxes) =>
                 for_each group_boxes
                   (fun box '(h, warnings) =>
                      match
                        for_each population
                          (fun person '(h, intersected_count) =>
                             match Person.box (h person) with
                             | Some person_box =>
                                 if if_boxes_intersect person_box box
                                 then Some (<[person := Person.add_equipment group_name (h person)]> h,
                                            (intersected_count + 1)%Z)
                                 else Some (h, intersected_count)
                             | None => None
                             end)
                          (h, 0%Z)
                      with
                      | Some (h, intersected_count) =>
                          if (1 <? intersected_count)%Z
                          then Some (h, warnings ++ [(group_name, intersected_count)])
                          else Some (h, warnings)
                      | None => None
                      end))
              (h0, [])) as ([h' ws] & Hrun & Hf' & Hws).
  - split; [apply frame_refl | reflexivity].
  - intros visited [group_name group_boxes] [h1 ws] [Hf1 Hws] Hin.
    cbn [fst snd] in *.
    destruct (custom_box_loop_warnings h1 ws group_name group_boxes Hf1)
      as (h2 & Hrun & Hf2).
    eexists. split; [exact Hrun|]. cbn [fst snd]. split; [assumption|].
    subst ws. unfold expected_warnings. now rewrite flat_map_app.
  - cbn [fst snd] in *. exists h'. subst ws. auto.
Qed.

End Warnings.

(** X8.  The general matching loop logs one warning for every box of the map
    that intersects more than one entry of the population, in the order of
    the map, carrying the group of the box and the number of persons it was
    given to; a box that intersects one person or none is not reported. *)
Theorem warnings_report_shared_boxes (population : list ref)
    (equipment_boxes : list (string * list BoundingBox.t)) (h : store) :
  (forall r, r ∈ population -> is_Some (Person.box (h r))) ->
  exists h',
    CustomLabels.match_equipment population equipment_boxes (h, [])
    = Some (h', expected_warnings population h equipment_boxes).
Proof.
  intros Hboxes.
  destruct (custom_group_loop_warnings population h Hboxes equipment_boxes)
    as (h' & Hrun & _).
  now exists h'.
Qed.

(** One helmet over two persons is reported once, with the count two; the
    boot of the first person is not reported. *)
Lemma warnings_report_shared_boxes_witness :
  let persons :=
    [Person.set_box (make_bounding_box (mkBoxData (1 # 2) (1 # 2) 0 0)) Person.new;
     Person.set_box (make_bounding_box (mkBoxData (1 # 2) (1 # 2) (1 # 4) 0)) Person.new] in
  let equipment_boxes :=
    [("helmet", [make_bounding_box (mkBoxData (1 # 10) (1 # 10) (3 # 10) 0)]);
     ("boot", [make_bounding_box (mkBoxData (1 # 10) (1 # 10) 0 (4 # 10))])] in
  (forall r, r ∈ refs_of persons -> is_Some (Person.box (store_of persons r)))
  /\ expected_warnings (refs_of persons) (store_of persons) equipment_boxes
     = [("helmet", 2%Z)]
  /\ exists h',
       CustomLabels.match_equipment (refs_of persons) equipment_boxes
         (store_of persons, [])
       = Some (h', expected_warnings (refs_of persons) (store_of persons)
                     equipment_boxes).
Proof.
  intros persons equipment_boxes.
  assert (Hboxes : forall r, r ∈ refs_of persons ->
                     is_Some (Person.box (store_of persons r))).
  { intros r Hr. apply elem_of_seq in Hr. simpl in Hr.
    destruct r as [|[|r]]; [eexists; reflexivity | eexists; reflexivity | lia]. }
  split; [exact Hboxes|]. split; [reflexivity|].
  exact (warnings_report_shared_boxes (refs_of persons) equipment_boxes
           (store_of persons) Hboxes).
Defined.

(** ** The index from categories to persons *)

Section Index.

Variable set_iter : gset string -> list string.
Hypothesis set_iter_enumerates : enumerates set_iter.

Local Abbreviation reading e2p c := (default [] (e2p !! c)) (only parsing).

(** Appending [person] under every key of a duplicate-free list of keys. *)
Lemma index_keys (person : ref) (keys : list string)
    (e2p : gmap string (list ref)) (c : string) :
  NoDup keys ->
  default []
    (for_in keys
       (fun key e2p =>
          let '(persons, e2p) := Stats.defaultdict_get e2p key in
          <[key := persons ++ [person]]> e2p)
       e2p !! c)
  = default [] (e2p !! c) ++ (if decide (c ∈ keys) then [person] else []).
Proof.
  revert e2p. induction keys as [|k keys IH]; intros e2p Hnd.
  - simpl. now rewrite app_nil_r.
  - apply NoDup_cons in Hnd as [Hk Hnd]. rewrite for_in_step, IH by assumption.
    pose proof (defaultdict_get_value e2p k) as Hv.
    pose proof (defaultdict_get_frame e2p k) as Hf.
    destruct (Stats.defaultdict_get e2p k) as [persons e2p1].
    cbn [fst snd] in Hv, Hf. subst persons.
    destruct (decide (c = k)) as [->|Hne].
    + rewrite lookup_insert_eq. cbn [default].
      rewrite decide_False by assumption.
      rewrite decide_True by (apply elem_of_cons; now left).
      now rewrite app_nil_r.
    + rewrite lookup_insert_ne by congruence. rewrite Hf.
      destruct (decide (c ∈ keys)) as [Hin|Hnin].
      * rewrite decide_True by (apply elem_of_cons; now right). reflexivity.
      * rewrite decide_False; [reflexivity|].
        intros Hc. apply elem_of_cons in Hc as [?|?]; contradiction.
Qed.

Lemma set_iter_NoDup (s : gset string) : NoDup (set_iter s).
Proof. rewrite (set_iter_enumerates s). apply NoDup_elements. Qed.

Lemma set_iter_elem (s : gset string) (c : string) : c ∈ set_iter s <-> c ∈ s.
Proof. rewrite (set_iter_enumerates s). apply elem_of_elements. Qed.

(** What one call of [_add_person] does to the index. *)
Lemma add_person_index (person : ref) (self : Stats.t) (h : store) (c : string) :
  default [] (Stats.equipment2person (Stats._add_person set_iter person (self, h)).1 !! c)
  = default [] (Stats.equipment2person self !! c)
    ++ (if decide (c ∈ Person.equipment (h person)) then [person] else []).
Proof.
  cbn [Stats._add_person fst Stats.equipment2person].
  rewrite index_keys by apply set_iter_NoDup.
  rewrite fn_lookup_insert. cbn [Person.set_ind Person.equipment].
  f_equal. destruct (decide (c ∈ Person.equipment (h person))) as [Hin|Hnin].
  - rewrite decide_True; [reflexivity | now apply set_iter_elem].
  - rewrite decide_False; [reflexivity | now rewrite set_iter_elem].
Qed.

(** What the constructor's loop does to the index. *)
Lemma add_all_index (l : list ref) (self : Stats.t) (h : store) (c : string) :
  default []
    (Stats.equipment2person
       (for_in l (Stats._add_person set_iter) (self, h)).1 !! c)
  = default [] (Stats.equipment2person self !! c)
    ++ filter (fun r => c ∈ Person.equipment (h r)) l.
Proof.
  revert self h. induction l as [|x l IH]; intros self h.
  - simpl. now rewrite app_nil_r.
  - rewrite for_in_step.
    pose proof (add_person_index x self h c) as Hx.
    pose proof (add_person_store set_iter x self h) as Hstore.
    destruct (Stats._add_person set_iter x (self, h)) as [self1 h1].
    cbn [fst snd] in Hx, Hstore. rewrite IH, Hx, <- app_assoc. f_equal.
    rewrite filter_cons.
    assert (Heq : forall r, Person.equipment (h1 r) = Person.equipment (h r)).
    { intros r. subst h1. destruct (decide (x = r)) as [->|Hne].
      - now rewrite fn_lookup_insert.
      - now rewrite fn_lookup_insert_ne. }
    rewrite (list_filter_iff (fun r => c ∈ Person.equipment (h1 r))
                             (fun r => c ∈ Person.equipment (h r)))
      by (intros r; now rewrite Heq).
    now destruct (decide (c ∈ Person.equipment (h x))).
Qed.

(** What the constructor leaves in the index. *)
Lemma init_index (population : list ref) (h : store) (c : string) :
  default [] (Stats.equipment2person (Stats.init set_iter population h).1 !! c)
  = filter (fun r => c ∈ Person.equipment (h r)) population.
Proof.
  unfold Stats.init. rewrite (add_all_index population (Stats.mk [] ∅) h c).
  cbn [Stats.equipment2person]. now rewrite lookup_empty.
Qed.

End Index.

(** X9.  In the [Stats] the constructor builds, the list under a category
    holds exactly the persons of the population whose equipment set contains
    the category, in population order and as often as they occur in the
    population; a category nobody wears has no persons. *)
Theorem index_lists_the_wearers (set_iter : gset string -> list string)
    (population : list ref) (h : store) (c : string) :
  enumerates set_iter ->
  let st := Stats.init set_iter population h in
  default [] (Stats.equipment2person st.1 !! c)
  = filter (fun r => c ∈ Person.equipment (st.2 r)) population.
Proof.
  intros Henum st. subst st. rewrite (init_index set_iter Henum).
  apply list_filter_iff. intros r. now rewrite init_equipment.
Qed.

Lemma index_lists_the_wearers_witness :
  let h : store :=
    fun r => if decide (r = 1) then Person.new
             else Person.add_equipment "boot" (Person.add_equipment "helmet" Person.new) in
  enumerates reversed_iter
  /\ default [] (Stats.equipment2person (Stats.init reversed_iter [0; 1; 2] h).1 !! "boot")
     = filter (fun r => "boot" ∈ Person.equipment ((Stats.init reversed_iter [0; 1; 2] h).2 r))
              [0; 1; 2].
Proof.
  intros h. split; [exact reversed_iter_enumerates|].
  exact (index_lists_the_wearers reversed_iter [0; 1; 2] h "boot"
           reversed_iter_enumerates).
Defined.

(** ** The response *)

Section ResponseFacts.

Variable set_iter : gset string -> list string.

(** Writing under a key the dictionary does not hold puts the entry at the
    end. *)
Lemma dict_set_fresh {V} (d : list (string * V)) (k : string) (v : V) :
  k ∉ map fst d -> dict_set d k v = d ++ [(k, v)].
Proof.
  induction d as [|[k' v'] d IH]; intros Hk; [reflexivity|].
  cbn [map fst] in Hk. apply not_elem_of_cons in Hk as [Hne Hk].
  cbn [dict_set]. destruct (String.eqb_spec k' k) as [->|_]; [contradiction|].
  now rewrite IH.
Qed.

(** The loop over the configured keys writes one entry per key, in the order
    of the configuration, and changes no reading of the index. *)
Lemma response_group_loop (h : store) (groups : list (string * list string))
    (d : list (string * list string)) (e2p : gmap string (list ref)) :
  NoDup (map fst groups) ->
  (forall k, k ∈ map fst groups -> k ∉ map fst d) ->
  (for_in groups
     (fun '(key, _) '(d, e2p) =>
        let '(persons, e2p) := Stats.defaultdict_get e2p key in
        (dict_set d key
           (map (fun person => py_str_opt (Person.ind (h person))) persons),
         e2p))
     (d, e2p)).1
  = d ++ map (fun entry =>
                (entry.1,
                 map (fun person => py_str_opt (Person.ind (h person)))
                     (default [] (e2p !! entry.1))))
             groups.
Proof.
  revert d e2p. induction groups as [|[g names] groups IH]; intros d e2p Hnd Hfresh.
  - simpl. now rewrite app_nil_r.
  - cbn [map fst] in Hnd, Hfresh. apply NoDup_cons in Hnd as [Hg Hnd].
    rewrite for_in_step.
    pose proof (defaultdict_get_value e2p g) as Hv.
    pose proof (defaultdict_get_frame e2p g) as Hf.
    destruct (Stats.defaultdict_get e2p g) as [persons e2p1].
    cbn [fst snd] in Hv, Hf. subst persons.
    rewrite dict_set_fresh by (apply Hfresh, elem_of_cons; now left).
    rewrite IH; [|assumption|].
    + rewrite <- app_assoc. cbn [map app fst]. do 2 f_equal.
      apply map_ext. intros entry. now rewrite Hf.
    + intros k Hk. rewrite map_app, elem_of_app. cbn [map fst].
      rewrite list_elem_of_singleton. intros [Hd| ->].
      * apply (Hfresh k); [apply elem_of_cons; now right | assumption].
      * contradiction.
Qed.

(** What [prepare_response] returns, for any [Stats]; it raises when the
    message does. *)
Lemma prepare_response_fields (header : string) (cfg : Config.t)
    (url : string) (self : Stats.t) (h : store) :
  NoDup (map fst (Config.TARGET_PPE_GROUP_KEYS cfg)) ->
  match Stats.prepare_response set_iter header cfg url self h with
  | Some (response, _) =>
      message_text set_iter header cfg self h = Some (Response.Message response)
      /\ Response.ImageUrl response = url
      /\ Response.PopulationSize response = Stats.population_size self
      /\ Response.UnequippedSize response = Stats.unequipped_size self h
      /\ Response.EquipmentPerPerson response
         = map (fun person =>
                  (Person.ind (h person), set_iter (Person.equipment (h person))))
               (Stats.population self)
      /\ Response.PersonsPerEquipment response
         = map (fun entry =>
                  (entry.1,
                   map (fun person => py_str_opt (Person.ind (h person)))
                       (default [] (Stats.equipment2person self !! entry.1))))
               (Config.TARGET_PPE_GROUP_KEYS cfg)
  | None => message_text set_iter header cfg self h = None
  end.
Proof.
  intros Hnd. unfold Stats.prepare_response.
  pose proof (prepare_message_text set_iter header cfg self h) as Hmessage.
  destruct (Stats.prepare_message set_iter header cfg self h)
    as [[message self1]|]; cbn [mbind option_bind]; [|exact Hmessage].
  destruct Hmessage as (Htext & Hpop & Hframe).
  pose proof (response_group_loop h (Config.TARGET_PPE_GROUP_KEYS cfg) []
                (Stats.equipment2person self1) Hnd) as Hloop.
  destruct (for_in (Config.TARGET_PPE_GROUP_KEYS cfg) _ _) as [d e2p].
  cbn [fst snd Response.Message Response.ImageUrl Response.PopulationSize
       Response.UnequippedSize Response.EquipmentPerPerson
       Response.PersonsPerEquipment] in *.
  unfold Stats.population_size, Stats.unequipped_size. rewrite Hpop.
  repeat split; try assumption.
  rewrite Hloop by (intros k _ Hk; now apply elem_of_nil in Hk).
  cbn [app]. apply map_ext. intros entry. now rewrite Hframe.
Qed.

End ResponseFacts.

(** X10.  For the [Stats] built from distinct persons, [prepare_response]
    raises exactly when [prepare_message] does, that is when the names of
    some equipped person hold a brace [format] does not accept; with no
    brace in any name it returns, and the message is the plain summary.
    What it returns carries the summary text and the presigned URL as
    given; [PopulationSize] is the number of persons and the length of
    [EquipmentPerPerson]; [UnequippedSize] counts the persons with no
    equipment; [EquipmentPerPerson] pairs every position with the names of
    that person's set; and [PersonsPerEquipment] has one entry for every
    configured group, in the order of the configuration and also when
    nobody wears the group, listing in population order the positions, as
    decimal strings, of the persons whose set contains the group.  The
    header is the literal text the message starts with, which holds no
    brace. *)
Theorem response_reports_the_statistics
    (set_iter : gset string -> list string) (header : string)
    (cfg : Config.t) (url : string) (population : list ref) (h : store) :
  enumerates set_iter -> brace_free header = true -> NoDup population ->
  NoDup (map fst (Config.TARGET_PPE_GROUP_KEYS cfg)) ->
  let st := Stats.init set_iter population h in
  let result := Stats.prepare_response set_iter header cfg url st.1 st.2 in
  (result = None
   <-> exists r,
         r ∈ population
         /\ Person.equipment (h r) <> ∅
         /\ format_rest (py_join ", " (set_iter (Person.equipment (h r)))) = None)
  /\ ((forall r name,
         r ∈ population -> name ∈ Person.equipment (h r) ->
         brace_free name = true) ->
      exists response self',
        result = Some (response, self')
        /\ Response.Message response = plain_text set_iter header cfg st.1 st.2)
  /\ (forall i r,
        population !! i = Some r ->
        py_str_opt (Person.ind (st.2 r)) = py_str (Z.of_nat i))
  /\ (forall response self',
        result = Some (response, self') ->
        Some (Response.Message response)
        = fst <$> Stats.prepare_message set_iter header cfg st.1 st.2
        /\ Response.ImageUrl response = url
        /\ Response.PopulationSize response = py_len population
        /\ py_len (Response.EquipmentPerPerson response) = py_len population
        /\ Response.UnequippedSize response
           = Z.of_nat (length (filter (fun r => Person.equipment (h r) = ∅)
                                      population))
        /\ Response.EquipmentPerPerson response
           = imap (fun i r =>
                     (Some (Z.of_nat i), set_iter (Person.equipment (h r))))
                  population
        /\ Response.PersonsPerEquipment response
           = map (fun entry =>
                    (entry.1,
                     map (fun r => py_str_opt (Person.ind (st.2 r)))
                         (filter (fun r => entry.1 ∈ Person.equipment (h r))
                                 population)))
                 (Config.TARGET_PPE_GROUP_KEYS cfg)).
Proof.
  intros Henum _ Hnd Hkeys st result.
  pose proof (prepare_response_fields set_iter header cfg url st.1 st.2 Hkeys)
    as Hfields.
  fold result in Hfields.
  assert (Hpop : Stats.population st.1 = population)
    by apply init_population.
  assert (Heq : forall r, Person.equipment (st.2 r) = Person.equipment (h r))
    by (intros r; apply init_equipment).
  assert (Hind : forall i r, population !! i = Some r ->
                   Person.ind (st.2 r) = Some (Z.of_nat i)).
  { intros i r Hi. subst st. unfold Stats.init.
    now rewrite (add_all_ind set_iter _ _ Hnd i r Hi). }
  assert (Hnone : result = None
                  <-> message_text set_iter header cfg st.1 st.2 = None).
  { destruct result as [[response self']|]; [|tauto].
    destruct Hfields as (Hmsg & _). rewrite Hmsg. split; discriminate. }
  split; [|split; [|split]].
  - rewrite Hnone, message_text_None, Hpop. unfold Stats.worn.
    split; intros (r & Hr & Hne & Hnames); exists r;
      rewrite Heq in *; auto.
  - intros Hfree.
    assert (Hplain : message_text set_iter header cfg st.1 st.2
                     = Some (plain_text set_iter header cfg st.1 st.2)).
    { apply message_text_plain; [assumption|].
      intros r name Hr Hname. rewrite Hpop in Hr. rewrite Heq in Hname.
      now apply (Hfree r name). }
    destruct result as [[response self']|].
    + destruct Hfields as (Hmsg & _). rewrite Hmsg in Hplain.
      injection Hplain as Hplain. now exists response, self'.
    + rewrite Hfields in Hplain. discriminate.
  - intros i r Hi. now rewrite (Hind i r Hi).
  - intros response self' Hresult. rewrite Hresult in Hfields.
    destruct Hfields as (Hmsg & Hurl & Hsize & Huneq & Hepp & Hppe).
    split.
    { pose proof (prepare_message_text set_iter header cfg st.1 st.2) as Hm.
      destruct (Stats.prepare_message set_iter header cfg st.1 st.2)
        as [[text self1]|].
      - destruct Hm as (Hm & _). cbn. congruence.
      - congruence. }
    split; [exact Hurl|].
    split; [rewrite Hsize; unfold Stats.population_size; now rewrite Hpop|].
    split; [rewrite Hepp, Hpop; unfold py_len; now rewrite length_map|].
    split.
    { rewrite Huneq, unequipped_size_count, Hpop. do 2 f_equal.
      apply list_filter_iff. intros r. now rewrite Heq. }
    split.
    { rewrite Hepp, Hpop.
      change (map ?f population) with (f <$> population).
      rewrite <- imap_const. apply imap_ext. intros i r Hi. cbn [const].
      now rewrite (Hind i r Hi), Heq. }
    rewrite Hppe. apply map_ext. intros entry. f_equal.
    subst st. now rewrite (init_index set_iter Henum population h).
Qed.

(** Two persons, the first with a boot: no name holds a brace, so the
    response is returned, with the plain summary as its message. *)
Lemma response_reports_the_statistics_witness :
  let h : store :=
    fun r => if decide (r = 0) then Person.add_equipment "boot" Person.new
             else Person.new in
  let st := Stats.init alphabetical_iter [0; 1] h in
  enumerates alphabetical_iter
  /\ brace_free ("Report: " +:+ LF) = true
  /\ NoDup [0; 1]
  /\ NoDup (map fst (Config.TARGET_PPE_GROUP_KEYS CustomLabels.config))
  /\ (forall r name,
        r ∈ [0; 1] -> name ∈ Person.equipment (h r) -> brace_free name = true)
  /\ exists response self',
       Stats.prepare_response alphabetical_iter ("Report: " +:+ LF)
         CustomLabels.config "https://example.org/image" st.1 st.2
       = Some (response, self')
       /\ Response.Message response
          = plain_text alphabetical_iter ("Report: " +:+ LF)
              CustomLabels.config st.1 st.2.
Proof.
  intros h st.
  assert (Hnd : NoDup [0; 1])
    by (apply (bool_decide_unpack (NoDup [0; 1])); exact I).
  assert (Hkeys : NoDup (map fst (Config.TARGET_PPE_GROUP_KEYS CustomLabels.config)))
    by (apply (bool_decide_unpack
                 (NoDup (map fst (Config.TARGET_PPE_GROUP_KEYS CustomLabels.config))));
        exact I).
  assert (Hfree : forall r name,
             r ∈ [0; 1] -> name ∈ Person.equipment (h r) ->
             brace_free name = true).
  { intros r name _ Hname. unfold h in Hname.
    destruct (decide (r = 0)); cbn in Hname.
    - apply elem_of_union in Hname as [Hname|Hname].
      + now apply elem_of_empty in Hname.
      + apply elem_of_singleton in Hname. now subst name.
    - now apply elem_of_empty in Hname. }
  split; [exact alphabetical_iter_enumerates|]. split; [reflexivity|].
  split; [exact Hnd|]. split; [exact Hkeys|]. split; [exact Hfree|].
  exact (proj1 (proj2 (response_reports_the_statistics
                         alphabetical_iter ("Report: " +:+ LF)
                         CustomLabels.config "https://example.org/image"
                         [0; 1] h alphabetical_iter_enumerates eq_refl Hnd Hkeys))
               Hfree).
Defined.

(** ** The equipment map the parsers build *)

Section Filing.

Context {V : Type}.

Lemma dict_get_append (d : list (string * list V)) (g k : string) (v : V) :
  dict_get (dict_append d g v) k
  = dict_get d k ++ (if String.eqb g k then [v] else []).
Proof.
  induction d as [|[k' vs] d IH]; cbn [dict_append dict_get].
  - destruct (String.eqb g k); reflexivity.
  - destruct (String.eqb_spec k' g) as [->|Hne]; cbn [dict_get].
    + destruct (String.eqb g k); [reflexivity | now rewrite app_nil_r].
    + destruct (String.eqb_spec k' k) as [->|Hne']; [|exact IH].
      destruct (String.eqb_spec g k) as [->|_]; [contradiction|].
      now rewrite app_nil_r.
Qed.

Lemma dict_append_keys (d : list (string * list V)) (g : string) (v : V) :
  map fst (dict_append d g v)
  = if decide (g ∈ map fst d) then map fst d else map fst d ++ [g].
Proof.
  induction d as [|[k' vs] d IH]; cbn [dict_append map fst]; [reflexivity|].
  destruct (String.eqb_spec k' g) as [->|Hne]; cbn [map fst].
  - rewrite decide_True by (apply elem_of_cons; now left). reflexivity.
  - rewrite IH. destruct (decide (g ∈ map fst d)) as [Hin|Hnin].
    + rewrite decide_True by (apply elem_of_cons; now right). reflexivity.
    + rewrite decide_False; [reflexivity|].
      intros Hc. apply elem_of_cons in Hc as [->|Hc]; contradiction.
Qed.

Lemma filed_nil : filed ([] : list (string * list V)).
Proof.
  split; [constructor|]. intros k. cbn. split; [|congruence].
  intros Hk. now apply elem_of_nil in Hk.
Qed.

(** Filing one more item keeps the dictionary well formed. *)
Lemma filed_append (d : list (string * list V)) (g : string) (v : V) :
  filed d -> filed (dict_append d g v).
Proof.
  intros [Hnd Hkeys]. split.
  - rewrite dict_append_keys. destruct (decide (g ∈ map fst d)); [assumption|].
    apply NoDup_app. repeat split; [assumption | | apply NoDup_singleton].
    intros k Hk Hg. apply list_elem_of_singleton in Hg as ->. contradiction.
  - intros k. rewrite dict_get_append, dict_append_keys.
    destruct (String.eqb_spec g k) as [->|Hne].
    + split; [intros _ Hnil; now apply app_eq_nil in Hnil as [_ ?]|].
      intros _. destruct (decide (k ∈ map fst d)); [assumption|].
      apply elem_of_app. right. now apply list_elem_of_singleton.
    + rewrite app_nil_r, <- Hkeys.
      destruct (decide (g ∈ map fst d)); [reflexivity|].
      rewrite elem_of_app, list_elem_of_singleton. split; [|auto].
      intros [?|?]; [assumption | congruence].
Qed.

End Filing.

Section GroupLoop.

(** The loop over the configuration that both general parsers and the
    custom parser run for one item whose name, as compared, is [key] and
    which offers the boxes [offered]: every entry whose names hold the key
    files the boxes under its group. *)
Variable key : string.

Lemma file_all (group : string) (offered : list BoundingBox.t)
    (d : list (string * list BoundingBox.t)) :
  let d' := for_in offered (fun box d => dict_append d group box) d in
  (forall k, dict_get d' k
             = dict_get d k ++ (if String.eqb group k then offered else []))
  /\ (filed d -> filed d').
Proof.
  revert d. induction offered as [|box offered IH]; intros d; cbn zeta.
  - split; [|auto]. intros k. simpl.
    destruct (String.eqb group k); now rewrite app_nil_r.
  - rewrite for_in_step. destruct (IH (dict_append d group box)) as [Hget Hfiled].
    split.
    + intros k. rewrite Hget, dict_get_append, <- app_assoc.
      now destruct (String.eqb group k).
    + intros Hd. now apply Hfiled, filed_append.
Qed.

Lemma file_groups (groups : list (string * list string))
    (offered : list BoundingBox.t) (d : list (string * list BoundingBox.t)) :
  let d' :=
    for_in groups
      (fun '(group, names) d =>
         if negb (py_in key names) then d
         else for_in offered (fun box d => dict_append d group box) d)
      d in
  (forall k, dict_get d' k
             = dict_get d k
               ++ flat_map (fun entry =>
                              if String.eqb entry.1 k && py_in key entry.2
                              then offered else [])
                           groups)
  /\ (filed d -> filed d').
Proof.
  revert d. induction groups as [|[group names] groups IH]; intros d; cbn zeta.
  - split; [|auto]. intros k. simpl. now rewrite app_nil_r.
  - rewrite for_in_step. cbn [flat_map fst snd].
    destruct (py_in key names); cbn [negb andb].
    + destruct (file_all group offered d) as [Hget Hfiled].
      destruct (IH (for_in offered (fun box d => dict_append d group box) d))
        as [Hget' Hfiled'].
      split.
      * intros k. rewrite Hget', Hget, <- app_assoc. f_equal.
        now rewrite andb_true_r.
      * auto.
    + destruct (IH d) as [Hget' Hfiled']. split; [|assumption].
      intros k. rewrite Hget'. now rewrite andb_false_r.
Qed.

End GroupLoop.

Section ParsersFile.

Variable cfg : Config.t.

Local Abbreviation groups := (Config.TARGET_PPE_GROUP_KEYS cfg).

Lemma flat_map_nothing {A B} (f : A -> bool) (l : list A) :
  flat_map (fun x => if f x then ([] : list B) else []) l = [].
Proof. induction l as [|x l IH]; [reflexivity|]. simpl. now destruct (f x). Qed.

(** The instance loops file the boxes of the accepted instances. *)
Lemma file_instances_with_box (group : string) (instances : list LabelInstance.t)
    (d : list (string * list BoundingBox.t)) :
  for_in instances
    (fun entry equipment_boxes =>
       match LabelInstance.BoundingBox entry with
       | Some box_data =>
           dict_append equipment_boxes group (make_bounding_box box_data)
       | None => equipment_boxes
       end) d
  = for_in (omap box_with_box instances) (fun box d => dict_append d group box) d.
Proof.
  revert d. induction instances as [|entry instances IH]; intros d; [reflexivity|].
  rewrite for_in_step, IH. cbn [omap list_omap]. unfold box_with_box at 2.
  now destruct (LabelInstance.BoundingBox entry).
Qed.

Lemma file_instances_with_both (group : string) (instances : list LabelInstance.t)
    (d : list (string * list BoundingBox.t)) :
  for_in instances
    (fun entry equipment_boxes =>
       match LabelInstance.BoundingBox entry, LabelInstance.Confidence entry with
       | Some box_data, Some _ =>
           dict_append equipment_boxes group (make_bounding_box box_data)
       | _, _ => equipment_boxes
       end) d
  = for_in (omap box_with_both instances) (fun box d => dict_append d group box) d.
Proof.
  revert d. induction instances as [|entry instances IH]; intros d; [reflexivity|].
  rewrite for_in_step, IH. cbn [omap list_omap]. unfold box_with_both at 2.
  now destruct (LabelInstance.BoundingBox entry), (LabelInstance.Confidence entry).
Qed.

(** The loop over the items of an answer, given what one item does. *)
Lemma file_items {L S} (name : L -> string) (offers : L -> list BoundingBox.t)
    (project : S -> list (string * list BoundingBox.t))
    (body : L -> S -> S) (items : list L) (s : S) :
  (forall item s,
     (forall k, dict_get (project (body item s)) k
                = dict_get (project s) k
                  ++ flat_map (fun entry =>
                                 if String.eqb entry.1 k && py_in (name item) entry.2
                                 then offers item else [])
                              groups)
     /\ (filed (project s) -> filed (project (body item s)))) ->
  (forall k, dict_get (project (for_in items body s)) k
             = dict_get (project s) k ++ filed_under name offers groups k items)
  /\ (filed (project s) -> filed (project (for_in items body s))).
Proof.
  intros Hbody. revert s. induction items as [|item items IH]; intros s.
  - split; [|auto]. intros k. simpl. now rewrite app_nil_r.
  - rewrite for_in_step. destruct (IH (body item s)) as [Hget Hfiled].
    destruct (Hbody item s) as [Hget1 Hfiled1]. split; [|auto].
    intros k. rewrite Hget, Hget1, <- app_assoc. reflexivity.
Qed.

Lemma general_map :
  let result := CustomLabels.parse_general_objects cfg in
  forall labels,
    (forall k, dict_get (result labels).2 k
               = filed_under (fun label => lower (Label.Name label))
                   (label_offers
                      (fun name => py_in (lower name) (Config.PERSON_KEYS cfg))
                      box_with_box)
                   groups k labels)
    /\ filed (result labels).2.
Proof.
  intros result labels. subst result. unfold CustomLabels.parse_general_objects.
  match goal with |- context [for_in labels ?b _] => set (body := b) end.
  destruct (file_items (fun label => lower (Label.Name label))
              (label_offers
                 (fun name => py_in (lower name) (Config.PERSON_KEYS cfg))
                 box_with_box)
              snd body labels ([], [])) as [Hget Hfiled].
  - intros label [population d]. unfold body, label_offers, instances_of.
    destruct (Label.Instances label) as [instances|]; cbn [default snd].
    + destruct (py_in (lower (Label.Name label)) (Config.PERSON_KEYS cfg));
        cbn [snd].
      * split; [|auto]. intros k.
        rewrite (flat_map_nothing
                   (fun entry => String.eqb entry.1 k
                                 && py_in (lower (Label.Name label)) entry.2)).
        now rewrite app_nil_r.
      * rewrite (for_in_ext _
                   (fun '(group, names) d =>
                      if negb (py_in (lower (Label.Name label)) names) then d
                      else for_in (omap box_with_box instances)
                             (fun box d => dict_append d group box) d)).
        { apply file_groups. }
        intros [group names] d0. destruct (negb _); [reflexivity|].
        apply file_instances_with_box.
    + split; [|auto]. intros k. cbn [omap list_omap].
      destruct (py_in (lower (Label.Name label)) (Config.PERSON_KEYS cfg));
        rewrite (flat_map_nothing
                   (fun entry => String.eqb entry.1 k
                                 && py_in (lower (Label.Name label)) entry.2));
        now rewrite app_nil_r.
  - split; [exact Hget | apply Hfiled, filed_nil].
Qed.

Lemma pretrained_map :
  let result := PreTrained.parse_objects cfg in
  forall labels,
    (forall k, dict_get (result labels).2 k
               = filed_under Label.Name
                   (label_offers
                      (fun name => py_in name (Config.PERSON_KEYS cfg))
                      box_with_both)
                   groups k labels)
    /\ filed (result labels).2.
Proof.
  intros result labels. subst result. unfold PreTrained.parse_objects.
  match goal with |- context [for_in labels ?b _] => set (body := b) end.
  destruct (file_items Label.Name
              (label_offers
                 (fun name => py_in name (Config.PERSON_KEYS cfg))
                 box_with_both)
              snd body labels ([], [])) as [Hget Hfiled].
  - intros label [population d]. unfold body, label_offers, instances_of.
    destruct (Label.Instances label) as [instances|]; cbn [default snd].
    + destruct (py_in (Label.Name label) (Config.PERSON_KEYS cfg)); cbn [snd].
      * split; [|auto]. intros k.
        rewrite (flat_map_nothing
                   (fun entry => String.eqb entry.1 k
                                 && py_in (Label.Name label) entry.2)).
        now rewrite app_nil_r.
      * rewrite (for_in_ext _
                   (fun '(group, names) d =>
                      if negb (py_in (Label.Name label) names) then d
                      else for_in (omap box_with_both instances)
                             (fun box d => dict_append d group box) d)).
        { apply file_groups. }
        intros [group names] d0. destruct (negb _); [reflexivity|].
        apply file_instances_with_both.
    + split; [|auto]. intros k. cbn [omap list_omap].
      destruct (py_in (Label.Name label) (Config.PERSON_KEYS cfg));
        rewrite (flat_map_nothing
                   (fun entry => String.eqb entry.1 k
                                 && py_in (Label.Name label) entry.2));
        now rewrite app_nil_r.
  - split; [exact Hget | apply Hfiled, filed_nil].
Qed.

Lemma custom_map (customs : list CustomLabel.t)
    (equipment_boxes : list (string * list BoundingBox.t)) :
  let result := CustomLabels.parse_custom_objects cfg customs equipment_boxes in
  (forall k, dict_get result k
             = dict_get equipment_boxes k
               ++ filed_under (fun entry => lower (CustomLabel.Name entry))
                    custom_offers groups k customs)
  /\ (filed equipment_boxes -> filed result).
Proof.
  cbn zeta. unfold CustomLabels.parse_custom_objects.
  apply (file_items (fun entry => lower (CustomLabel.Name entry)) custom_offers
           (fun d => d)).
  intros entry d.
  rewrite (for_in_ext _
             (fun '(group, names) d =>
                if negb (py_in (lower (CustomLabel.Name entry)) names) then d
                else for_in (custom_offers entry)
                       (fun box d => dict_append d group box) d)).
  { apply file_groups. }
  intros [group names] d0. destruct (negb _); [reflexivity|].
  unfold custom_offers. now destruct (CustomLabel.Geometry entry) as [[bd|]|].
Qed.

End ParsersFile.

Lemma filed_under_foreign {L} (name : L -> string)
    (offers : L -> list BoundingBox.t) (groups : list (string * list string))
    (k : string) (items : list L) :
  k ∉ map fst groups -> filed_under name offers groups k items = [].
Proof.
  intros Hk. unfold filed_under.
  induction items as [|item items IH]; [reflexivity|].
  cbn [flat_map]. rewrite IH, app_nil_r. clear IH.
  induction groups as [|[g names] groups IH]; [reflexivity|].
  cbn [map fst] in Hk. apply not_elem_of_cons in Hk as [Hne Hk].
  cbn [flat_map fst snd]. destruct (String.eqb_spec g k) as [->|_]; [contradiction|].
  now apply IH.
Qed.

Lemma filed_keys_configured {L} (name : L -> string)
    (offers : L -> list BoundingBox.t) (groups : list (string * list string))
    (items : list L) (d : list (string * list BoundingBox.t)) :
  (forall k, dict_get d k = filed_under name offers groups k items) ->
  filed d ->
  forall k, k ∈ map fst d -> k ∈ map fst groups.
Proof.
  intros Hget [_ Hkeys] k Hk. apply Hkeys in Hk. rewrite Hget in Hk.
  destruct (decide (k ∈ map fst groups)) as [Hin|Hnin]; [assumption|].
  now rewrite filed_under_foreign in Hk.
Qed.

(** X11.  The equipment map of either general parser holds, under every
    group, the boxes of the accepted instances of the labels whose name is
    one of the group's names and not a person name, in the order of the
    answer ([parse_objects] compares names as they are and accepts the
    instances with a bounding box and a confidence, [parse_general_objects]
    compares them in lower case and accepts the instances with a bounding
    box).  No key occurs twice, a key is present exactly when a box was filed
    under it, and every key is a group of the configuration: a label that
    matches no name files nothing. *)
Theorem parsers_file_boxes_by_group (cfg : Config.t) (labels : list Label.t) :
  let general := (CustomLabels.parse_general_objects cfg labels).2 in
  let pretrained := (PreTrained.parse_objects cfg labels).2 in
  let groups := Config.TARGET_PPE_GROUP_KEYS cfg in
  (forall k, dict_get general k
             = filed_under (fun label => lower (Label.Name label))
                 (label_offers
                    (fun name => py_in (lower name) (Config.PERSON_KEYS cfg))
                    box_with_box)
                 groups k labels)
  /\ (forall k, dict_get pretrained k
                = filed_under Label.Name
                    (label_offers
                       (fun name => py_in name (Config.PERSON_KEYS cfg))
                       box_with_both)
                    groups k labels)
  /\ filed general /\ filed pretrained
  /\ (forall k, k ∈ map fst general -> k ∈ map fst groups)
  /\ (forall k, k ∈ map fst pretrained -> k ∈ map fst groups).
Proof.
  cbn zeta.
  destruct (general_map cfg labels) as [Hg Hgf].
  destruct (pretrained_map cfg labels) as [Hp Hpf].
  split; [exact Hg|]. split; [exact Hp|]. split; [exact Hgf|].
  split; [exact Hpf|]. split.
  - exact (filed_keys_configured _ _ _ _ _ Hg Hgf).
  - exact (filed_keys_configured _ _ _ _ _ Hp Hpf).
Qed.

(** X12.  [parse_custom_objects] only adds to the map it is given: under
    every group the boxes already filed stay, in order, and the boxes of the
    custom entries whose lower-cased name is one of the group's names and
    which carry a geometry with a bounding box follow them; an entry without
    geometry or without bounding box, or with an unknown name, adds nothing;
    a well-formed map stays well formed. *)
Theorem custom_parser_appends (cfg : Config.t) (customs : list CustomLabel.t)
    (equipment_boxes : list (string * list BoundingBox.t)) :
  let result := CustomLabels.parse_custom_objects cfg customs equipment_boxes in
  (forall k, dict_get result k
             = dict_get equipment_boxes k
               ++ filed_under (fun entry => lower (CustomLabel.Name entry))
                    custom_offers (Config.TARGET_PPE_GROUP_KEYS cfg) k customs)
  /\ (filed equipment_boxes -> filed result)
  /\ (forall k, k ∉ map fst (Config.TARGET_PPE_GROUP_KEYS cfg) ->
        dict_get result k = dict_get equipment_boxes k).
Proof.
  cbn zeta. destruct (custom_map cfg customs equipment_boxes) as [Hget Hfiled].
  split; [exact Hget|]. split; [exact Hfiled|].
  intros k Hk. now rewrite Hget, filed_under_foreign, app_nil_r.
Qed.

Lemma wears_key equipment_boxes h r c :
  wears equipment_boxes h r c -> c ∈ map fst equipment_boxes.
Proof.
  intros (boxes & b & Hin & _). apply list_elem_of_fmap. now exists (c, boxes).
Qed.

Lemma final_map_keys_configured (cfg : Config.t) (labels : list Label.t)
    (customs : list CustomLabel.t) (k : string) :
  k ∈ map fst (CustomLabels.parse_custom_objects cfg customs
                 (CustomLabels.parse_general_objects cfg labels).2) ->
  k ∈ map fst (Config.TARGET_PPE_GROUP_KEYS cfg).
Proof.
  destruct (general_map cfg labels) as [Hg Hgf].
  destruct (custom_map cfg customs (CustomLabels.parse_general_objects cfg labels).2)
    as [Hc Hcf].
  intros Hk. apply (proj2 (Hcf Hgf)) in Hk. rewrite Hc, Hg in Hk.
  destruct (decide (k ∈ map fst (Config.TARGET_PPE_GROUP_KEYS cfg)));
    [assumption|].
  now rewrite !filed_under_foreign in Hk.
Qed.

(** X13.  [build_stats] returns for every answer of the detectors, and in
    the statistics it builds every category a person wears is a group of the
    configuration the parsers were given.  Under the configuration
    [lambda_handler] leaves after removing the groups whose custom model is
    not turned on, nobody ever wears a vest, whatever was detected. *)
Theorem persons_wear_configured_groups_only
    (set_iter : gset string -> list string) (cfg : Config.t)
    (labels : list Label.t) (customs : list CustomLabel.t) :
  (exists st warnings,
     CustomLabels.build_stats set_iter cfg labels customs = Some (st, warnings)
     /\ forall r c,
          r ∈ Stats.population st.1 -> c ∈ Person.equipment (st.2 r) ->
          c ∈ map fst (Config.TARGET_PPE_GROUP_KEYS cfg))
  /\ (exists st,
        PreTrained.build_stats set_iter cfg labels = Some st
        /\ forall r c,
             r ∈ Stats.population st.1 -> c ∈ Person.equipment (st.2 r) ->
             c ∈ map fst (Config.TARGET_PPE_GROUP_KEYS cfg))
  /\ (exists st warnings,
        CustomLabels.build_stats set_iter CustomLabels.config labels customs
        = Some (st, warnings)
        /\ forall r, r ∈ Stats.population st.1 ->
                     "vest" ∉ Person.equipment (st.2 r)).
Proof.
  assert (Hcustom : forall cfg0,
            exists st warnings,
              CustomLabels.build_stats set_iter cfg0 labels customs
              = Some (st, warnings)
              /\ forall r c,
                   r ∈ Stats.population st.1 -> c ∈ Person.equipment (st.2 r) ->
                   c ∈ map fst (Config.TARGET_PPE_GROUP_KEYS cfg0)).
  { intros cfg0.
    destruct (custom_build_stats_returns set_iter cfg0 labels customs)
      as (st & warnings & Hrun & Hpop & _ & Hworn).
    exists st, warnings. split; [exact Hrun|].
    intros r c Hr Hc. rewrite Hpop in Hr. apply (Hworn r Hr) in Hc.
    apply wears_key in Hc. now apply final_map_keys_configured in Hc. }
  split; [apply Hcustom|]. split.
  - destruct (pretrained_build_stats_returns set_iter cfg labels)
      as (st & Hrun & Hpop & _ & Hworn).
    exists st. split; [exact Hrun|].
    intros r c Hr Hc. rewrite Hpop in Hr. apply (Hworn r Hr) in Hc.
    apply wears_key in Hc.
    destruct (pretrained_map cfg labels) as [Hp Hpf].
    exact (filed_keys_configured _ _ _ _ _ Hp Hpf c Hc).
  - destruct (Hcustom CustomLabels.config) as (st & warnings & Hrun & Hkeys).
    exists st, warnings. split; [exact Hrun|].
    intros r Hr Hvest. specialize (Hkeys r "vest" Hr Hvest).
    vm_compute in Hkeys. apply list_elem_of_In in Hkeys. simpl in Hkeys.
    intuition discriminate.
Qed.

(** ** The two metrics *)

Lemma hitsb_hits h r b : hitsb h r b = true <-> hits h r b.
Proof.
  unfold hitsb, hits. destruct (Person.box (h r)) as [pb|].
  - split; [intros Hi; now exists pb|]. now intros (pb' & [= <-] & Hi).
  - split; [discriminate|]. now intros (pb' & [=] & _).
Qed.

Lemma overlaps_some_wears equipment_boxes h r :
  overlaps_some equipment_boxes h r = true
  <-> exists c, wears equipment_boxes h r c.
Proof.
  unfold overlaps_some, wears. rewrite existsb_exists. split.
  - intros ([c boxes] & Hin & Hex). apply existsb_exists in Hex as (b & Hb & Hhit).
    exists c, boxes, b. rewrite !list_elem_of_In. now rewrite <- hitsb_hits.
  - intros (c & boxes & b & Hin & Hb & Hhit). exists (c, boxes).
    rewrite <- list_elem_of_In. split; [assumption|].
    apply existsb_exists. exists b. rewrite <- list_elem_of_In, hitsb_hits. auto.
Qed.

Lemma length_filter_bool {A} (P : A -> Prop) `{!forall x, Decision (P x)}
    (f : A -> bool) (l : list A) :
  (forall x, x ∈ l -> (P x <-> f x = true)) ->
  length (filter P l) = length (List.filter f l).
Proof.
  induction l as [|x l IH]; intros Hagree; [reflexivity|].
  rewrite filter_cons. cbn [List.filter].
  assert (Hx : P x <-> f x = true) by (apply Hagree, elem_of_cons; now left).
  assert (Hl : length (filter P l) = length (List.filter f l))
    by (apply IH; intros y Hy; apply Hagree, elem_of_cons; now right).
  destruct (decide (P x)) as [HP|HP], (f x) eqn:Hf; simpl; try congruence.
  - apply Hx in HP. discriminate.
  - exfalso. apply HP, Hx. reflexivity.
Qed.

(** The equipped count of statistics whose persons wear what they
    intersect. *)
Lemma equipped_size_overlaps (persons : list Person.t)
    (equipment_boxes : list (string * list BoundingBox.t)) (st : Stats.t * store) :
  Stats.population st.1 = refs_of persons ->
  (forall r, r ∈ refs_of persons ->
     forall c, c ∈ Person.equipment (st.2 r)
               <-> wears equipment_boxes (store_of persons) r c) ->
  Stats.equipped_size st.1 st.2
  = py_len (List.filter (overlaps_some equipment_boxes (store_of persons))
                        (refs_of persons))
  /\ Stats.population_size st.1 = py_len persons.
Proof.
  intros Hpop Hworn. split.
  - rewrite equipped_size_count, Hpop. unfold py_len. f_equal.
    apply length_filter_bool. intros r Hr.
    rewrite overlaps_some_wears. split.
    + intros Hne. apply set_choose_L in Hne as [c Hc]. exists c.
      now apply (Hworn r Hr).
    + intros [c Hc] Hempty. apply (Hworn r Hr) in Hc. rewrite Hempty in Hc.
      now apply elem_of_empty in Hc.
  - unfold Stats.population_size, py_len, refs_of in *.
    now rewrite Hpop, length_seq.
Qed.

Lemma overlaps_nothing (h : store) (l : list ref) :
  py_len (List.filter (overlaps_some [] h) l) = 0%Z.
Proof.
  induction l as [|r l IH]; [reflexivity | exact IH].
Qed.

(** X14.  The metrics [lambda_handler] pushes: for every answer of the
    detectors the population count is the number of accepted person
    instances, the equipped count is the number of persons whose box
    intersects at least one box of the equipment map, and the unequipped
    count is the rest; when the map holds no box nobody is equipped. *)
Theorem metrics_count_the_persons_with_equipment
    (set_iter : gset string -> list string) (cfg : Config.t)
    (labels : list Label.t) (customs : list CustomLabel.t) :
  let parsed := CustomLabels.parse_general_objects cfg labels in
  let equipment_boxes := CustomLabels.parse_custom_objects cfg customs parsed.2 in
  let equipped :=
    py_len (List.filter (overlaps_some equipment_boxes (store_of parsed.1))
                        (refs_of parsed.1)) in
  exists st warnings,
    CustomLabels.build_stats set_iter cfg labels customs = Some (st, warnings)
    /\ Stats.population_size st.1 = py_len parsed.1
    /\ Stats.equipped_size st.1 st.2 = equipped
    /\ Stats.unequipped_size st.1 st.2 = (py_len parsed.1 - equipped)%Z
    /\ (equipment_boxes = [] ->
        Stats.equipped_size st.1 st.2 = 0%Z
        /\ Stats.unequipped_size st.1 st.2 = py_len parsed.1).
Proof.
  intros parsed equipment_boxes equipped.
  destruct (custom_build_stats_returns set_iter cfg labels customs)
    as (st & warnings & Hrun & Hpop & _ & Hworn).
  fold parsed in Hpop, Hworn. fold equipment_boxes in Hworn.
  destruct (equipped_size_overlaps parsed.1 equipment_boxes st Hpop Hworn)
    as [Heq Hsize].
  fold equipped in Heq.
  assert (Huneq : Stats.unequipped_size st.1 st.2 = (py_len parsed.1 - equipped)%Z).
  { unfold Stats.equipped_size in Heq. lia. }
  exists st, warnings. split; [exact Hrun|]. split; [exact Hsize|].
  split; [exact Heq|]. split; [exact Huneq|].
  intros Hnone. subst equipped. rewrite Hnone in *.
  assert (Hzero : py_len (List.filter (overlaps_some [] (store_of parsed.1))
                            (refs_of parsed.1)) = 0%Z).
  { apply overlaps_nothing. }
  rewrite Hzero in *. split; [assumption | lia].
Qed.

(** ** The vest matcher keeps order and leaves no pair behind *)

Section VestLeftovers.

Import VestOnly.

(** A vest that finds nobody overlaps none of the candidates. *)
Lemma first_overlap_None vest candidates :
  first_overlap vest candidates = None ->
  Forall (fun q => overlaps vest q = false) candidates.
Proof.
  induction candidates as [|q candidates IH]; [constructor|].
  rewrite first_overlap_cons. destruct (overlaps vest q) eqn:Hq; [discriminate|].
  destruct (first_overlap vest candidates) as [[found rest]|]; [discriminate|].
  intros _. constructor; auto.
Qed.

Lemma Forall_sublist {A} (P : A -> Prop) (l k : list A) :
  l `sublist_of` k -> Forall P k -> Forall P l.
Proof.
  induction 1 as [|x l k _ IH|x l k _ IH]; intros Hk.
  - constructor.
  - apply Forall_cons in Hk as [Hx Hk]. constructor; auto.
  - apply Forall_cons in Hk as [_ Hk]. auto.
Qed.

(** What the greedy matching leaves over, in the order of the inputs. *)
Lemma greedy_matching_leftovers (candidates vestsList : list Detection) :
  let '(pairs, unmatched, spare) := greedy_matching candidates vestsList in
  unmatched `sublist_of` candidates
  /\ spare `sublist_of` vestsList
  /\ map Vest pairs `sublist_of` vestsList
  /\ Forall (fun vest => Forall (fun person => overlaps vest person = false)
                                unmatched) spare.
Proof.
  revert candidates. induction vestsList as [|vest vestsList IH]; intros candidates.
  - cbn [greedy_matching map]. split; [reflexivity|].
    split; [reflexivity|]. split; [reflexivity | constructor].
  - cbn [greedy_matching].
    destruct (first_overlap vest candidates) as [[person rest]|] eqn:Hfirst.
    + specialize (IH rest).
      destruct (greedy_matching rest vestsList) as [[pairs unmatched] spare].
      destruct IH as (Hu & Hs & Hp & Hnone).
      apply first_overlap_Some in Hfirst as (before & after & -> & -> & _ & _).
      split; [|split; [|split]].
      * etransitivity; [exact Hu|].
        apply sublist_app; [reflexivity | now apply sublist_cons].
      * now apply sublist_cons.
      * cbn [map Vest]. now apply sublist_skip.
      * exact Hnone.
    + specialize (IH candidates).
      destruct (greedy_matching candidates vestsList) as [[pairs unmatched] spare].
      destruct IH as (Hu & Hs & Hp & Hnone).
      split; [|split; [|split]].
      * exact Hu.
      * now apply sublist_skip.
      * now apply sublist_cons.
      * constructor; [|exact Hnone].
        apply first_overlap_None in Hfirst.
        exact (Forall_sublist _ _ _ Hu Hfirst).
Qed.

End VestLeftovers.

(** X15.  [matchPersonsAndVests] keeps the order of its inputs and leaves
    no pair behind: the persons it returns unmatched are the input persons
    with some left out, in the same order; likewise the spare vests; the
    pairs are listed in the order of their vests; and no spare vest
    overlaps any unmatched person. *)
Theorem matchPersonsAndVests_leaves_no_pair_behind
    (personsList vestsList : list VestOnly.Detection) :
  exists pairs unmatched spare,
    VestOnly.matchPersonsAndVests personsList vestsList
    = Some (pairs, unmatched, spare)
    /\ unmatched `sublist_of` personsList
    /\ spare `sublist_of` vestsList
    /\ map VestOnly.Vest pairs `sublist_of` vestsList
    /\ forall vest person, vest ∈ spare -> person ∈ unmatched ->
         VestOnly.overlaps vest person = false.
Proof.
  pose proof (matchPersonsAndVests_greedy personsList vestsList) as Hrun.
  pose proof (greedy_matching_leftovers personsList vestsList) as Hleft.
  destruct (VestOnly.greedy_matching personsList vestsList)
    as [[pairs unmatched] spare].
  destruct Hleft as (Hu & Hs & Hp & Hnone).
  exists pairs, unmatched, spare. repeat (split; [assumption|]).
  intros vest person Hvest Hperson.
  rewrite Forall_forall in Hnone. specialize (Hnone vest Hvest).
  rewrite Forall_forall in Hnone. now apply Hnone.
Qed.

(** ** Reading the detector's answer in [lambda_function.py] *)

Section VestInput.

Import VestOnlyInput.

Variables (float_mul float_add : Q -> Q -> Q) (imageWidth imageHeight : Q).

Local Abbreviation entry := (entry_of float_mul float_add imageWidth imageHeight).

Lemma mapM_append {A B} (f : A -> option B) (l1 l2 : list A) :
  mapM f (l1 ++ l2)
  = k1 ← mapM f l1; k2 ← mapM f l2; Some (k1 ++ k2).
Proof.
  induction l1 as [|x l1 IH]; cbn [app mapM].
  - cbn. now destruct (mapM f l2).
  - cbn. destruct (f x); cbn; [|reflexivity]. rewrite IH.
    destruct (mapM f l1); cbn; [|reflexivity]. now destruct (mapM f l2).
Qed.

(** The loop over the instances of one label. *)
Lemma entries_loop (instances : list LabelInstance.t)
    (found : list VestOnly.Detection) :
  for_each instances
    (fun instance found => e ← entry instance; Some (found ++ [e])) found
  = entries ← mapM entry instances; Some (found ++ entries).
Proof.
  revert found. induction instances as [|instance instances IH]; intros found.
  - cbn. now rewrite app_nil_r.
  - cbn [for_each mapM]. cbn. destruct (entry instance) as [e|]; cbn; [|reflexivity].
    rewrite IH. destruct (mapM entry instances); cbn; [|reflexivity].
    now rewrite <- app_assoc.
Qed.

Lemma instances_named_cons name label labels :
  instances_named name (label :: labels)
  = (if bool_decide (Label.Name label = name) then instances_of label else [])
    ++ instances_named name labels.
Proof. reflexivity. Qed.

(** The loop over the labels, from any two lists. *)
Lemma labels_loop (labels : list Label.t)
    (persons vests : list VestOnly.Detection) :
  for_each labels
    (fun label '(persons, vests) =>
       match bool_decide (Label.Name label = "Person"), Label.Instances label with
       | true, Some instances =>
           persons' ← for_each instances
                        (fun person persons =>
                           e ← entry person; Some (persons ++ [e]))
                        persons;
           Some (persons', vests)
       | _, _ =>
           match bool_decide (Label.Name label = "Vest"), Label.Instances label with
           | true, Some instances =>
               vests' ← for_each instances
                          (fun vest vests =>
                             e ← entry vest; Some (vests ++ [e]))
                          vests;
               Some (persons, vests')
           | _, _ => Some (persons, vests)
           end
       end)
    (persons, vests)
  = match mapM entry (instances_named "Person" labels),
          mapM entry (instances_named "Vest" labels) with
    | Some ps, Some vs => Some (persons ++ ps, vests ++ vs)
    | _, _ => None
    end.
Proof.
  revert persons vests. induction labels as [|label labels IH]; intros persons vests.
  - cbn. now rewrite !app_nil_r.
  - cbn [for_each]. rewrite !instances_named_cons, !mapM_append.
    unfold instances_of.
    destruct (bool_decide (Label.Name label = "Person")) eqn:Hperson.
    + assert (Hvest : bool_decide (Label.Name label = "Vest") = false).
      { apply bool_decide_eq_true in Hperson. apply bool_decide_eq_false.
        rewrite Hperson. discriminate. }
      rewrite Hvest. destruct (Label.Instances label) as [instances|]; cbn [default from_option id].
      * rewrite entries_loop.
        destruct (mapM entry instances) as [es|]; cbn; [|reflexivity].
        rewrite IH.
        destruct (mapM entry (instances_named "Person" labels)); cbn;
          [|reflexivity].
        destruct (mapM entry (instances_named "Vest" labels)); cbn;
          [|reflexivity].
        now rewrite <- app_assoc.
      * cbn. rewrite IH.
        destruct (mapM entry (instances_named "Person" labels)); cbn;
          [|reflexivity].
        now destruct (mapM entry (instances_named "Vest" labels)).
    + destruct (bool_decide (Label.Name label = "Vest")) eqn:Hvest;
        [destruct (Label.Instances label) as [instances|]; cbn [default from_option id]|].
      * rewrite entries_loop.
        destruct (mapM entry instances) as [es|]; cbn.
        -- rewrite IH.
           destruct (mapM entry (instances_named "Person" labels)); cbn;
             [|reflexivity].
           destruct (mapM entry (instances_named "Vest" labels)); cbn;
             [|reflexivity].
           now rewrite <- app_assoc.
        -- now destruct (mapM entry (instances_named "Person" labels)).
      * cbn. rewrite IH.
        destruct (mapM entry (instances_named "Person" labels)); cbn;
          [|reflexivity].
        now destruct (mapM entry (instances_named "Vest" labels)).
      * cbn. rewrite IH.
        destruct (mapM entry (instances_named "Person" labels)); cbn;
          [|reflexivity].
        now destruct (mapM entry (instances_named "Vest" labels)).
Qed.

Lemma entry_complete (instance : LabelInstance.t) :
  is_Some (entry instance) <-> complete instance.
Proof.
  unfold complete, entry_of.
  destruct (LabelInstance.BoundingBox instance),
           (LabelInstance.Confidence instance); cbn;
    split; intros H; try (split; eauto); try (destruct H as [[? [=]] [? [=]]]);
    try (destruct H as [? [=]]); eauto.
Qed.

Lemma mapM_map_Some {A B} (f : A -> option B) (l : list A) (k : list B) :
  mapM f l = Some k -> map Some k = map f l.
Proof.
  intros Hk. apply mapM_Some in Hk.
  induction Hk as [|x y l k Hxy _ IH]; [reflexivity|].
  cbn [map]. now rewrite Hxy, IH.
Qed.

End VestInput.

(** X16.  [getPersonsAndVests] reads the instances of the labels named
    exactly 'Person' and 'Vest'.  When each of them carries a bounding box
    and a confidence it returns one entry per instance, in the order of the
    answer, with the corners [getBoundingBoxCoordinates] computes; when one
    of them lacks either key it raises, and returns nothing. *)
Theorem getPersonsAndVests_wants_complete_instances
    (float_mul float_add : Q -> Q -> Q) (labels : list Label.t)
    (imageWidth imageHeight : Q) :
  let entry :=
    VestOnlyInput.entry_of float_mul float_add imageWidth imageHeight in
  let wanted :=
    instances_named "Person" labels ++ instances_named "Vest" labels in
  (Forall complete wanted ->
   exists persons vests,
     VestOnlyInput.getPersonsAndVests float_mul float_add labels
       imageWidth imageHeight = Some (persons, vests)
     /\ map Some persons = map entry (instances_named "Person" labels)
     /\ map Some vests = map entry (instances_named "Vest" labels))
  /\ (~ Forall complete wanted ->
      VestOnlyInput.getPersonsAndVests float_mul float_add labels
        imageWidth imageHeight = None).
Proof.
  intros entry wanted. unfold VestOnlyInput.getPersonsAndVests.
  rewrite (labels_loop float_mul float_add imageWidth imageHeight labels [] []).
  fold entry. cbn [app]. split.
  - intros Hall. apply Forall_app in Hall as [Hp Hv].
    assert (Hps : is_Some (mapM entry (instances_named "Person" labels))).
    { apply mapM_is_Some. eapply Forall_impl; [exact Hp|].
      intros i Hi. now apply entry_complete. }
    assert (Hvs : is_Some (mapM entry (instances_named "Vest" labels))).
    { apply mapM_is_Some. eapply Forall_impl; [exact Hv|].
      intros i Hi. now apply entry_complete. }
    destruct Hps as [ps Hps], Hvs as [vs Hvs]. rewrite Hps, Hvs.
    exists ps, vs. split; [reflexivity|].
    split; now apply mapM_map_Some.
  - intros Hnot.
    destruct (mapM entry (instances_named "Person" labels)) as [ps|] eqn:Hps;
      [|reflexivity].
    destruct (mapM entry (instances_named "Vest" labels)) as [vs|] eqn:Hvs;
      [|reflexivity].
    exfalso. apply Hnot. apply Forall_app. split.
    + assert (Hsome : is_Some (mapM entry (instances_named "Person" labels)))
        by (rewrite Hps; eauto).
      apply mapM_is_Some in Hsome. eapply Forall_impl; [exact Hsome|].
      intros i Hi. now apply (entry_complete float_mul float_add imageWidth imageHeight).
    + assert (Hsome : is_Some (mapM entry (instances_named "Vest" labels)))
        by (rewrite Hvs; eauto).
      apply mapM_is_Some in Hsome. eapply Forall_impl; [exact Hsome|].
      intros i Hi. now apply (entry_complete float_mul float_add imageWidth imageHeight).
Qed.
